(** * Board: drag-and-drop state management of the Kanban board component

    A shallow embedding of [src/components/Board/Board.tsx] and of the
    pending-lane input, the menu and the layout passes of [BoardLane], with
    the properties of the board's reflow logic: preparing items, the three
    drag handlers, moving, adding and deleting lanes, deleting items, the
    geometry of the drag placeholder, and what the board keeps from one
    handler call to the next.

    JavaScript values are modelled as follows.
    - A plain object used as a string-keyed mapping is an association list
      of its own properties in the order [Object.keys] lists them in.
      Objects have no duplicate keys: the predicate [obj_wf] states it where
      a property needs it.  Writing a key that the object has keeps its
      place ([obj_set]).  Where the code creates properties under keys that
      it is given, [js_set] is the assignment: an array index takes its
      numeric place in front of the names, [__proto__] sets the prototype
      and creates no property, any other key comes last.  A property needs
      [plain_key], [js_ordered] or the absence of [__proto__] where it holds
      for such keys only.
    - [acc.hasOwnProperty(k)] is the call of whatever [acc] has under that
      name: [hasOwnProperty] is [None], a [TypeError], once [acc] has a
      property [hasOwnProperty] of its own.
    - An array is a [list]; [splice], [slice] and [indexOf] take the
      integer arguments the source passes, with the clamping of the
      language definition written out.
    - Numbers that the code uses as indices, ranks and pixel sizes are [Z].
    - [undefined] in a slot is [None]; an error thrown by a function is the
      [None] of the option monad.
    - The handlers change arrays and items in place.  The arranged items
      are the store they work on, threaded through the steps of a handler,
      so that a step reads what the steps before it wrote, also when the
      source lane and the destination lane are one array.  Every slot of a
      lane's array holds an item object of its own, as [cloneDeep] builds
      them; what a handler that throws half-way leaves in the arrays is not
      a state of this development. *)

From stdpp Require Import base option list strings pretty sorting relations.
From Stdlib Require Import ZArith Lia.

Open Scope Z_scope.

(** ** Objects as ordered string-keyed mappings *)

Definition obj (V : Type) : Type := list (string * V).

(** [Object.keys(o)] *)
Definition obj_keys {V} (o : obj V) : list string := o.*1.

(** The own property [k] of [o], [None] when [o] has none of that name.
    This is [o[k]], with [undefined] for [None], for every key but the
    names that [o] inherits from its prototype. *)
Fixpoint obj_get {V} (o : obj V) (k : string) : option V :=
  match o with
  | [] => None
  | (k', v) :: o' => if decide (k' = k) then Some v else obj_get o' k
  end.

(** [o[k] = v] for a key that [o] has, which keeps its place, and for a new
    key that is an ordinary name, which comes last *)
Fixpoint obj_set {V} (o : obj V) (k : string) (v : V) : obj V :=
  match o with
  | [] => [(k, v)]
  | (k', v') :: o' =>
      if decide (k' = k) then (k', v) :: o' else (k', v') :: obj_set o' k v
  end.

Definition obj_wf {V} (o : obj V) : Prop := NoDup (obj_keys o).

#[global] Instance obj_wf_dec {V} (o : obj V) : Decision (obj_wf o).
Proof. unfold obj_wf. apply _. Defined.

(** *** Creating a property on an object literal

    [obj_set] is the assignment to a key that the object has, and to a new
    key that is an ordinary name.  The assignments [acc[key] = value] by
    which [moveLane] and [prepareBoardItems] fill an empty object literal
    take any string for a key, and two kinds of key are not ordinary. *)

Definition digit_value (c : Ascii.ascii) : option N :=
  let n := Ascii.N_of_ascii c in
  if ((48 <=? n) && (n <=? 57))%N then Some (n - 48)%N else None.

Fixpoint parse_digits (acc : N) (s : string) : option N :=
  match s with
  | EmptyString => Some acc
  | String c s' => d ← digit_value c; parse_digits (acc * 10 + d)%N s'
  end.

(** An array index: the canonical decimal numeral of an integer from 0 to
    2^32 - 2.  [Object.keys] lists the array-index keys of an object first,
    in ascending numeric order, then its other string keys in the order of
    their creation. *)
Definition array_index (k : string) : option N :=
  n ← parse_digits 0 k;
  if decide (pretty n = k ∧ (n ≤ 4294967294)%N) then Some n else None.

(** Where a new array-index key [k], of value [n], comes to stand: behind
    the array-index keys below it. *)
Fixpoint insert_index {V} (o : obj V) (n : N) (k : string) (v : V) : obj V :=
  match o with
  | [] => [(k, v)]
  | (k', v') :: o' =>
      match array_index k' with
      | Some n' =>
          if (n' <? n)%N then (k', v') :: insert_index o' n k v
          else (k, v) :: (k', v') :: o'
      | None => (k, v) :: (k', v') :: o'
      end
  end.

(** [o[k] = v] for any string [k], on an object that inherits from
    [Object.prototype] or from an array.  A key the object has keeps its
    place.  Otherwise [__proto__] is the setter that [Object.prototype]
    has: it changes the prototype of [o] and creates no property; an array
    index takes its numeric place; any other key comes last. *)
Definition js_set {V} (o : obj V) (k : string) (v : V) : obj V :=
  match obj_get o k with
  | Some _ => obj_set o k v
  | None =>
      if decide (k = "__proto__") then o
      else match array_index k with
           | Some n => insert_index o n k v
           | None => obj_set o k v
           end
  end.

(** [o.hasOwnProperty(k)] on an object [o] whose values are arrays.  The
    method is the one [o] inherits, unless [o] has a property of that name
    itself: the call is then the call of an array, a [TypeError], which is
    [None]. *)
Definition hasOwnProperty {V} (o : obj V) (k : string) : option bool :=
  if decide ("hasOwnProperty" ∈ obj_keys o) then None
  else Some (bool_decide (k ∈ obj_keys o)).

(** [k1] may stand in front of [k2] among the keys of an object. *)
Definition js_before (k1 k2 : string) : Prop :=
  match array_index k1, array_index k2 with
  | Some n1, Some n2 => (n1 < n2)%N
  | Some _, None => True
  | None, Some _ => False
  | None, None => True
  end.

#[global] Instance js_before_dec k1 k2 : Decision (js_before k1 k2).
Proof.
  unfold js_before.
  destruct (array_index k1), (array_index k2); apply _.
Defined.

(** The keys of an object as [Object.keys] can list them. *)
Definition js_ordered (keys : list string) : Prop :=
  StronglySorted js_before keys.

(** An ordinary name: neither an array index nor [__proto__]. *)
Definition plain_key (k : string) : Prop :=
  array_index k = None ∧ k ≠ "__proto__".

#[global] Instance plain_key_dec k : Decision (plain_key k).
Proof. unfold plain_key. apply _. Defined.

(** ** Arrays *)

(** Clamping of a relative index against a length, as [splice] and [slice]
    do with their first argument: a negative index counts from the end. *)
Definition relative_index (len i : Z) : Z :=
  if i <? 0 then Z.max (len + i) 0 else Z.min i len.

(** [l.splice(start, deleteCount, ...items)]: the removed elements and the
    array after the call. *)
Definition splice {A} (l : list A) (start deleteCount : Z) (items : list A)
  : list A * list A :=
  let len := Z.of_nat (length l) in
  let actualStart := relative_index len start in
  let actualDeleteCount := Z.min (Z.max deleteCount 0) (len - actualStart) in
  let s := Z.to_nat actualStart in
  let d := Z.to_nat actualDeleteCount in
  (take d (drop s l), take s l ++ items ++ drop (s + d) l).

(** [l.slice(start, end)] *)
Definition slice {A} (l : list A) (start end_ : Z) : list A :=
  let len := Z.of_nat (length l) in
  let k := relative_index len start in
  let final := relative_index len end_ in
  take (Z.to_nat (final - k)) (drop (Z.to_nat k) l).

(** [l.indexOf(x)]: the first index holding [x], [-1] when there is none. *)
Fixpoint indexOf_from {A} `{EqDecision A} (l : list A) (x : A) (i : Z) : Z :=
  match l with
  | [] => -1
  | y :: l' => if decide (y = x) then i else indexOf_from l' x (i + 1)
  end.

Definition indexOf {A} `{EqDecision A} (l : list A) (x : A) : Z :=
  indexOf_from l x 0.

(** [l.find(p)] *)
Fixpoint find {A} (p : A → bool) (l : list A) : option A :=
  match l with
  | [] => None
  | x :: l' => if p x then Some x else find p l'
  end.

(** ** Lanes *)

(** The second parameter of [moveLane], of type [1 | -1]. *)
Inductive Delta : Type := Further | Nearer.

Definition delta_value (d : Delta) : Z :=
  match d with Further => 1 | Nearer => -1 end.

(** A property key made of an array element that may be [undefined]. *)
Definition toPropertyKey (k : option string) : string :=
  match k with Some s => s | None => "undefined" end.

Section Lanes.

(** [TTextObject], the type of a title, is declared with the translations,
    outside these files.  The board itself only hands titles on, to
    [getText]. *)
Context {TTextObject : Type}.

Record TBoardLane : Type := { title : TTextObject }.

Definition TBoardLanes : Type := obj TBoardLane.

(** The key array of [moveLane] after its two nested [splice] calls.  The
    inner call runs first, as an argument of the outer one; its first
    removed element is [undefined] when it removed nothing. *)
Definition moveLane_keys (laneKeys : list (option string)) (laneKey : string)
    (delta : Delta) : list (option string) :=
  let from := indexOf laneKeys (Some laneKey) in
  let '(removed, laneKeys1) := splice laneKeys from 1 [] in
  let moved : option string := default None (removed !! 0%nat) in
  (splice laneKeys1 (from + delta_value delta) 0 [moved]).2.

(** [moveLane]: the lanes object handed to [setArrangedLanes], built from
    an empty object literal by one assignment per key of the rearranged key
    array.  A slot is [None] where the source stores
    [arrangedLanes[currentLaneKey]] for a key that [arrangedLanes] does not
    have. *)
Definition moveLane (arrangedLanes : TBoardLanes) (laneKey : string)
    (delta : Delta) : obj (option TBoardLane) :=
  let laneKeys := moveLane_keys (Some <$> obj_keys arrangedLanes) laneKey delta in
  foldl (λ nextArrangedLanes currentLaneKey,
           js_set nextArrangedLanes (toPropertyKey currentLaneKey)
             (obj_get arrangedLanes (toPropertyKey currentLaneKey)))
        [] laneKeys.

End Lanes.

Arguments TBoardLane : clear implicits.
Arguments TBoardLanes : clear implicits.

(** ** Items *)

(** [Array.prototype.sort] with a numeric comparator.  The sort is stable:
    among elements that compare equal the earlier one stays in front, which
    is what inserting each element in front of the sorted rest does. *)
Fixpoint sort_insert {A} (compareFn : A → A → Z) (x : A) (l : list A) : list A :=
  match l with
  | [] => [x]
  | y :: l' =>
      if compareFn x y <=? 0 then x :: y :: l'
      else y :: sort_insert compareFn x l'
  end.

Fixpoint sort {A} (compareFn : A → A → Z) (l : list A) : list A :=
  match l with
  | [] => []
  | x :: l' => sort_insert compareFn x (sort compareFn l')
  end.

Section Items.

Context {TTextObject : Type}.

(** The fields of an item that the board does not itself read (subtitle,
    body, users, preview, ...), declared with [BoardItem]. *)
Context {CustomFields : Type}.

(** Modelled from the spec: [IBoardItem] is declared with [BoardItem]; an
    item is [{ lane, title, order, ...custom fields }].  Its [title] is
    [item_title] here, [title] being the lane's. *)
Record IBoardItem : Type := {
  lane : string;
  item_title : TTextObject;
  order : Z;
  custom : CustomFields;
}.

(** Modelled from the spec: [IPreparedBoardItem], declared with [BoardItem],
    is an [IBoardItem] that also has the [itemKey] which
    [prepareBoardItems] assigns. *)
Record IPreparedBoardItem : Type := {
  itemKey : string;
  asBoardItem : IBoardItem;
}.

Definition TBoardItems : Type := obj IBoardItem.
Definition IPreparedBoardItems : Type := obj (list IPreparedBoardItem).

Definition compareOrder (a b : IPreparedBoardItem) : Z :=
  order (asBoardItem a) - order (asBoardItem b).

(** The first pass of [prepareBoardItems], its local
    [unsortedPreparedBoardItems].  It walks [Object.keys(items)] and reads
    [items[itemKey]], that is, the entries of [items] in key order, and
    writes each item's key into the item.  [None] is the [TypeError] of
    [acc.hasOwnProperty] once [acc] has a group of that name.  The source
    pushes the caller's item object itself; [items] is taken to hold an
    object of its own under each key, and an element of a group is that
    object as the pass leaves it. *)
Definition unsortedPreparedBoardItems (items : TBoardItems)
  : option IPreparedBoardItems :=
  foldl (λ (acc : option IPreparedBoardItems) '(key, it),
           acc ← acc;
           let item := {| itemKey := key; asBoardItem := it |} in
           own ← hasOwnProperty acc (lane it);
           if own : bool then
             group ← obj_get acc (lane it);
             Some (obj_set acc (lane it) (group ++ [item]))
           else Some (js_set acc (lane it) [item]))
        (Some []) items.

(** [prepareBoardItems]; the second pass asks the groups of the first with
    [hasOwnProperty] again, once for each lane key. *)
Definition prepareBoardItems (items : TBoardItems)
    (lanes : TBoardLanes TTextObject) : option IPreparedBoardItems :=
  unsorted ← unsortedPreparedBoardItems items;
  foldl (λ (acc : option IPreparedBoardItems) laneKey,
           acc ← acc;
           own ← hasOwnProperty unsorted laneKey;
           group ←
             (if own : bool
              then sort compareOrder <$> obj_get unsorted laneKey
              else Some []);
           Some (js_set acc laneKey group))
        (Some []) (obj_keys lanes).

Definition resetOrder (item : IPreparedBoardItem) (newOrder : Z)
  : IPreparedBoardItem :=
  {| itemKey := itemKey item;
     asBoardItem := {| lane := lane (asBoardItem item);
                       item_title := item_title (asBoardItem item);
                       order := newOrder;
                       custom := custom (asBoardItem item) |} |}.

(** [arr.map(resetOrder)]: the callback receives each element with its
    index and assigns the index to the element's [order] in place. *)
Definition mapResetOrder (arr : list IPreparedBoardItem)
  : list IPreparedBoardItem :=
  imap (λ i item, resetOrder item (Z.of_nat i)) arr.

(** [cloneDeep] on the arranged items: every lane array and every item in
    it is rebuilt field by field. *)
Definition cloneItem (item : IPreparedBoardItem) : IPreparedBoardItem :=
  {| itemKey := itemKey item;
     asBoardItem := {| lane := lane (asBoardItem item);
                       item_title := item_title (asBoardItem item);
                       order := order (asBoardItem item);
                       custom := custom (asBoardItem item) |} |}.

Definition cloneDeep (items : IPreparedBoardItems) : IPreparedBoardItems :=
  map (λ '(laneKey, arr), (laneKey, map cloneItem arr)) items.

(** ** Board state and the drop handler *)

Definition TPlaceholderPosition : Type := option (Z * Z * Z * Z).

(** The state cells of [Board], and the counter behind lodash's
    [uniqueId]. *)
Record BoardState : Type := {
  arrangedLanes : TBoardLanes TTextObject;
  arrangedItems : IPreparedBoardItems;
  addingLane : bool;
  placeholderPosition : TPlaceholderPosition;
  idCounter : nat;
}.

Record DraggableLocation : Type := {
  droppableId : string;
  index : Z;
}.

Inductive DropReason : Type := DROP | CANCEL.

Record DropResult : Type := {
  draggableId : string;
  reason : DropReason;
  source : DraggableLocation;
  destination : option DraggableLocation;
}.

(** What is passed to [provided.announce]: the translation entry that is
    interpolated and the values it is interpolated with.  A title is [None]
    when the handler passes [undefined] to [getText]. *)
Inductive Announcement : Type :=
  | OnDragEndBoardItem (itemTitle : TTextObject) (itemPosition : Z)
      (laneLength : nat) (laneTitle : option TTextObject)
  | OnDragCancelBoardItem (itemTitle : TTextObject).

(** [onDragEnd].  The result is the state after the handler's setters have
    taken effect, with the announcements made; [None] is a [TypeError]
    raised by a member access on [undefined].  The two [splice] calls and
    the two [map(resetOrder)] calls change [arrangedItems] in place:
    [arrangedItems1] and [arrangedItems2] are that object after each pair,
    and the destination array is read from [arrangedItems1]. *)
Definition onDragEnd (st : BoardState) (ev : DropResult)
  : option (BoardState * list Announcement) :=
  let arrangedItems0 := arrangedItems st in
  sourceLane ← obj_get arrangedItems0 (droppableId (source ev));
  let boardItem :=
    find (λ boardItem, bool_decide (itemKey boardItem = draggableId ev))
         sourceLane in
  announcement ←
    match destination ev with
    | Some destination =>
        let laneKey := droppableId destination in
        found ← boardItem;
        destinationLane ← obj_get arrangedItems0 laneKey;
        (* [laneKey && arrangedLanes[laneKey]] is the empty key itself when
           the key is empty, and the empty string has no [title] *)
        laneTitle ←
          (if decide (laneKey = "") then Some None
           else boardLane ← obj_get (arrangedLanes st) laneKey;
                Some (Some (title boardLane)));
        Some (OnDragEndBoardItem (item_title (asBoardItem found))
                (Z.max 1 (index destination + 1))
                (length destinationLane) laneTitle)
    | None =>
        found ← boardItem;
        Some (OnDragCancelBoardItem (item_title (asBoardItem found)))
    end;
  match destination ev with
  | Some destination =>
      let sourceLaneKey := droppableId (source ev) in
      let destinationLaneKey := droppableId destination in
      sourceArr ← obj_get arrangedItems0 sourceLaneKey;
      let '(movingItems, sourceArr1) := splice sourceArr (index (source ev)) 1 [] in
      let arrangedItems1 :=
        obj_set arrangedItems0 sourceLaneKey (mapResetOrder sourceArr1) in
      destinationArr ← obj_get arrangedItems1 destinationLaneKey;
      (* [movingItems[0]] is [undefined] when nothing was removed; it is
         then spliced in and the following [map(resetOrder)] throws on it *)
      moving ← movingItems !! 0%nat;
      let destinationArr1 :=
        (splice destinationArr (index destination) 0 [moving]).2 in
      let arrangedItems2 :=
        obj_set arrangedItems1 destinationLaneKey (mapResetOrder destinationArr1) in
      Some ({| arrangedLanes := arrangedLanes st;
               arrangedItems := cloneDeep arrangedItems2;
               addingLane := addingLane st;
               placeholderPosition := None;
               idCounter := idCounter st |},
            [announcement])
  | None => Some (st, [announcement])
  end.

(** ** Adding a lane *)

(** A string is a [TTextObject]: the text typed for a new lane becomes the
    lane's title. *)
Context (textOfString : string → TTextObject).

(** lodash's [uniqueId(prefix)]: increments its counter and appends the
    counter's decimal digits to the prefix. *)
Definition uniqueId (prefix : string) (counter : nat) : string * nat :=
  (prefix +:+ pretty (S counter), S counter).

(** [Object.assign(target, { [k]: v })] *)
Definition obj_assign1 {V} (target : obj V) (k : string) (v : V) : obj V :=
  obj_set target k v.

(** The [exitPendingLane] callback that [Board] gives the pending lane. *)
Definition exitPendingLane (st : BoardState) (value : string) : BoardState :=
  if (0 <? String.length value)%nat then
    let '(newLaneKey, counter) := uniqueId "sl" (idCounter st) in
    {| arrangedLanes :=
         obj_assign1 (arrangedLanes st) newLaneKey
           {| title := textOfString value |};
       arrangedItems := obj_assign1 (arrangedItems st) newLaneKey [];
       addingLane := false;
       placeholderPosition := placeholderPosition st;
       idCounter := counter |}
  else
    {| arrangedLanes := arrangedLanes st;
       arrangedItems := arrangedItems st;
       addingLane := false;
       placeholderPosition := placeholderPosition st;
       idCounter := idCounter st |}.

(** The events of the text input that [BoardLane] renders for a pending
    lane, each carrying the input's current value. *)
Inductive PendingLaneInputEvent : Type :=
  | Blur (value : string)
  | KeyDown (key : string) (value : string).

Definition pendingLaneInput (st : BoardState) (e : PendingLaneInputEvent)
  : BoardState :=
  match e with
  | Blur value => exitPendingLane st value
  | KeyDown key value =>
      if decide (key = "Escape") then exitPendingLane st ""
      else if decide (key = "Enter") then exitPendingLane st value
      else st
  end.

End Items.

Arguments IBoardItem : clear implicits.
Arguments IPreparedBoardItem : clear implicits.
Arguments TBoardItems : clear implicits.
Arguments IPreparedBoardItems : clear implicits.
Arguments BoardState : clear implicits.
Arguments Announcement : clear implicits.

(** ** Placeholder geometry *)

#[local] Set Warnings "-register-all".

(** The part of a DOM element the board reads: its client box, its
    [data-rbd-draggable-id] attribute ([None] for [null]), its parent node
    if it has one, as a handle, and its element children. *)
Inductive Element : Type := mkElement {
  clientHeight : Z;
  clientWidth : Z;
  dataRbdDraggableId : option string;
  parentNode : option nat;
  children : list Element;
}.

Definition getClientYChildren (parent : Element) (draggableId : string)
    (endIndex : Z) : list Element :=
  slice
    (List.filter
       (λ child,
          match dataRbdDraggableId child with
          | Some childDraggableId =>
              negb (String.eqb childDraggableId draggableId)
          | None => false
          end)
       (children parent))
    0 endIndex.

(** [getPlaceholderPosition]; the first argument is [None] for a
    [$draggable] that is [null]. *)
Definition getPlaceholderPosition (draggable : option Element)
    (clientYChildren : list Element) : TPlaceholderPosition :=
  match draggable with
  | None => None
  | Some el =>
      match parentNode el with
      | None => None
      | Some _ =>
          let clientY :=
            foldl (λ acc child, acc + clientHeight child + 8) 2 clientYChildren in
          let clientX := 20 in
          Some (clientX, clientY, clientWidth el, clientHeight el)
      end
  end.

(** ** The other handlers of the board *)

(** [l.findIndex(p)]: the first index whose element satisfies [p], [-1]
    when there is none. *)
Fixpoint findIndex_from {A} (p : A → bool) (l : list A) (i : Z) : Z :=
  match l with
  | [] => -1
  | x :: l' => if p x then i else findIndex_from p l' (i + 1)
  end.

Definition findIndex {A} (p : A → bool) (l : list A) : Z :=
  findIndex_from p l 0.

(** lodash's [omit(object, [key])] for an own key of [object]: a copy of the
    object without that property, the others in their order. *)
Definition omit {V} (o : obj V) (key : string) : obj V :=
  filter (B := list (string * V)) (λ entry, entry.1 ≠ key) o.

(** The events of a drag before its end, as the handlers read them. *)
Record DragStart : Type := {
  start_draggableId : string;
  start_source : DraggableLocation;
}.

Record DragUpdate : Type := {
  update_draggableId : string;
  update_source : DraggableLocation;
  update_destination : option DraggableLocation;
}.

(** What the handlers ask of the document: [querySelector], and the element
    behind a [parentNode].  [querySelector] throws a [SyntaxError], which is
    [None], for a selector that it cannot parse, and returns [null], which
    is [Some None], when no element matches. *)
Record Document : Type := {
  querySelector : string → option (option Element);
  nodeOf : nat → Element;
}.

(** [getDraggable] and [getDroppable] paste the identifier into the
    selector as it is; an identifier with a quote in it, for one, makes a
    selector that cannot be parsed. *)
Definition getDraggable (doc : Document) (draggableId : string)
  : option (option Element) :=
  querySelector doc
    ("[data-rbd-drag-handle-draggable-id='" +:+ draggableId +:+ "']").

Definition getDroppable (doc : Document) (droppableId : string)
  : option (option Element) :=
  querySelector doc ("[data-rbd-droppable-id='" +:+ droppableId +:+ "']").

Section Handlers.
Context {TTextObject CustomFields : Type}.
Implicit Types (st : BoardState TTextObject CustomFields).

(** [deleteLane]: only the lanes are set. *)
Definition deleteLane st (laneKey : string)
  : BoardState TTextObject CustomFields :=
  {| arrangedLanes := omit (arrangedLanes st) laneKey;
     arrangedItems := arrangedItems st;
     addingLane := addingLane st;
     placeholderPosition := placeholderPosition st;
     idCounter := idCounter st |}.

(** The [onConfirm] of the dialog that deletes an item: the item is looked
    for, by key, in the lane its [lane] field names, and [splice] is given
    the position found, [-1] included.  [None] is the [TypeError] of a lane
    that the items do not have. *)
Definition deleteItem st (boardItem : IPreparedBoardItem TTextObject CustomFields)
  : option (BoardState TTextObject CustomFields) :=
  let laneKey := lane (asBoardItem boardItem) in
  laneArr ← obj_get (arrangedItems st) laneKey;
  let pos :=
    findIndex (λ laneItem, bool_decide (itemKey laneItem = itemKey boardItem))
              laneArr in
  let laneArr1 := (splice laneArr pos 1 []).2 in
  Some {| arrangedLanes := arrangedLanes st;
          arrangedItems := cloneDeep (obj_set (arrangedItems st) laneKey laneArr1);
          addingLane := addingLane st;
          placeholderPosition := placeholderPosition st;
          idCounter := idCounter st |}.

(** What [onDragStart] and [onDragUpdate] pass to [provided.announce]; the
    update has one translation entry for the same lane and one for a
    different lane. *)
Inductive DragAnnouncement : Type :=
  | OnDragStartBoardItem (itemTitle : TTextObject) (itemPosition : Z)
      (laneLength : nat) (laneTitle : TTextObject)
  | OnDragUpdateBoardItem (sameLane : bool) (itemTitle : TTextObject)
      (itemPosition : Z) (laneLength : nat) (laneTitle : TTextObject).

(** What a call of [onDragStart] or [onDragUpdate] comes to: the
    announcements it has made, and the state after its setters have taken
    effect, or [None] when it has thrown. *)
Definition DragOutcome : Type :=
  (list DragAnnouncement * option (BoardState TTextObject CustomFields))%type.

(** [onDragStart].  [indexOf] looks for the very object that [find]
    returned, which stands at the first position holding its key.  The
    announcement is put together and made before the document is asked for
    the dragged element. *)
Definition onDragStart (doc : Document) st (event : DragStart) : DragOutcome :=
  let laneKey := droppableId (start_source event) in
  let itemKey' := start_draggableId event in
  let boardLane := obj_get (arrangedLanes st) laneKey in
  let isDragged :=
    λ boardItem : IPreparedBoardItem TTextObject CustomFields,
      bool_decide (itemKey boardItem = itemKey') in
  match
    laneArr ← obj_get (arrangedItems st) laneKey;
    boardItem ← find isDragged laneArr;
    boardLane' ← boardLane;
    Some (OnDragStartBoardItem (item_title (asBoardItem boardItem))
            (findIndex isDragged laneArr + 1) (length laneArr)
            (title boardLane'))
  with
  | None => ([], None)
  | Some announcement =>
      ([announcement],
       draggable ← getDraggable doc (start_draggableId event);
       match draggable with
       | None => Some st
       | Some draggable =>
           match parentNode draggable with
           | None => Some st
           | Some parent =>
               Some {| arrangedLanes := arrangedLanes st;
                       arrangedItems := arrangedItems st;
                       addingLane := addingLane st;
                       placeholderPosition :=
                         getPlaceholderPosition (Some draggable)
                           (getClientYChildren (nodeOf doc parent)
                              (start_draggableId event)
                              (index (start_source event)));
                       idCounter := idCounter st |}
           end
       end)
  end.

(** [onDragUpdate]: it returns before anything else when there is no
    destination; it asks the document for both elements, and returns when
    one of the two is not found. *)
Definition onDragUpdate (doc : Document) st (event : DragUpdate) : DragOutcome :=
  match update_destination event with
  | None => ([], Some st)
  | Some destination =>
      match getDraggable doc (update_draggableId event) with
      | None => ([], None)
      | Some draggable =>
          match getDroppable doc (droppableId destination) with
          | None => ([], None)
          | Some droppable =>
              match draggable, droppable with
              | Some draggable, Some droppable =>
                  let destinationLaneKey := droppableId destination in
                  let itemKey' := update_draggableId event in
                  let boardLane :=
                    obj_get (arrangedLanes st) destinationLaneKey in
                  match
                    sourceArr ←
                      obj_get (arrangedItems st)
                        (droppableId (update_source event));
                    boardItem ←
                      find (λ boardItem,
                              bool_decide (itemKey boardItem = itemKey'))
                           sourceArr;
                    destinationArr ←
                      obj_get (arrangedItems st) destinationLaneKey;
                    boardLane' ← boardLane;
                    Some (OnDragUpdateBoardItem
                            (bool_decide
                               (destinationLaneKey
                                = droppableId (update_source event)))
                            (item_title (asBoardItem boardItem))
                            (index destination + 1) (length destinationArr)
                            (title boardLane'))
                  with
                  | None => ([], None)
                  | Some announcement =>
                      ([announcement],
                       Some {| arrangedLanes := arrangedLanes st;
                               arrangedItems := arrangedItems st;
                               addingLane := addingLane st;
                               placeholderPosition :=
                                 getPlaceholderPosition (Some draggable)
                                   (getClientYChildren droppable
                                      (update_draggableId event)
                                      (index destination));
                               idCounter := idCounter st |})
                  end
              | _, _ => ([], Some st)
              end
          end
      end
  end.

(** [Board]: the state of a board on its first render, and the toolbar's
    [add_column] callback.  There is no board when [prepareBoardItems]
    throws.  The lanes state is the object given as [lanes]; the prototype
    of the object that [prepareBoardItems] returns, which a lane key
    [__proto__] replaces, is not part of the state here. *)
Definition initialBoard (lanes : TBoardLanes TTextObject)
    (items : TBoardItems TTextObject CustomFields) (counter : nat)
  : option (BoardState TTextObject CustomFields) :=
  preparedItems ← prepareBoardItems items lanes;
  Some {| arrangedLanes := lanes;
          arrangedItems := preparedItems;
          addingLane := false;
          placeholderPosition := None;
          idCounter := counter |}.

Definition add_column st : BoardState TTextObject CustomFields :=
  {| arrangedLanes := arrangedLanes st;
     arrangedItems := arrangedItems st;
     addingLane := true;
     placeholderPosition := placeholderPosition st;
     idCounter := idCounter st |}.

(** A render of the board: while a lane is being added, the pending lane is
    rendered with a key from [uniqueId("pl")], which advances the counter. *)
Definition renderBoard st : BoardState TTextObject CustomFields :=
  if addingLane st then
    {| arrangedLanes := arrangedLanes st;
       arrangedItems := arrangedItems st;
       addingLane := addingLane st;
       placeholderPosition := placeholderPosition st;
       idCounter := (uniqueId "pl" (idCounter st)).2 |}
  else st.

(** The flags [Board] gives the lane it renders at [laneIndex], and what
    the lane's menu disables with them: "move lane nearer" on [first], "move
    lane further" on [last], "delete" on a lane whose sequence has a
    non-zero length. *)
Definition laneFirst (laneIndex : nat) : bool := bool_decide (laneIndex = 0%nat).

Definition laneLast st (laneIndex : nat) : bool :=
  if addingLane st then false
  else bool_decide (Z.of_nat laneIndex
                    = Z.of_nat (length (obj_keys (arrangedLanes st))) - 1).

Definition moveLaneDisabled st (laneIndex : nat) (delta : Delta) : bool :=
  match delta with
  | Nearer => laneFirst laneIndex
  | Further => laneLast st laneIndex
  end.

Definition deleteLaneDisabled st (laneKey : string) : bool :=
  match obj_get (arrangedItems st) laneKey with
  | Some preparedItems => negb (bool_decide (length preparedItems = 0%nat))
  | None => false
  end.

End Handlers.

Arguments DragAnnouncement : clear implicits.
Arguments DragOutcome : clear implicits.

(** ** The layout passes of a lane *)

(** What [BoardLane] keeps for its layout: the [layoutState] and
    [scrollbarWidth] state cells, the [laneContentWidth] ref, and the render
    whose [onResize] is registered for the window's resize event, if any. *)
Record LaneLayout : Type := {
  layoutState : Z;
  scrollbarWidth : Z;
  laneContentWidth : option Z;
  resizeListener : option nat;
}.

(** The lane on mount. *)
Definition mountedLane : LaneLayout :=
  {| layoutState := -1; scrollbarWidth := 16;
     laneContentWidth := None; resizeListener := None |}.

(** The body of the layout effect in render [render], where [laneContent]
    is [$laneContent.current].  A width of zero is falsy. *)
Definition layoutEffect (render : nat) (laneContent : option Element)
    (s : LaneLayout) : LaneLayout :=
  if layoutState s =? -1 then
    {| layoutState := 0; scrollbarWidth := scrollbarWidth s;
       laneContentWidth := laneContentWidth s;
       resizeListener := Some render |}
  else if layoutState s =? 0 then
    {| layoutState := 1; scrollbarWidth := scrollbarWidth s;
       laneContentWidth :=
         match laneContent with
         | Some el => Some (clientWidth el)
         | None => laneContentWidth s
         end;
       resizeListener := resizeListener s |}
  else if layoutState s =? 1 then
    {| layoutState := 2;
       scrollbarWidth :=
         match laneContent, laneContentWidth s with
         | Some el, Some width =>
             if width =? 0 then scrollbarWidth s else width - clientWidth el
         | _, _ => scrollbarWidth s
         end;
       laneContentWidth := laneContentWidth s;
       resizeListener := resizeListener s |}
  else s.

(** The clean-up that the effect of render [render] returned: it removes
    that render's [onResize]. *)
Definition layoutCleanup (render : nat) (s : LaneLayout) : LaneLayout :=
  {| layoutState := layoutState s; scrollbarWidth := scrollbarWidth s;
     laneContentWidth := laneContentWidth s;
     resizeListener :=
       if decide (resizeListener s = Some render) then None
       else resizeListener s |}.

(** One render of the lane: the effect has no dependency list, so the
    clean-up of the render before runs, then the body. *)
Definition layoutPass (render : nat) (laneContent : option Element)
    (s : LaneLayout) : LaneLayout :=
  layoutEffect render laneContent
    (match render with
     | O => s
     | S previous => layoutCleanup previous s
     end).

(** The renders from [render] on, one for each measurement in the list. *)
Fixpoint layoutPasses (render : nat) (measured : list (option Element))
    (s : LaneLayout) : LaneLayout :=
  match measured with
  | [] => s
  | laneContent :: rest =>
      layoutPasses (S render) rest (layoutPass render laneContent s)
  end.

(** [onResize] *)
Definition onResize (s : LaneLayout) : LaneLayout :=
  {| layoutState := 0; scrollbarWidth := scrollbarWidth s;
     laneContentWidth := laneContentWidth s;
     resizeListener := resizeListener s |}.

(** The lane's [opacity], and whether it renders its items. *)
Definition laneOpacity (s : LaneLayout) : Z :=
  if layoutState s =? 2 then 1 else 0.

Definition rendersItems {A} (s : LaneLayout) (preparedItems : option (list A))
  : bool :=
  (0 <? layoutState s)
  && match preparedItems with
     | Some l => negb (bool_decide (length l = 0%nat))
     | None => false
     end.

(** The layout that render number [n] of a lane draws, counting the
    renders from 0: a render draws the state that the effects of the
    renders before it have left, and the effect of render [i] has measured
    [measured !! i].  The first render draws the lane as it is mounted. *)
Definition drawnLayout (measured : list (option Element)) (n : nat)
  : LaneLayout :=
  layoutPasses 0 (take n measured) mountedLane.

(** ** The cards on display *)

(** The items a lane renders as cards: its [preparedItems], once the lane
    has measured its width and if there is any. *)
Definition renderedItems {A} (s : LaneLayout) (preparedItems : option (list A))
  : list A :=
  if rendersItems s preparedItems then default [] preparedItems else [].

(** The cards of the board: [Board] renders a lane for each key of the
    arranged lanes, in their order, and gives it [arrangedItems[laneKey]].
    A lane's layout state belongs to the lane's key. *)
Definition boardCards {TTextObject CustomFields}
    (st : BoardState TTextObject CustomFields) (layout : string → LaneLayout)
  : list (IPreparedBoardItem TTextObject CustomFields) :=
  concat ((λ laneKey, renderedItems (layout laneKey)
                        (obj_get (arrangedItems st) laneKey))
          <$> obj_keys (arrangedLanes st)).

(** The drop that takes a card back: from where [ev] dropped it, at [d], to
    where [ev] took it from. *)
Definition dropBack (ev : DropResult) (d : DraggableLocation) : DropResult :=
  {| draggableId := draggableId ev;
     reason := reason ev;
     source := d;
     destination := Some (source ev) |}.

(** A lanes object all of whose lanes are defined, as [moveLane] builds
    it from the lanes of the board. *)
Definition definedLanes {TTextObject} (lanes : TBoardLanes TTextObject)
  : obj (option (TBoardLane TTextObject)) :=
  (λ entry, (entry.1, Some entry.2)) <$> lanes.

(** The other direction. *)
Definition opposite (delta : Delta) : Delta :=
  match delta with Further => Nearer | Nearer => Further end.

(** ** Reference operations on sequences

    The operations the specification names, written on positions that are
    natural numbers; the handlers are compared with them below. *)

(** Insert [x] so that it stands at position [j]. *)
Definition insert_at {A} (j : nat) (x : A) (l : list A) : list A :=
  take j l ++ x :: drop j l.

(** Exchange the elements at positions [i] and [i + 1], when both exist. *)
Fixpoint swap_adjacent {A} (i : nat) (l : list A) : list A :=
  match i, l with
  | O, x :: y :: l' => y :: x :: l'
  | S i', x :: l' => x :: swap_adjacent i' l'
  | _, _ => l
  end.

(** Move the element at position [i] by one slot, staying put at the edges. *)
Definition move_one_slot {A} (i : nat) (delta : Delta) (l : list A) : list A :=
  match delta, i with
  | Further, _ => swap_adjacent i l
  | Nearer, O => l
  | Nearer, S i' => swap_adjacent i' l
  end.

(** Where [moveLane] puts the key found at position [i] of [n] keys. *)
Definition moveLane_position (n i : nat) (delta : Delta) : nat :=
  match delta, i with
  | Further, _ => (i + 1) `min` (n - 1)
  | Nearer, O => n - 2
  | Nearer, S i' => i'
  end.

Section Reference.
Context {TTextObject CustomFields : Type}.
Implicit Types (a b : IPreparedBoardItem TTextObject CustomFields).
Implicit Types (l : list (IPreparedBoardItem TTextObject CustomFields)).
Implicit Types (items : IPreparedBoardItems TTextObject CustomFields).
Implicit Types (st : BoardState TTextObject CustomFields).

(** Every item of the flat mapping together with its key, in key order. *)
Definition keyed_items (flat : TBoardItems TTextObject CustomFields)
  : list (IPreparedBoardItem TTextObject CustomFields) :=
  (λ '(key, it), {| itemKey := key; asBoardItem := it |}) <$> flat.

(** The items that name lane [k]. *)
Definition in_lane (k : string) l
  : list (IPreparedBoardItem TTextObject CustomFields) :=
  filter (λ item, lane (asBoardItem item) = k) l.

(** What the second pass of [prepareBoardItems] stores under a lane key,
    from the groups of the first pass. *)
Definition sorted_group items (laneKey : string)
  : list (IPreparedBoardItem TTextObject CustomFields) :=
  match obj_get items laneKey with
  | Some group => sort compareOrder group
  | None => []
  end.

(** No item names a lane [hasOwnProperty]. *)
Definition no_shadowing (flat : TBoardItems TTextObject CustomFields) : Prop :=
  Forall (λ entry, lane entry.2 ≠ "hasOwnProperty") flat.

(** [a] does not rank after [b]. *)
Definition order_le a b : Prop :=
  order (asBoardItem a) ≤ order (asBoardItem b).

(** The [order] of every item is its position in the sequence. *)
Definition ranked l : Prop :=
  ∀ (n : nat) item, l !! n = Some item → order (asBoardItem item) = Z.of_nat n.

(** An item with the rank [n] for its [order] and every other field as it
    is. *)
Definition with_rank a (n : nat)
  : IPreparedBoardItem TTextObject CustomFields :=
  {| itemKey := itemKey a;
     asBoardItem := {| lane := lane (asBoardItem a);
                       item_title := item_title (asBoardItem a);
                       order := Z.of_nat n;
                       custom := custom (asBoardItem a) |} |}.

(** Re-rank a sequence: give its items the contiguous ranks 0, 1, 2, ...
    and leave them otherwise as they are. *)
Definition rerank l : list (IPreparedBoardItem TTextObject CustomFields) :=
  zip_with with_rank l (seq 0 (length l)).

(** The drop commit as the specification words it: remove the item at
    position [i] of the source lane and re-rank the remainder, then insert
    the item at position [j] of the destination lane and re-rank that. *)
Definition move_item items (sourceLane : string) (i : nat)
    (destinationLane : string) (j : nat)
  : option (IPreparedBoardItems TTextObject CustomFields) :=
  src ← obj_get items sourceLane;
  moved ← src !! i;
  let items1 := obj_set items sourceLane (rerank (delete i src)) in
  dst ← obj_get items1 destinationLane;
  Some (obj_set items1 destinationLane (rerank (insert_at j moved dst))).

(** A drop as the drag-and-drop library delivers it: the dragged item is in
    the source lane, the source index is a position of that lane, and the
    destination is a lane of the board. *)
Definition well_formed_drop st (ev : DropResult) (d : DraggableLocation)
  : Prop :=
  ∃ src (i : nat),
    obj_get (arrangedItems st) (droppableId (source ev)) = Some src
    ∧ is_Some (find (λ boardItem,
                       bool_decide (itemKey boardItem = draggableId ev)) src)
    ∧ index (source ev) = Z.of_nat i
    ∧ is_Some (src !! i)
    ∧ is_Some (obj_get (arrangedLanes st) (droppableId d))
    ∧ is_Some (obj_get (arrangedItems st) (droppableId d)).

(** The item keys of one lane, and of the whole board lane after lane. *)
Definition lane_item_keys items (k : string) : list string :=
  itemKey <$> default [] (obj_get items k).

Definition item_keys items : list string :=
  itemKey <$> concat (items.*2).

End Reference.

(** How many times a key occurs in a list of keys. *)
Definition occurrences (key : string) (keys : list string) : nat :=
  length (filter (λ k, k = key) keys).

(** Total rendered height of a list of elements. *)
Definition sum_heights (els : list Element) : Z :=
  foldr (λ el acc, clientHeight el + acc) 0 els.

(** A child that carries a draggable id other than the dragged one. *)
Definition other_draggable (draggableId : string) (child : Element) : bool :=
  match dataRbdDraggableId child with
  | Some childDraggableId => negb (String.eqb childDraggableId draggableId)
  | None => false
  end.

(** ** The board in use *)

Section BoardInUse.
Context {TTextObject CustomFields : Type}.
Context (doc : Document) (textOfString : string → TTextObject).
Implicit Types (st : BoardState TTextObject CustomFields).

(** What a handler call that returns makes of the board: the three drag
    handlers, the entries of a lane's menu, which a lane calls with its own
    key, the confirmation of a card's deletion, the toolbar's action, a
    render and the events of the pending lane's input.  A call that throws
    is no step.  [onDragEnd] can throw after it has changed the lanes'
    arrays in place, leaving an empty slot in the destination lane; the
    arrays of this model have no empty slots, and the runs of [board_step]
    end before such a call. *)
Inductive board_step : BoardState TTextObject CustomFields
                       → BoardState TTextObject CustomFields → Prop :=
  | step_onDragStart st event st' :
      (onDragStart doc st event).2 = Some st' →
      board_step st st'
  | step_onDragUpdate st event st' :
      (onDragUpdate doc st event).2 = Some st' →
      board_step st st'
  | step_onDragEnd st event st' announcements :
      onDragEnd st event = Some (st', announcements) →
      board_step st st'
  | step_moveLane st laneKey delta lanes' :
      laneKey ∈ obj_keys (arrangedLanes st) →
      moveLane (arrangedLanes st) laneKey delta = definedLanes lanes' →
      board_step st {| arrangedLanes := lanes';
                       arrangedItems := arrangedItems st;
                       addingLane := addingLane st;
                       placeholderPosition := placeholderPosition st;
                       idCounter := idCounter st |}
  | step_deleteLane st laneKey :
      laneKey ∈ obj_keys (arrangedLanes st) →
      board_step st (deleteLane st laneKey)
  | step_deleteItem st boardItem st' :
      deleteItem st boardItem = Some st' →
      board_step st st'
  | step_add_column st :
      board_step st (add_column st)
  | step_renderBoard st :
      board_step st (renderBoard st)
  | step_pendingLaneInput st e :
      board_step st (pendingLaneInput textOfString st e).

(** What the board keeps: lane keys are distinct, among the lanes and among
    the arranged items; no item key occurs twice on the board; every lane
    has a sequence in the arranged items; and no lane has the key
    [__proto__]. *)
Definition board_ok st : Prop :=
  obj_wf (arrangedLanes st)
  ∧ obj_wf (arrangedItems st)
  ∧ NoDup (item_keys (arrangedItems st))
  ∧ (∀ k, k ∈ obj_keys (arrangedLanes st) → k ∈ obj_keys (arrangedItems st))
  ∧ "__proto__" ∉ obj_keys (arrangedLanes st).

End BoardInUse.

(** ** Sample boards *)

Definition sampleLane (s : string) : TBoardLane string := {| title := s |}.

Definition threeLanes : TBoardLanes string :=
  [("todo", sampleLane "To do"); ("doing", sampleLane "Doing");
   ("done", sampleLane "Done")].

(** Lanes under keys that are array indices, and lanes as [JSON.parse]
    makes them of a text that has a key [__proto__]. *)
Definition numberedLanes : TBoardLanes string :=
  [("1", sampleLane "To do"); ("2", sampleLane "Doing");
   ("3", sampleLane "Done")].

Definition protoLanes : TBoardLanes string :=
  [("__proto__", sampleLane "Imported"); ("todo", sampleLane "To do")].

Definition sampleItem (key laneKey : string) (rank : Z)
  : IPreparedBoardItem string unit :=
  {| itemKey := key;
     asBoardItem := {| lane := laneKey; item_title := key;
                       order := rank; custom := () |} |}.

(** A flat item mapping as an embedding application would give it, with an
    item that names a lane the board does not have. *)
Definition sampleItems : TBoardItems string unit :=
  [("i1", asBoardItem (sampleItem "i1" "todo" 7));
   ("i2", asBoardItem (sampleItem "i2" "doing" 0));
   ("i3", asBoardItem (sampleItem "i3" "todo" 2));
   ("i4", asBoardItem (sampleItem "i4" "archive" 0))].

(** Items one of which names the lane [hasOwnProperty], and lanes that have
    a lane of that key. *)
Definition shadowItems : TBoardItems string unit :=
  [("i1", asBoardItem (sampleItem "i1" "todo" 0));
   ("i2", asBoardItem (sampleItem "i2" "hasOwnProperty" 0))].

Definition shadowLanes : TBoardLanes string :=
  [("todo", sampleLane "To do");
   ("hasOwnProperty", sampleLane "Has own property")].

Definition sampleBoard : BoardState string unit :=
  {| arrangedLanes := threeLanes;
     arrangedItems :=
       [("todo", [sampleItem "i3" "todo" 0; sampleItem "i1" "todo" 1]);
        ("doing", [sampleItem "i2" "doing" 0]);
        ("done", [sampleItem "i5" "done" 0; sampleItem "i6" "done" 1])];
     addingLane := false;
     placeholderPosition := Some (20, 2, 240, 64);
     idCounter := 0 |}.

(** Dropping the first card of "todo" at the end of "doing". *)
Definition sampleDrop : DropResult :=
  {| draggableId := "i3"; reason := DROP;
     source := {| droppableId := "todo"; index := 0 |};
     destination := Some {| droppableId := "doing"; index := 1 |} |}.

(** Dropping the first card of "done" behind the second one. *)
Definition sampleReorder : DropResult :=
  {| draggableId := "i5"; reason := DROP;
     source := {| droppableId := "done"; index := 0 |};
     destination := Some {| droppableId := "done"; index := 1 |} |}.

(** Letting go of the first card of "todo" outside every lane. *)
Definition sampleCancel : DropResult :=
  {| draggableId := "i3"; reason := CANCEL;
     source := {| droppableId := "todo"; index := 0 |};
     destination := None |}.

(** The example of the specification: lane A holds items 1 and 2, lane B is
    empty, and item 1 is moved from A[0] to B[0]. *)
Definition exampleBoard : BoardState string unit :=
  {| arrangedLanes := [("A", sampleLane "A"); ("B", sampleLane "B")];
     arrangedItems :=
       [("A", [sampleItem "1" "A" 0; sampleItem "2" "A" 1]); ("B", [])];
     addingLane := false;
     placeholderPosition := None;
     idCounter := 0 |}.

Definition exampleDrop : DropResult :=
  {| draggableId := "1"; reason := DROP;
     source := {| droppableId := "A"; index := 0 |};
     destination := Some {| droppableId := "B"; index := 0 |} |}.

(** The sample board after [sampleDrop]. *)
Definition sampleDropped : BoardState string unit :=
  {| arrangedLanes := threeLanes;
     arrangedItems :=
       [("todo", [sampleItem "i1" "todo" 0]);
        ("doing", [sampleItem "i2" "doing" 0; sampleItem "i3" "todo" 1]);
        ("done", [sampleItem "i5" "done" 0; sampleItem "i6" "done" 1])];
     addingLane := false;
     placeholderPosition := None;
     idCounter := 0 |}.

(** The board that [Board] starts with from [threeLanes] and
    [sampleItems]. *)
Definition startedBoard : BoardState string unit :=
  {| arrangedLanes := threeLanes;
     arrangedItems :=
       [("todo", [sampleItem "i3" "todo" 2; sampleItem "i1" "todo" 7]);
        ("doing", [sampleItem "i2" "doing" 0]);
        ("done", [])];
     addingLane := false;
     placeholderPosition := None;
     idCounter := 0 |}.

(** Dropping the first card of "todo" on "doing", far past its end. *)
Definition sampleDropPastEnd : DropResult :=
  {| draggableId := "i3"; reason := DROP;
     source := {| droppableId := "todo"; index := 0 |};
     destination := Some {| droppableId := "doing"; index := 5 |} |}.

(** The first drag of card "i1" of [sampleItems], whose order is 7, on the
    board as [Board] starts it. *)
Definition sampleFirstDrag : DropResult :=
  {| draggableId := "i1"; reason := DROP;
     source := {| droppableId := "todo"; index := 7 |};
     destination := Some {| droppableId := "doing"; index := 0 |} |}.

(** A board whose lanes, as they were given to [Board], include one under a
    key of the form that [uniqueId] generates, while a lane is being
    added. *)
Definition importedBoard : BoardState string unit :=
  {| arrangedLanes :=
       [("sl1", sampleLane "Imported"); ("todo", sampleLane "To do")];
     arrangedItems := [("sl1", [sampleItem "i7" "sl1" 0]); ("todo", [])];
     addingLane := true;
     placeholderPosition := None;
     idCounter := 0 |}.

(** The content box of lane "todo" of the sample board with its two cards
    and the placeholder that the drag-and-drop library adds, and a document
    that holds them. *)
Definition sampleCard (key : string) (height : Z) : Element :=
  mkElement height 240 (Some key) (Some 0%nat) [].

Definition sampleLaneContent : Element :=
  mkElement 600 280 None None
    [sampleCard "i3" 64; sampleCard "i1" 80;
     mkElement 0 240 None (Some 0%nat) []].

Definition sampleDocument : Document :=
  {| querySelector :=
       λ selector,
         if decide (selector = "[data-rbd-drag-handle-draggable-id='i3']")
         then Some (Some (sampleCard "i3" 64))
         else if decide (selector = "[data-rbd-droppable-id='todo']")
         then Some (Some sampleLaneContent)
         else if decide (selector
                         = "[data-rbd-drag-handle-draggable-id='it's']")
         then None
         else Some None;
     nodeOf := λ _, sampleLaneContent |}.

(** A board with a card whose key has a quote in it, and the start of a
    drag of that card. *)
Definition quotedBoard : BoardState string unit :=
  {| arrangedLanes := [("todo", sampleLane "To do")];
     arrangedItems := [("todo", [sampleItem "it's" "todo" 0])];
     addingLane := false;
     placeholderPosition := None;
     idCounter := 0 |}.

Definition quotedStart : DragStart :=
  {| start_draggableId := "it's";
     start_source := {| droppableId := "todo"; index := 0 |} |}.

Definition sampleStart : DragStart :=
  {| start_draggableId := "i3";
     start_source := {| droppableId := "todo"; index := 0 |} |}.

(** A lane that has gone through its three layout renders without a
    content box to measure. *)
Definition visibleLane : LaneLayout :=
  layoutPasses 0 [None; None; None] mountedLane.

(** * Properties *)

(** ** Objects *)

Section ObjFacts.
Context {V : Type}.
Implicit Types (o : obj V) (k : string) (v : V).

Lemma obj_get_set_eq o k v : obj_get (obj_set o k v) k = Some v.
Proof.
  induction o as [|[k' v'] o IH]; simpl.
  - by rewrite decide_True.
  - destruct (decide (k' = k)) as [->|Hne]; simpl.
    + by rewrite decide_True.
    + by rewrite decide_False.
Qed.

Lemma obj_get_set_ne o k k' v :
  k ≠ k' → obj_get (obj_set o k v) k' = obj_get o k'.
Proof.
  intros Hne. induction o as [|[k0 v0] o IH]; simpl.
  - by rewrite decide_False.
  - destruct (decide (k0 = k)) as [->|Hk0]; simpl.
    + by rewrite !decide_False.
    + by rewrite IH.
Qed.

Lemma obj_keys_cons o k v : obj_keys ((k, v) :: o) = k :: obj_keys o.
Proof. reflexivity. Qed.

Lemma obj_keys_app o1 o2 : obj_keys (o1 ++ o2) = obj_keys o1 ++ obj_keys o2.
Proof. apply fmap_app. Qed.

Lemma obj_get_None o k : obj_get o k = None ↔ k ∉ obj_keys o.
Proof.
  induction o as [|[k' v'] o IH].
  - split; [intros _; apply not_elem_of_nil | done].
  - rewrite obj_keys_cons, not_elem_of_cons. simpl.
    destruct (decide (k' = k)) as [->|Hne].
    + split; [done | intros [? _]; done].
    + rewrite IH. split; [intros ?; split; [congruence | done] | by intros [_ ?]].
Qed.

Lemma obj_get_is_Some o k : is_Some (obj_get o k) ↔ k ∈ obj_keys o.
Proof.
  rewrite <- not_eq_None_Some, obj_get_None.
  destruct (decide (k ∈ obj_keys o)); naive_solver.
Qed.

Lemma obj_keys_set_Some o k v :
  is_Some (obj_get o k) → obj_keys (obj_set o k v) = obj_keys o.
Proof.
  induction o as [|[k' v'] o IH]; simpl.
  - by intros [? ?].
  - destruct (decide (k' = k)) as [->|Hne]; [done |].
    intros H. by rewrite !obj_keys_cons, (IH H).
Qed.

Lemma obj_keys_set_None o k v :
  obj_get o k = None → obj_keys (obj_set o k v) = obj_keys o ++ [k].
Proof.
  induction o as [|[k' v'] o IH]; simpl; [done |].
  destruct (decide (k' = k)) as [->|Hne]; [done |].
  intros H. by rewrite !obj_keys_cons, (IH H).
Qed.

Lemma obj_set_None o k v : obj_get o k = None → obj_set o k v = o ++ [(k, v)].
Proof.
  induction o as [|[k' v'] o IH]; simpl; [done |].
  destruct (decide (k' = k)) as [->|Hne]; simpl; [done |].
  intros H. by rewrite IH.
Qed.

(** A key that is present splits the object around its entry. *)
Lemma obj_get_split o k v :
  obj_get o k = Some v →
  ∃ o1 o2, o = o1 ++ (k, v) :: o2 ∧ (k ∉ obj_keys o1) ∧
           (∀ v', obj_set o k v' = o1 ++ (k, v') :: o2).
Proof.
  induction o as [|[k' v0] o IH]; simpl; [done |].
  destruct (decide (k' = k)) as [->|Hne].
  - intros [= ->]. exists [], o. split_and!; [done | apply not_elem_of_nil | done].
  - intros H. destruct (IH H) as (o1 & o2 & -> & Hk & Hset).
    exists ((k', v0) :: o1), o2. split_and!; [done | |].
    + rewrite obj_keys_cons, not_elem_of_cons. done.
    + intros v'. by rewrite Hset.
Qed.

Lemma obj_wf_set o k v : obj_wf o → obj_wf (obj_set o k v).
Proof.
  unfold obj_wf. intros Hwf. destruct (obj_get o k) as [v0|] eqn:Hget.
  - by rewrite obj_keys_set_Some.
  - rewrite obj_keys_set_None by done.
    apply NoDup_app. split_and!; [done | | apply NoDup_singleton].
    intros x Hx Hx'. apply list_elem_of_singleton in Hx' as ->.
    by apply obj_get_None in Hget.
Qed.

End ObjFacts.

(** *** Assignments to an object literal *)

Lemma array_index_Some (k : string) (n : N) :
  array_index k = Some n → k = pretty n.
Proof.
  unfold array_index. destruct (parse_digits 0 k) as [m|]; [|done]. simpl.
  case_decide as H; [|done]. intros [= <-]. by destruct H.
Qed.

Section JsFacts.
Context {V : Type}.
Implicit Types (o : obj V) (k : string) (v : V).

(** On ordinary names the assignment is [obj_set]. *)
Lemma js_set_plain o k v : plain_key k → js_set o k v = obj_set o k v.
Proof.
  intros [Hindex Hproto]. unfold js_set.
  destruct (obj_get o k); [done |]. by rewrite decide_False, Hindex.
Qed.

Lemma obj_get_insert_index_ne o (n : N) k k' v :
  k ≠ k' → obj_get (insert_index o n k v) k' = obj_get o k'.
Proof.
  intros Hne. induction o as [|[k0 v0] o IH]; simpl.
  - by rewrite decide_False.
  - destruct (array_index k0) as [n0|]; [destruct (n0 <? n)%N|]; simpl.
    + by rewrite IH.
    + by rewrite (decide_False (P := k = k')).
    + by rewrite (decide_False (P := k = k')).
Qed.

Lemma obj_get_insert_index_eq o (n : N) k v :
  obj_get o k = None → obj_get (insert_index o n k v) k = Some v.
Proof.
  induction o as [|[k0 v0] o IH]; simpl.
  - by rewrite decide_True.
  - destruct (decide (k0 = k)) as [->|Hne]; [done |]. intros Hget.
    destruct (array_index k0) as [n0|]; [destruct (n0 <? n)%N|]; simpl.
    + rewrite decide_False by done. auto.
    + by rewrite decide_True.
    + by rewrite decide_True.
Qed.

Lemma obj_keys_insert_index o (n : N) k v :
  obj_keys (insert_index o n k v) ≡ₚ k :: obj_keys o.
Proof.
  induction o as [|[k0 v0] o IH]; simpl; [done |].
  destruct (array_index k0) as [n0|]; [destruct (n0 <? n)%N|]; try done.
  rewrite !obj_keys_cons, IH. apply perm_swap.
Qed.

Lemma insert_index_Permutation o (n : N) k v :
  insert_index o n k v ≡ₚ (k, v) :: o.
Proof.
  induction o as [|[k0 v0] o IH]; simpl; [done |].
  destruct (array_index k0) as [n0|]; [destruct (n0 <? n)%N|]; try done.
  rewrite IH. apply perm_swap.
Qed.

(** A new array index above all the keys there are comes last. *)
Lemma insert_index_append o (n : N) k v :
  array_index k = Some n → Forall (λ k', js_before k' k) (obj_keys o) →
  insert_index o n k v = o ++ [(k, v)].
Proof.
  intros Hk. induction o as [|[k0 v0] o IH]; [done |].
  rewrite obj_keys_cons, Forall_cons. intros [Hbefore Hrest]. simpl.
  unfold js_before in Hbefore. rewrite Hk in Hbefore.
  destruct (array_index k0) as [n0|]; [|done].
  apply N.ltb_lt in Hbefore. rewrite Hbefore. by rewrite IH.
Qed.

Lemma obj_get_js_set_eq o k v :
  k ≠ "__proto__" → obj_get (js_set o k v) k = Some v.
Proof.
  intros Hproto. unfold js_set. destruct (obj_get o k) eqn:Hget.
  - apply obj_get_set_eq.
  - rewrite decide_False by done. destruct (array_index k).
    + by apply obj_get_insert_index_eq.
    + apply obj_get_set_eq.
Qed.

Lemma obj_get_js_set_ne o k k' v :
  k ≠ k' → obj_get (js_set o k v) k' = obj_get o k'.
Proof.
  intros Hne. unfold js_set. destruct (obj_get o k).
  - by apply obj_get_set_ne.
  - case_decide; [done |]. destruct (array_index k).
    + by apply obj_get_insert_index_ne.
    + by apply obj_get_set_ne.
Qed.

(** On an object literal [__proto__] names no property, before an
    assignment and after it. *)
Lemma js_set_proto o v :
  "__proto__" ∉ obj_keys o → js_set o "__proto__" v = o.
Proof.
  intros Hproto%obj_get_None. unfold js_set. rewrite Hproto.
  by rewrite decide_True.
Qed.

Lemma js_set_keeps_proto o k v :
  "__proto__" ∉ obj_keys o → "__proto__" ∉ obj_keys (js_set o k v).
Proof.
  intros Hproto. destruct (decide (k = "__proto__")) as [->|Hne].
  - by rewrite js_set_proto.
  - apply obj_get_None. rewrite obj_get_js_set_ne by done.
    by apply obj_get_None.
Qed.

Lemma elem_of_obj_keys_js_set o k k' v :
  k' ∈ obj_keys (js_set o k v) → k' = k ∨ k' ∈ obj_keys o.
Proof.
  rewrite <- !obj_get_is_Some. destruct (decide (k = k')) as [->|Hne].
  - by left.
  - rewrite obj_get_js_set_ne by done. by right.
Qed.

Lemma elem_of_obj_keys_js_set_2 o k k' v :
  k' ∈ obj_keys o → k' ∈ obj_keys (js_set o k v).
Proof.
  rewrite <- !obj_get_is_Some. destruct (decide (k = k')) as [->|Hne].
  - intros [v' Hget]. unfold js_set. rewrite Hget, obj_get_set_eq. by eexists.
  - by rewrite obj_get_js_set_ne.
Qed.

Lemma elem_of_obj_keys_js_set_new o k v :
  k ≠ "__proto__" → k ∈ obj_keys (js_set o k v).
Proof.
  intros Hproto. apply obj_get_is_Some. rewrite obj_get_js_set_eq by done.
  by eexists.
Qed.

Lemma obj_keys_js_set_None o k v :
  obj_get o k = None → k ≠ "__proto__" →
  obj_keys (js_set o k v) ≡ₚ obj_keys o ++ [k].
Proof.
  intros Hget Hproto. unfold js_set. rewrite Hget, decide_False by done.
  destruct (array_index k).
  - rewrite obj_keys_insert_index. apply Permutation_cons_append.
  - by rewrite obj_keys_set_None.
Qed.

Lemma js_set_Permutation o k v :
  obj_get o k = None → k ≠ "__proto__" → js_set o k v ≡ₚ o ++ [(k, v)].
Proof.
  intros Hget Hproto. unfold js_set. rewrite Hget, decide_False by done.
  destruct (array_index k).
  - rewrite insert_index_Permutation. apply Permutation_cons_append.
  - by rewrite obj_set_None.
Qed.

(** A new key that may stand behind all the keys there are comes last. *)
Lemma js_set_append o k v :
  obj_get o k = None → k ≠ "__proto__" →
  Forall (λ k', js_before k' k) (obj_keys o) →
  js_set o k v = o ++ [(k, v)].
Proof.
  intros Hget Hproto Hbefore. unfold js_set.
  rewrite Hget, decide_False by done.
  destruct (array_index k) as [n|] eqn:Hk.
  - by apply insert_index_append.
  - by apply obj_set_None.
Qed.

End JsFacts.

(** Ordinary names may stand in any order. *)
Lemma plain_keys_ordered (keys : list string) :
  Forall plain_key keys → js_ordered keys.
Proof.
  induction 1 as [|k keys [Hk _] Hkeys IH]; [constructor |].
  constructor; [done |].
  eapply Forall_impl; [exact Hkeys |]. intros k' [Hk' _].
  unfold js_before. by rewrite Hk, Hk'.
Qed.

(** ** Arrays *)

(** Side conditions about clamped indices. *)
Ltac solve_clamp := unfold relative_index; try case_match; lia.

Section ArrayFacts.
Context {A : Type}.
Implicit Types (l : list A) (x : A).

(** [splice] once its clamped start and delete count are known. *)
Lemma splice_clamped l (start deleteCount : Z) (items : list A) (s d : nat) :
  relative_index (Z.of_nat (length l)) start = Z.of_nat s →
  Z.min (Z.max deleteCount 0) (Z.of_nat (length l) - Z.of_nat s) = Z.of_nat d →
  splice l start deleteCount items
  = (take d (drop s l), take s l ++ items ++ drop (s + d) l).
Proof.
  intros Hs Hd. unfold splice. by rewrite Hs, Hd, !Nat2Z.id.
Qed.

(** Removing one element at a position that exists. *)
Lemma splice_remove l (i : nat) x :
  l !! i = Some x → splice l (Z.of_nat i) 1 [] = ([x], delete i l).
Proof.
  intros Hi. pose proof (lookup_lt_Some _ _ _ Hi) as Hlt.
  rewrite (splice_clamped _ _ _ _ i 1) by solve_clamp.
  rewrite (drop_S _ _ _ Hi). simpl. rewrite take_0.
  by rewrite delete_take_drop, Nat.add_1_r.
Qed.

(** Removing at a position past the end removes nothing. *)
Lemma splice_remove_ge l (i : Z) :
  Z.of_nat (length l) ≤ i → splice l i 1 [] = ([], l).
Proof.
  intros Hi.
  rewrite (splice_clamped _ _ _ _ (length l) 0) by solve_clamp.
  rewrite take_0, Nat.add_0_r, drop_all, take_ge by lia.
  by rewrite !app_nil_r.
Qed.

(** Removing at [-1] removes the last element. *)
Lemma splice_remove_minus_one l x :
  splice (l ++ [x]) (-1) 1 [] = ([x], l).
Proof.
  rewrite (splice_clamped _ _ _ _ (length l) 1)
    by (rewrite length_app; simpl; solve_clamp).
  rewrite drop_app_length, take_app_length, drop_ge
    by (rewrite length_app; simpl; lia).
  by rewrite !app_nil_r.
Qed.

(** Inserting one element at a position within the array. *)
Lemma splice_insert l (j : nat) x :
  (j ≤ length l)%nat → splice l (Z.of_nat j) 0 [x] = ([], insert_at j x l).
Proof.
  intros Hj.
  rewrite (splice_clamped _ _ _ _ j 0) by solve_clamp.
  by rewrite take_0, Nat.add_0_r.
Qed.

(** Inserting past the end appends. *)
Lemma splice_insert_ge l (j : Z) x :
  Z.of_nat (length l) ≤ j → splice l j 0 [x] = ([], l ++ [x]).
Proof.
  intros Hj.
  rewrite (splice_clamped _ _ _ _ (length l) 0) by solve_clamp.
  by rewrite take_0, Nat.add_0_r, drop_all, take_ge by lia.
Qed.

(** Inserting at a negative position counts back from the end. *)
Lemma splice_insert_neg l (j : Z) x :
  j < 0 →
  splice l j 0 [x]
  = ([], insert_at (Z.to_nat (Z.max (Z.of_nat (length l) + j) 0)) x l).
Proof.
  intros Hj.
  rewrite (splice_clamped _ _ _ _
             (Z.to_nat (Z.max (Z.of_nat (length l) + j) 0)) 0)
    by solve_clamp.
  by rewrite take_0, Nat.add_0_r.
Qed.

(** Wherever it is asked to insert, [splice] adds the element and keeps
    the others. *)
Lemma splice_insert_Permutation l (j : Z) x :
  (splice l j 0 [x]).2 ≡ₚ x :: l.
Proof.
  unfold splice. cbn [snd].
  replace (Z.to_nat (Z.min (Z.max 0 0) _)) with 0%nat by lia.
  rewrite Nat.add_0_r. etrans; [apply Permutation_app_comm |]. simpl.
  apply Permutation_skip. etrans; [apply Permutation_app_comm |].
  by rewrite take_drop.
Qed.

Lemma insert_at_lookup j x l :
  (j ≤ length l)%nat → insert_at j x l !! j = Some x.
Proof.
  intros Hj. unfold insert_at.
  rewrite lookup_app_r; rewrite length_take; [|lia].
  by replace (j - j `min` length l)%nat with 0%nat by lia.
Qed.

Lemma insert_at_Permutation j x l : insert_at j x l ≡ₚ x :: l.
Proof.
  unfold insert_at. rewrite <- Permutation_middle. by rewrite take_drop.
Qed.

Lemma insert_at_delete_Permutation j (i : nat) x l :
  l !! i = Some x → insert_at j x (delete i l) ≡ₚ l.
Proof.
  intros Hi. rewrite insert_at_Permutation. symmetry.
  by apply delete_Permutation.
Qed.

Lemma NoDup_delete_lookup l (i : nat) x :
  NoDup l → l !! i = Some x → x ∉ delete i l.
Proof.
  intros Hnd Hi. rewrite (delete_Permutation l i x Hi) in Hnd.
  by apply NoDup_cons in Hnd as [? _].
Qed.

Lemma swap_adjacent_app l1 x y l2 :
  swap_adjacent (length l1) (l1 ++ x :: y :: l2) = l1 ++ y :: x :: l2.
Proof. induction l1 as [|z l1 IH]; simpl; [done | by rewrite IH]. Qed.

Lemma swap_adjacent_last l1 x :
  swap_adjacent (length l1) (l1 ++ [x]) = l1 ++ [x].
Proof. induction l1 as [|z l1 IH]; simpl; [done | by rewrite IH]. Qed.

Lemma swap_adjacent_Permutation i l : swap_adjacent i l ≡ₚ l.
Proof.
  revert l. induction i as [|i IH]; intros [|x l]; simpl; try done.
  - destruct l as [|y l]; [done | apply perm_swap].
  - by rewrite IH.
Qed.

Context `{EqDecision A}.

Lemma indexOf_from_lookup l x (i : nat) (b : Z) :
  l !! i = Some x → x ∉ take i l → indexOf_from l x b = b + Z.of_nat i.
Proof.
  revert i b. induction l as [|y l IH]; intros [|i] b; simpl; try done.
  - intros [= ->] _. rewrite decide_True by done. lia.
  - intros Hi Hnot. apply not_elem_of_cons in Hnot as [Hne Hnot].
    rewrite decide_False by done. rewrite (IH i) by done. lia.
Qed.

Lemma indexOf_from_absent l x (b : Z) : x ∉ l → indexOf_from l x b = -1.
Proof.
  revert b. induction l as [|y l IH]; intros b; simpl; [done |].
  intros [Hne Hnot]%not_elem_of_cons. rewrite decide_False by done. auto.
Qed.

(** In an array without repetition, [indexOf] is the position. *)
Lemma indexOf_NoDup l x (i : nat) :
  NoDup l → l !! i = Some x → indexOf l x = Z.of_nat i.
Proof.
  intros Hnd Hi. unfold indexOf. rewrite (indexOf_from_lookup l x i) by
    (try done; intros Hin; apply list_elem_of_lookup in Hin as [j Hj];
     pose proof (lookup_lt_Some _ _ _ Hj) as Hlt; rewrite length_take in Hlt;
     rewrite lookup_take_lt in Hj by lia;
     pose proof (NoDup_lookup _ _ _ _ Hnd Hi Hj); lia).
  lia.
Qed.

End ArrayFacts.

(** ** Moving a lane *)

Section InsertAt.
Context {A : Type}.
Implicit Types (l : list A) (x : A).

Lemma insert_at_app l1 l2 x : insert_at (length l1) x (l1 ++ l2) = l1 ++ x :: l2.
Proof. unfold insert_at. by rewrite take_app_length, drop_app_length. Qed.

Lemma insert_at_end l x : insert_at (length l) x l = l ++ [x].
Proof. unfold insert_at. by rewrite take_ge, drop_all by lia. Qed.

Lemma insert_at_fmap {B} (f : A → B) j x l :
  f <$> insert_at j x l = insert_at j (f x) (f <$> l).
Proof.
  unfold insert_at. by rewrite fmap_app, fmap_cons, fmap_take, fmap_drop.
Qed.

Lemma delete_middle l1 l2 x : delete (length l1) (l1 ++ x :: l2) = l1 ++ l2.
Proof. induction l1 as [|y l1 IH]; simpl; [done | by rewrite IH]. Qed.

Lemma lookup_split l (i : nat) x :
  l !! i = Some x → ∃ l1 l2, l = l1 ++ x :: l2 ∧ length l1 = i.
Proof.
  intros Hi. exists (take i l), (drop (S i) l). split.
  - by rewrite take_drop_middle.
  - rewrite length_take. apply lookup_lt_Some in Hi. lia.
Qed.

End InsertAt.

Lemma moveLane_keys_present (keys : list string) (i : nat) k delta :
  NoDup keys → keys !! i = Some k →
  moveLane_keys (Some <$> keys) k delta
  = Some <$> insert_at (moveLane_position (length keys) i delta) k (delete i keys).
Proof.
  intros Hnd Hi. unfold moveLane_keys.
  assert (NoDup (Some <$> keys)) as Hnd'.
  { apply NoDup_fmap; [|done]. by intros ?? [=]. }
  assert ((Some <$> keys) !! i = Some (Some k)) as Hi'.
  { by rewrite list_lookup_fmap, Hi. }
  rewrite (indexOf_NoDup _ _ i Hnd' Hi'), (splice_remove _ _ _ Hi').
  cbn [lookup list_lookup default from_option].
  pose proof (lookup_lt_Some _ _ _ Hi) as Hlt.
  assert (length (delete i (Some <$> keys)) = (length keys - 1)%nat) as Hlen.
  { rewrite length_delete by (rewrite Hi'; eauto). by rewrite length_fmap. }
  rewrite insert_at_fmap, list_fmap_delete.
  destruct delta; simpl delta_value.
  - destruct (decide (i + 1 ≤ length keys - 1)%nat) as [Hle|Hgt].
    + replace (Z.of_nat i + 1) with (Z.of_nat (i + 1)) by lia.
      rewrite splice_insert by lia. simpl.
      by replace ((i + 1) `min` (length keys - 1))%nat with (i + 1)%nat by lia.
    + rewrite splice_insert_ge by lia. simpl.
      replace ((i + 1) `min` (length keys - 1))%nat
        with (length (delete i (Some <$> keys))) by lia.
      by rewrite insert_at_end.
  - destruct i as [|i']; simpl moveLane_position.
    + rewrite splice_insert_neg by lia. simpl. f_equal. lia.
    + replace (Z.of_nat (S i') + -1) with (Z.of_nat i') by lia.
      by rewrite splice_insert by lia.
Qed.

(** A [reduce] that writes one key per element into its accumulator, as
    [moveLane] and [prepareBoardItems] do.  When every write is [obj_set],
    the keys are created in the order of the array, each with the value
    computed from it. *)
Lemma reduce_set_keys {V B} (key : B → string) (val : string → V)
    (bs : list B) (acc : obj V) :
  NoDup (obj_keys acc ++ (key <$> bs)) →
  obj_keys (foldl (λ acc b, obj_set acc (key b) (val (key b))) acc bs)
  = obj_keys acc ++ (key <$> bs).
Proof.
  revert acc. induction bs as [|b bs IH]; intros acc Hnd; cbn [foldl].
  - by rewrite app_nil_r.
  - rewrite fmap_cons in Hnd.
    assert (obj_get acc (key b) = None) as Hfresh.
    { apply obj_get_None. apply NoDup_app in Hnd as (_ & Hdisj & _).
      intros Hin. apply (Hdisj _ Hin). by left. }
    rewrite IH; rewrite obj_keys_set_None by done.
    + by rewrite fmap_cons, <- app_assoc.
    + by rewrite <- app_assoc.
Qed.

Lemma reduce_set_get {V B} (key : B → string) (val : string → V)
    (bs : list B) (acc : obj V) (k : string) :
  obj_get (foldl (λ acc b, obj_set acc (key b) (val (key b))) acc bs) k
  = if decide (k ∈ key <$> bs) then Some (val k) else obj_get acc k.
Proof.
  revert acc. induction bs as [|b bs IH]; intros acc; cbn [foldl].
  - case_decide as Hin; [by apply elem_of_nil in Hin | done].
  - rewrite IH, fmap_cons.
    destruct (decide (k ∈ key <$> bs)) as [Hin|Hnin].
    + rewrite decide_True; [done | by right].
    + destruct (decide (key b = k)) as [<-|Hne].
      * rewrite obj_get_set_eq. rewrite decide_True; [done | by left].
      * rewrite obj_get_set_ne by done.
        rewrite decide_False; [done |]. rewrite not_elem_of_cons.
        split; [congruence | done].
Qed.

Lemma reduce_set_eq {V B} (key : B → string) (val : string → V)
    (bs : list B) (acc : obj V) :
  NoDup (obj_keys acc ++ (key <$> bs)) →
  foldl (λ acc b, obj_set acc (key b) (val (key b))) acc bs
  = acc ++ ((λ b, (key b, val (key b))) <$> bs).
Proof.
  revert acc. induction bs as [|b bs IH]; intros acc Hnd; cbn [foldl].
  - by rewrite app_nil_r.
  - rewrite fmap_cons in Hnd.
    assert (obj_get acc (key b) = None) as Hfresh.
    { apply obj_get_None. apply NoDup_app in Hnd as (_ & Hdisj & _).
      intros Hin. apply (Hdisj _ Hin). by left. }
    rewrite obj_set_None by done. rewrite IH.
    + by rewrite fmap_cons, <- app_assoc.
    + rewrite obj_keys_app, <- app_assoc. exact Hnd.
Qed.

Lemma toPropertyKey_Some (keys : list string) :
  toPropertyKey <$> (Some <$> keys) = keys.
Proof. rewrite <- list_fmap_compose. apply list_fmap_id. Qed.

(** The same [reduce] into an object literal, with keys of any kind. *)
Lemma js_reduce_plain {V B} (key : B → string) (val : string → V)
    (bs : list B) (acc : obj V) :
  Forall plain_key (key <$> bs) →
  foldl (λ acc b, js_set acc (key b) (val (key b))) acc bs
  = foldl (λ acc b, obj_set acc (key b) (val (key b))) acc bs.
Proof.
  revert acc. induction bs as [|b bs IH]; intros acc; [done |].
  rewrite fmap_cons. intros [Hb Hbs]%Forall_cons. cbn [foldl].
  rewrite js_set_plain by done. by apply IH.
Qed.

Lemma js_reduce_keeps_proto {V B} (key : B → string) (val : string → V)
    (bs : list B) (acc : obj V) :
  "__proto__" ∉ obj_keys acc →
  "__proto__"
  ∉ obj_keys (foldl (λ acc b, js_set acc (key b) (val (key b))) acc bs).
Proof.
  revert acc. induction bs as [|b bs IH]; intros acc Hproto; [done |].
  cbn [foldl]. by apply IH, js_set_keeps_proto.
Qed.

Lemma js_reduce_get {V B} (key : B → string) (val : string → V)
    (bs : list B) (acc : obj V) (k : string) :
  "__proto__" ∉ obj_keys acc →
  obj_get (foldl (λ acc b, js_set acc (key b) (val (key b))) acc bs) k
  = if decide (k ∈ key <$> bs ∧ k ≠ "__proto__") then Some (val k)
    else obj_get acc k.
Proof.
  revert acc. induction bs as [|b bs IH]; intros acc Hproto; cbn [foldl].
  - rewrite decide_False; [done |]. intros [Hin _]. by apply elem_of_nil in Hin.
  - rewrite IH by (by apply js_set_keeps_proto). rewrite fmap_cons.
    destruct (decide (k ∈ key <$> bs ∧ k ≠ "__proto__")) as [[Hin Hk]|Hnot].
    + rewrite decide_True; [done |]. split; [by right | done].
    + destruct (decide (key b = k)) as [<-|Hne].
      * destruct (decide (key b = "__proto__")) as [Heq|Hk].
        -- rewrite Heq, js_set_proto by done.
           rewrite decide_False; [done |]. by intros [_ ?].
        -- rewrite obj_get_js_set_eq by done.
           rewrite decide_True; [done |]. split; [by left | done].
      * rewrite obj_get_js_set_ne by done.
        rewrite decide_False; [done |].
        intros [[?|Hin]%elem_of_cons Hk]; [congruence |]. by apply Hnot.
Qed.

Lemma js_reduce_keys {V B} (key : B → string) (val : string → V)
    (bs : list B) (acc : obj V) :
  NoDup (obj_keys acc ++ (key <$> bs)) → "__proto__" ∉ key <$> bs →
  obj_keys (foldl (λ acc b, js_set acc (key b) (val (key b))) acc bs)
  ≡ₚ obj_keys acc ++ (key <$> bs).
Proof.
  revert acc. induction bs as [|b bs IH]; intros acc Hnd Hproto; cbn [foldl].
  - by rewrite app_nil_r.
  - rewrite fmap_cons in Hnd, Hproto.
    apply not_elem_of_cons in Hproto as [Hb Hproto].
    assert (obj_get acc (key b) = None) as Hfresh.
    { apply obj_get_None. apply NoDup_app in Hnd as (_ & Hdisj & _).
      intros Hin. apply (Hdisj _ Hin). by left. }
    pose proof (obj_keys_js_set_None acc (key b) (val (key b)) Hfresh
                  (not_eq_sym Hb)) as Hkeys.
    rewrite IH; [| |done].
    + by rewrite Hkeys, fmap_cons, <- app_assoc.
    + by rewrite Hkeys, <- app_assoc.
Qed.

Lemma js_reduce_Permutation {V B} (key : B → string) (val : string → V)
    (bs : list B) (acc : obj V) :
  NoDup (obj_keys acc ++ (key <$> bs)) → "__proto__" ∉ key <$> bs →
  foldl (λ acc b, js_set acc (key b) (val (key b))) acc bs
  ≡ₚ acc ++ ((λ b, (key b, val (key b))) <$> bs).
Proof.
  revert acc. induction bs as [|b bs IH]; intros acc Hnd Hproto; cbn [foldl].
  - by rewrite app_nil_r.
  - rewrite fmap_cons in Hnd, Hproto.
    apply not_elem_of_cons in Hproto as [Hb Hproto].
    assert (obj_get acc (key b) = None) as Hfresh.
    { apply obj_get_None. apply NoDup_app in Hnd as (_ & Hdisj & _).
      intros Hin. apply (Hdisj _ Hin). by left. }
    rewrite IH; [| |done].
    + rewrite js_set_Permutation by (done || by apply not_eq_sym).
      by rewrite fmap_cons, <- app_assoc.
    + rewrite obj_keys_js_set_None by (done || by apply not_eq_sym).
      by rewrite <- app_assoc.
Qed.

(** Keys that come in an order [Object.keys] can list them in are created
    in that order. *)
Lemma js_reduce_eq {V B} (key : B → string) (val : string → V)
    (bs : list B) (acc : obj V) :
  NoDup (obj_keys acc ++ (key <$> bs)) → "__proto__" ∉ key <$> bs →
  js_ordered (obj_keys acc ++ (key <$> bs)) →
  foldl (λ acc b, js_set acc (key b) (val (key b))) acc bs
  = acc ++ ((λ b, (key b, val (key b))) <$> bs).
Proof.
  revert acc.
  induction bs as [|b bs IH]; intros acc Hnd Hproto Hsorted; cbn [foldl].
  - by rewrite app_nil_r.
  - rewrite fmap_cons in Hnd, Hproto, Hsorted.
    apply not_elem_of_cons in Hproto as [Hb Hproto].
    assert (obj_get acc (key b) = None) as Hfresh.
    { apply obj_get_None. apply NoDup_app in Hnd as (_ & Hdisj & _).
      intros Hin. apply (Hdisj _ Hin). by left. }
    rewrite js_set_append; [|done |by apply not_eq_sym |].
    + rewrite IH; [by rewrite fmap_cons, <- app_assoc | | done |].
      * by rewrite obj_keys_app, <- app_assoc.
      * by rewrite obj_keys_app, <- app_assoc.
    + apply Forall_forall. intros k' Hk'.
      eapply (StronglySorted_app_1_elem_of js_before); [exact Hsorted | done |].
      by left.
Qed.

(** The key order after [moveLane], for a key that is present. *)
Lemma moveLane_keys_order {TTextObject} (lanes : TBoardLanes TTextObject)
    k (i : nat) delta :
  obj_wf lanes → Forall plain_key (obj_keys lanes) →
  obj_keys lanes !! i = Some k →
  obj_keys (moveLane lanes k delta)
  = insert_at (moveLane_position (length (obj_keys lanes)) i delta) k
      (delete i (obj_keys lanes)).
Proof.
  intros Hwf Hplain Hi. unfold moveLane.
  rewrite (moveLane_keys_present _ i) by done.
  rewrite (js_reduce_plain toPropertyKey (obj_get lanes))
    by (rewrite toPropertyKey_Some; by rewrite insert_at_delete_Permutation).
  rewrite (reduce_set_keys toPropertyKey (obj_get lanes));
    rewrite toPropertyKey_Some; [done |].
  simpl. by rewrite insert_at_delete_Permutation.
Qed.

(** Claim C4, as stated: for every lane key present in the arranged lanes and
    every delta, [moveLane] moves that key exactly one slot in the requested
    direction and leaves the order unchanged at either edge.  It fails for
    the first of three lanes moved nearer: the key lands in the middle.  It
    also fails for lanes whose keys are array indices: the first of the
    lanes "1", "2", "3" moved further stays the first, the keys of the new
    object being listed in numeric order. *)
Lemma moveLane_first_nearer_counterexample :
  obj_keys threeLanes !! 0%nat = Some "todo"
  ∧ obj_keys (moveLane threeLanes "todo" Nearer) = ["doing"; "todo"; "done"]
  ∧ obj_keys (moveLane threeLanes "todo" Nearer) ≠ obj_keys threeLanes
  ∧ obj_keys (moveLane threeLanes "todo" Nearer)
    ≠ move_one_slot 0 Nearer (obj_keys threeLanes)
  ∧ obj_keys numberedLanes !! 0%nat = Some "1"
  ∧ obj_keys (moveLane numberedLanes "1" Further) = ["1"; "2"; "3"]
  ∧ obj_keys (moveLane numberedLanes "1" Further)
    ≠ move_one_slot 0 Further (obj_keys numberedLanes).
Proof.
  split_and!;
    [reflexivity | reflexivity | discriminate | discriminate
    | reflexivity | by vm_compute | vm_compute; discriminate].
Qed.

(** Claim C4, amended: on lanes whose keys are ordinary names, neither array
    indices nor [__proto__], for every lane key present at position [i] and
    every delta, except for the first lane moved nearer on a board of three
    or more lanes, [moveLane] moves that key exactly one slot in the
    requested direction, bounded by the edges of the key sequence: the last
    lane moved further stays where it is, and so does the first lane moved
    nearer when there are at most two lanes.  On the first of [n ≥ 3] lanes
    with delta [-1], a call the lane's menu does not offer, [moveLane] puts
    the key at position [n - 2]. *)
Theorem moveLane_one_slot {TTextObject} (lanes : TBoardLanes TTextObject)
    (k : string) (i : nat) (delta : Delta) :
  obj_wf lanes → Forall plain_key (obj_keys lanes) →
  obj_keys lanes !! i = Some k →
  (¬ (delta = Nearer ∧ i = 0%nat ∧ (3 ≤ length lanes)%nat) →
   obj_keys (moveLane lanes k delta) = move_one_slot i delta (obj_keys lanes))
  ∧ (delta = Nearer → i = 0%nat → (3 ≤ length lanes)%nat →
     obj_keys (moveLane lanes k delta)
     = insert_at (length lanes - 2) k (delete 0%nat (obj_keys lanes))).
Proof.
  intros Hwf Hplain Hi. rewrite (moveLane_keys_order _ _ i) by done.
  assert (length (obj_keys lanes) = length lanes) as Hlen
    by apply length_fmap.
  split.
  - intros Hcase. destruct (lookup_split _ _ _ Hi) as (l1 & l2 & Hkeys & Hl1).
    rewrite Hkeys in *. subst i. rewrite delete_middle. rewrite length_app in *.
    simpl length in *. destruct delta; simpl.
    + destruct l2 as [|y l2]; simpl length.
      * replace ((length l1 + 1) `min` (length l1 + 1 - 1))%nat
          with (length l1) by lia.
        by rewrite app_nil_r, insert_at_end, swap_adjacent_last.
      * replace ((length l1 + 1) `min` (length l1 + S (S (length l2)) - 1))%nat
          with (length (l1 ++ [y])) by (rewrite length_app; simpl; lia).
        replace (l1 ++ y :: l2) with ((l1 ++ [y]) ++ l2)
          by (by rewrite <- app_assoc).
        by rewrite insert_at_app, swap_adjacent_app, <- app_assoc.
    + destruct l1 as [|x l1 _] using rev_ind; simpl.
      * destruct l2 as [|y [|z l2]]; simpl in *; [done | done |].
        exfalso. apply Hcase. split_and!; [done | done | lia].
      * rewrite length_app. simpl length.
        replace (length l1 + 1)%nat with (S (length l1)) by lia.
        rewrite <- !(assoc_L (++)). simpl.
        by rewrite insert_at_app, swap_adjacent_app.
  - intros -> -> Hn. simpl. by rewrite Hlen.
Qed.

Lemma moveLane_one_slot_witness :
  obj_keys (moveLane threeLanes "doing" Further) = ["todo"; "done"; "doing"]
  ∧ obj_keys (moveLane threeLanes "done" Further) = ["todo"; "doing"; "done"]
  ∧ obj_keys (moveLane threeLanes "doing" Nearer) = ["doing"; "todo"; "done"].
Proof.
  assert (obj_wf threeLanes) as Hwf
    by (apply (bool_decide_unpack _); vm_compute; done).
  assert (Forall plain_key (obj_keys threeLanes)) as Hplain
    by (apply (bool_decide_unpack _); vm_compute; done).
  split_and!.
  - apply (moveLane_one_slot threeLanes "doing" 1 Further Hwf Hplain eq_refl).
    intros (? & ? & ?); discriminate.
  - apply (moveLane_one_slot threeLanes "done" 2 Further Hwf Hplain eq_refl).
    intros (? & ? & ?); discriminate.
  - apply (moveLane_one_slot threeLanes "doing" 1 Nearer Hwf Hplain eq_refl).
    intros (? & ? & ?); discriminate.
Defined.

(** For a key the lanes do not have, [indexOf] is [-1]: on a board that is
    not empty the last key is taken out and put back further to the front. *)
Lemma moveLane_keys_absent (keys : list string) (last : string) k delta :
  k ∉ keys ++ [last] →
  ∃ j, moveLane_keys (Some <$> (keys ++ [last])) k delta
       = Some <$> insert_at j last keys.
Proof.
  intros Hk. unfold moveLane_keys.
  assert (indexOf (Some <$> (keys ++ [last])) (Some k) = -1) as ->.
  { apply indexOf_from_absent. intros (k' & [= <-] & Hin)%list_elem_of_fmap.
    done. }
  rewrite fmap_app. cbn [fmap list_fmap]. rewrite splice_remove_minus_one.
  cbn [lookup list_lookup default from_option].
  destruct delta; simpl delta_value.
  - exists 0%nat. change (-1 + 1) with (Z.of_nat 0).
    rewrite splice_insert by lia. by rewrite insert_at_fmap.
  - eexists. rewrite splice_insert_neg by lia. by rewrite insert_at_fmap.
Qed.

(** The keys after [moveLane] are the keys before, in some order, whenever
    the board has a lane. *)
Lemma moveLane_keys_Permutation {TTextObject}
    (lanes : TBoardLanes TTextObject) k delta :
  obj_wf lanes → lanes ≠ [] →
  ∃ keys', moveLane_keys (Some <$> obj_keys lanes) k delta = Some <$> keys'
           ∧ keys' ≡ₚ obj_keys lanes.
Proof.
  intros Hwf Hne. destruct (decide (k ∈ obj_keys lanes)) as [Hin|Hnin].
  - apply list_elem_of_lookup in Hin as [i Hi]. eexists. split.
    + by apply (moveLane_keys_present _ i).
    + by apply insert_at_delete_Permutation.
  - assert (obj_keys lanes ≠ []) as Hkeys by (by destruct lanes).
    destruct (obj_keys lanes) as [|k0 keys _] using rev_ind; [done |].
    destruct (moveLane_keys_absent keys k0 k delta Hnin) as [j Hj].
    eexists. split; [exact Hj |].
    rewrite insert_at_Permutation. apply Permutation_cons_append.
Qed.

(** The keys and the lanes of the object that [moveLane] builds, on a
    board that has a lane and no lane under [__proto__]. *)
Lemma moveLane_lanes {TTextObject} (lanes : TBoardLanes TTextObject)
    (k : string) (delta : Delta) :
  obj_wf lanes → lanes ≠ [] → "__proto__" ∉ obj_keys lanes →
  obj_keys (moveLane lanes k delta) ≡ₚ obj_keys lanes
  ∧ ∀ k', obj_get (moveLane lanes k delta) k' = Some <$> obj_get lanes k'.
Proof.
  intros Hwf Hne Hproto.
  destruct (moveLane_keys_Permutation lanes k delta Hwf Hne)
    as (keys' & Hkeys & Hperm).
  unfold moveLane. rewrite Hkeys. split.
  - rewrite (js_reduce_keys toPropertyKey (obj_get lanes));
      rewrite toPropertyKey_Some; [done | | by rewrite Hperm].
    simpl. by rewrite Hperm.
  - intros k'. rewrite (js_reduce_get toPropertyKey (obj_get lanes))
      by apply not_elem_of_nil.
    rewrite toPropertyKey_Some.
    case_decide as Hin; rewrite Hperm in Hin.
    + destruct Hin as [Hin _]. apply obj_get_is_Some in Hin as [v ->]. done.
    + destruct (obj_get lanes k') as [v|] eqn:Hget; [|done].
      exfalso. apply Hin.
      assert (k' ∈ obj_keys lanes) as Hk'
        by (apply obj_get_is_Some; by eexists).
      split; [done | by intros ->].
Qed.

(** Claim C10, as stated: for every lane key and every delta, [moveLane]
    produces a mapping with the same set of keys that maps each key to the
    lane it had.  It fails on lanes read from a text that has a key
    [__proto__]: the assignment to that key of the new object creates no
    property, and the board, which shows a lane for each key, has lost a
    lane. *)
Lemma moveLane_proto_counterexample :
  obj_wf protoLanes
  ∧ obj_keys protoLanes = ["__proto__"; "todo"]
  ∧ obj_keys (moveLane protoLanes "todo" Nearer) = ["todo"]
  ∧ obj_keys (moveLane protoLanes "todo" Further) = ["todo"]
  ∧ obj_keys (moveLane protoLanes "__proto__" Further) = ["todo"].
Proof.
  split_and!; [|reflexivity | by vm_compute | by vm_compute | by vm_compute].
  apply (bool_decide_unpack _). vm_compute. done.
Qed.

(** Claim C10, amended: for every lane key and every delta, on a board that
    has a lane and no lane under the key [__proto__], [moveLane] produces a
    lanes mapping with the same keys, none lost and none repeated, that
    gives every key the lane it had before. *)
Theorem moveLane_preserves_lanes {TTextObject}
    (lanes : TBoardLanes TTextObject) (k : string) (delta : Delta) :
  obj_wf lanes → lanes ≠ [] → "__proto__" ∉ obj_keys lanes →
  obj_keys (moveLane lanes k delta) ≡ₚ obj_keys lanes
  ∧ obj_wf (moveLane lanes k delta)
  ∧ ∀ k', obj_get (moveLane lanes k delta) k' = Some <$> obj_get lanes k'.
Proof.
  intros Hwf Hne Hproto.
  destruct (moveLane_lanes lanes k delta Hwf Hne Hproto) as [Hperm Hget].
  split_and!; [done | unfold obj_wf; by rewrite Hperm | done].
Qed.

Lemma moveLane_preserves_lanes_witness :
  obj_keys (moveLane threeLanes "todo" Nearer) ≡ₚ obj_keys threeLanes
  ∧ obj_wf (moveLane threeLanes "todo" Nearer)
  ∧ ∀ k', obj_get (moveLane threeLanes "todo" Nearer) k'
          = Some <$> obj_get threeLanes k'.
Proof.
  apply (moveLane_preserves_lanes threeLanes "todo" Nearer).
  - apply (bool_decide_unpack _). vm_compute. done.
  - discriminate.
  - apply (bool_decide_unpack _). vm_compute. done.
Defined.

(** On a board without lanes, where no lane's menu can call it, [moveLane]
    finds nothing to move and writes the key of [undefined]. *)
Example moveLane_no_lanes :
  moveLane ([] : TBoardLanes string) "todo" Further = [("undefined", None)].
Proof. reflexivity. Qed.

(** ** Placeholder geometry *)

Lemma clientY_fold (clientYChildren : list Element) (start : Z) :
  foldl (λ acc child, acc + clientHeight child + 8) start clientYChildren
  = start + sum_heights clientYChildren + 8 * Z.of_nat (length clientYChildren).
Proof.
  revert start. induction clientYChildren as [|c cs IH]; intros start.
  - simpl. lia.
  - cbn [foldl]. rewrite IH. cbn [sum_heights foldr length].
    fold (sum_heights cs). lia.
Qed.

Lemma slice_prefix {A} (l : list A) (n : nat) : slice l 0 (Z.of_nat n) = take n l.
Proof.
  unfold slice.
  replace (relative_index (Z.of_nat (length l)) 0) with 0 by solve_clamp.
  replace (relative_index (Z.of_nat (length l)) (Z.of_nat n))
    with (Z.of_nat (n `min` length l)) by solve_clamp.
  rewrite Z.sub_0_r, Nat2Z.id. change (Z.to_nat 0) with 0%nat.
  rewrite drop_0. destruct (decide (n ≤ length l)%nat).
  - by replace (n `min` length l)%nat with n by lia.
  - replace (n `min` length l)%nat with (length l) by lia.
    by rewrite !take_ge by lia.
Qed.

(** Claim C5: the placeholder rectangle is the 4-tuple [x, y, width, height]
    whose width and height are the dragged element's client width and
    height and whose [y] is the sum of the rendered heights of the given
    preceding siblings plus 8 per sibling plus 2; it is [null] when the
    dragged element has no parent, or is itself missing.  The siblings the
    handlers pass are the first [endIndex] children of the container that
    carry a draggable id other than the dragged one. *)
Theorem getPlaceholderPosition_rectangle (draggable : Element)
    (clientYChildren : list Element) (parent : Element) (draggableId : string)
    (endIndex : nat) :
  getPlaceholderPosition (Some draggable) clientYChildren
  = match parentNode draggable with
    | Some _ =>
        Some (20,
              sum_heights clientYChildren
              + 8 * Z.of_nat (length clientYChildren) + 2,
              clientWidth draggable, clientHeight draggable)
    | None => None
    end
  ∧ getPlaceholderPosition None clientYChildren = None
  ∧ getClientYChildren parent draggableId (Z.of_nat endIndex)
    = take endIndex (List.filter (other_draggable draggableId) (children parent)).
Proof.
  split_and!; [| done |].
  - unfold getPlaceholderPosition. destruct (parentNode draggable); [|done].
    rewrite clientY_fold.
    by replace (2 + sum_heights clientYChildren
                + 8 * Z.of_nat (length clientYChildren))
      with (sum_heights clientYChildren
            + 8 * Z.of_nat (length clientYChildren) + 2) by lia.
  - unfold getClientYChildren. apply slice_prefix.
Qed.

(** ** Adding a lane *)

Section PendingLane.
Context {TTextObject CustomFields : Type}.
Context (textOfString : string → TTextObject).
Implicit Types (st : BoardState TTextObject CustomFields) (value : string).

Lemma exitPendingLane_nonempty st value :
  value ≠ "" →
  exitPendingLane textOfString st value
  = {| arrangedLanes :=
         obj_set (arrangedLanes st) (uniqueId "sl" (idCounter st)).1
           {| title := textOfString value |};
       arrangedItems :=
         obj_set (arrangedItems st) (uniqueId "sl" (idCounter st)).1 [];
       addingLane := false;
       placeholderPosition := placeholderPosition st;
       idCounter := S (idCounter st) |}.
Proof. destruct value; [done | reflexivity]. Qed.

(** Two calls of [uniqueId] return the same key only from the same counter:
    the keys of lanes added one after the other differ. *)
Lemma uniqueId_inj (prefix : string) (c c' : nat) :
  (uniqueId prefix c).1 = (uniqueId prefix c').1 → c = c'.
Proof.
  unfold uniqueId. cbn [fst]. intros Heq%(inj (String.append prefix)).
  apply (inj pretty) in Heq. lia.
Qed.


End PendingLane.



(** Naming the pending lane "Review" on the sample board; leaving it empty. *)
Example exitPendingLane_sample :
  obj_keys (arrangedLanes (exitPendingLane id sampleBoard "Review"))
  = ["todo"; "doing"; "done"; "sl1"]
  ∧ obj_get (arrangedLanes (exitPendingLane id sampleBoard "Review")) "sl1"
    = Some {| title := "Review" |}
  ∧ obj_get (arrangedItems (exitPendingLane id sampleBoard "Review")) "sl1"
    = Some []
  ∧ arrangedLanes (pendingLaneInput id sampleBoard (KeyDown "Escape" "Review"))
    = arrangedLanes sampleBoard.
Proof. by vm_compute. Qed.

(** ** Preparing the items *)

Section Prepare.
Context {TTextObject CustomFields : Type}.
Implicit Types (item : IPreparedBoardItem TTextObject CustomFields).
Implicit Types (group : list (IPreparedBoardItem TTextObject CustomFields)).
Implicit Types (l : list (IPreparedBoardItem TTextObject CustomFields)).
Implicit Types (items : TBoardItems TTextObject CustomFields).
Implicit Types (unsorted acc prepared
                : IPreparedBoardItems TTextObject CustomFields).
Implicit Types (lanes : TBoardLanes TTextObject).

Lemma sort_insert_Permutation item group :
  sort_insert compareOrder item group ≡ₚ item :: group.
Proof.
  induction group as [|y group IH]; simpl; [done |].
  case_match; [done |]. rewrite IH. apply perm_swap.
Qed.

Lemma sort_Permutation group : sort compareOrder group ≡ₚ group.
Proof.
  induction group as [|x group IH]; simpl; [done |].
  by rewrite sort_insert_Permutation, IH.
Qed.

Lemma sort_insert_sorted item group :
  StronglySorted order_le group →
  StronglySorted order_le (sort_insert compareOrder item group).
Proof.
  induction 1 as [|y group Hsorted IH Hall]; simpl.
  - repeat constructor.
  - unfold compareOrder at 1. case_match eqn:Hcmp.
    + constructor; [by constructor |]. constructor; [unfold order_le; lia |].
      eapply Forall_impl; [exact Hall |]. unfold order_le. intros; lia.
    + constructor; [done |]. rewrite sort_insert_Permutation.
      constructor; [unfold order_le; lia | done].
Qed.

Lemma sort_sorted group : StronglySorted order_le (sort compareOrder group).
Proof.
  induction group as [|x group IH]; simpl; [constructor |].
  by apply sort_insert_sorted.
Qed.

Lemma in_lane_app k l l' : in_lane k (l ++ l') = in_lane k l ++ in_lane k l'.
Proof. apply filter_app. Qed.

Lemma in_lane_nil k l :
  Forall (λ item, lane (asBoardItem item) ≠ k) l → in_lane k l = [].
Proof.
  unfold in_lane. induction 1 as [|item l Hitem _ IH]; [done |].
  by rewrite filter_cons_False.
Qed.

Lemma in_lane_elem_of k l item :
  item ∈ l → lane (asBoardItem item) = k → in_lane k l ≠ [].
Proof.
  intros Hin Hlane Hnil.
  assert (item ∈ in_lane k l) as Hitem by (by apply list_elem_of_filter).
  rewrite Hnil in Hitem. by apply elem_of_nil in Hitem.
Qed.

Lemma keyed_items_app items items' :
  keyed_items (items ++ items') = keyed_items items ++ keyed_items items'.
Proof. apply fmap_app. Qed.

(** The first pass, item after item. *)
Lemma unsortedPreparedBoardItems_snoc items (key : string)
    (it : IBoardItem TTextObject CustomFields) :
  unsortedPreparedBoardItems (items ++ [(key, it)])
  = acc ← unsortedPreparedBoardItems items;
    own ← hasOwnProperty acc (lane it);
    if own : bool then
      group ← obj_get acc (lane it);
      Some (obj_set acc (lane it)
              (group ++ [{| itemKey := key; asBoardItem := it |}]))
    else Some (js_set acc (lane it) [{| itemKey := key; asBoardItem := it |}]).
Proof. unfold unsortedPreparedBoardItems. by rewrite foldl_app. Qed.

(** The first pass, when it returns: a lane key owns a group exactly when
    some item names it, and the group lists those items in key order;
    [__proto__] owns none. *)
Lemma unsortedPreparedBoardItems_get items unsorted :
  unsortedPreparedBoardItems items = Some unsorted →
  ("__proto__" ∉ obj_keys unsorted)
  ∧ ∀ k, k ≠ "__proto__" →
      obj_get unsorted k
      = match in_lane k (keyed_items items) with
        | [] => None
        | group => Some group
        end.
Proof.
  revert unsorted.
  induction items as [|[key it] items IH] using rev_ind; intros unsorted.
  - intros [= <-]. split; [apply not_elem_of_nil | done].
  - rewrite unsortedPreparedBoardItems_snoc.
    destruct (unsortedPreparedBoardItems items) as [acc|]; [|done].
    destruct (IH acc eq_refl) as [Hproto Hget]. cbn [mbind option_bind].
    unfold hasOwnProperty. case_decide as Hshadow; [done |].
    cbn [mbind option_bind]. rewrite keyed_items_app.
    cbn [keyed_items fmap list_fmap].
    set (item := {| itemKey := key; asBoardItem := it |}).
    assert (∀ k, k ≠ lane it →
              in_lane k (keyed_items items ++ [item])
              = in_lane k (keyed_items items)) as Hother.
    { intros k Hk. rewrite in_lane_app. unfold in_lane at 2.
      rewrite (filter_cons_False (λ item, lane (asBoardItem item) = k))
        by (simpl; congruence).
      by rewrite filter_nil, app_nil_r. }
    assert (in_lane (lane it) (keyed_items items ++ [item])
            = in_lane (lane it) (keyed_items items) ++ [item]) as Hsame.
    { rewrite in_lane_app. unfold in_lane at 2.
      by rewrite (filter_cons_True (λ i, lane (asBoardItem i) = lane it))
        by done. }
    case_bool_decide as Hown.
    + assert (lane it ≠ "__proto__") as Hlane by (by intros Heq; rewrite Heq in Hown).
      pose proof (Hget _ Hlane) as Hgroup.
      apply obj_get_is_Some in Hown as [group Hgroup'].
      rewrite Hgroup'. cbn [mbind option_bind]. intros [= <-]. split.
      * rewrite obj_keys_set_Some by (by eexists). done.
      * intros k Hk. destruct (decide (lane it = k)) as [<-|Hne].
        -- rewrite obj_get_set_eq, Hsame. rewrite Hgroup' in Hgroup.
           destruct (in_lane _ (keyed_items items)); [done |].
           by injection Hgroup as ->.
        -- rewrite obj_get_set_ne by done. rewrite Hother by done. auto.
    + intros [= <-]. split; [by apply js_set_keeps_proto |].
      intros k Hk. destruct (decide (lane it = k)) as [<-|Hne].
      * rewrite obj_get_js_set_eq, Hsame by done.
        apply obj_get_None in Hown. rewrite (Hget _ Hk) in Hown.
        by destruct (in_lane _ (keyed_items items)).
      * rewrite obj_get_js_set_ne by done. rewrite Hother by done. auto.
Qed.

(** The groups of the first pass have the name [hasOwnProperty] exactly
    when an item names it. *)
Lemma unsortedPreparedBoardItems_shadowing items unsorted :
  unsortedPreparedBoardItems items = Some unsorted →
  ("hasOwnProperty" ∈ obj_keys unsorted ↔ ¬ no_shadowing items).
Proof.
  intros [_ Hget]%unsortedPreparedBoardItems_get.
  rewrite <- obj_get_is_Some, Hget by done. unfold no_shadowing. split.
  - intros Hsome Hnone.
    rewrite in_lane_nil in Hsome; [by destruct Hsome |].
    unfold keyed_items. apply Forall_fmap.
    eapply Forall_impl; [exact Hnone |]. by intros [key it].
  - intros Hnot. apply not_Forall_Exists in Hnot; [|apply _].
    apply Exists_exists in Hnot as ([key it] & Hin & Hlane).
    apply dec_stable in Hlane. simpl in Hlane.
    pose proof (in_lane_elem_of "hasOwnProperty" (keyed_items items)
                  {| itemKey := key; asBoardItem := it |}) as Hne.
    destruct (in_lane _ _); [|by eexists].
    exfalso. apply Hne; [|done|done].
    unfold keyed_items. apply list_elem_of_fmap. by exists (key, it).
Qed.

(** The first pass returns when no item names [hasOwnProperty]. *)
Lemma unsortedPreparedBoardItems_returns items :
  no_shadowing items → is_Some (unsortedPreparedBoardItems items).
Proof.
  induction items as [|[key it] items IH] using rev_ind; [by eexists |].
  unfold no_shadowing. rewrite Forall_app. intros [Hitems _].
  destruct (IH Hitems) as [acc Hacc].
  rewrite unsortedPreparedBoardItems_snoc, Hacc. cbn [mbind option_bind].
  unfold hasOwnProperty. rewrite decide_False
    by (rewrite (unsortedPreparedBoardItems_shadowing _ _ Hacc); by intros []).
  cbn [mbind option_bind]. case_bool_decide as Hown; [|by eexists].
  apply obj_get_is_Some in Hown as [group ->]. by eexists.
Qed.

(** The second pass, from the groups [unsorted] of the first. *)
Local Abbreviation secondPass unsorted :=
  (foldl (λ (acc : option (IPreparedBoardItems TTextObject CustomFields))
            laneKey,
            acc ← acc;
            own ← hasOwnProperty unsorted laneKey;
            group ←
              (if own : bool
               then sort compareOrder <$> obj_get unsorted laneKey
               else Some []);
            Some (js_set acc laneKey group))).

Lemma secondPass_None unsorted (laneKeys : list string) :
  secondPass unsorted None laneKeys = None.
Proof. induction laneKeys as [|k ks IH]; [done | exact IH]. Qed.

Lemma secondPass_step unsorted acc (k : string) :
  "hasOwnProperty" ∉ obj_keys unsorted →
  (own ← hasOwnProperty unsorted k;
   group ← (if own : bool then sort compareOrder <$> obj_get unsorted k
            else Some []);
   Some (js_set acc k group))
  = Some (js_set acc k (sorted_group unsorted k)).
Proof.
  intros Hshadow. unfold hasOwnProperty, sorted_group.
  rewrite decide_False by done. cbn [mbind option_bind].
  case_bool_decide as Hown.
  - apply obj_get_is_Some in Hown as [group ->]. done.
  - apply obj_get_None in Hown. by rewrite Hown.
Qed.

Lemma secondPass_returns unsorted acc (laneKeys : list string) :
  "hasOwnProperty" ∉ obj_keys unsorted →
  secondPass unsorted (Some acc) laneKeys
  = Some (foldl (λ acc k, js_set acc k (sorted_group unsorted k)) acc laneKeys).
Proof.
  intros Hshadow. revert acc.
  induction laneKeys as [|k ks IH]; intros acc; [done |].
  cbn [foldl mbind option_bind]. rewrite secondPass_step by done. apply IH.
Qed.

Lemma secondPass_throws unsorted acc (laneKeys : list string) :
  "hasOwnProperty" ∈ obj_keys unsorted → laneKeys ≠ [] →
  secondPass unsorted (Some acc) laneKeys = None.
Proof.
  intros Hshadow Hne. destruct laneKeys as [|k ks]; [done |].
  cbn [foldl mbind option_bind]. unfold hasOwnProperty.
  rewrite decide_True by done. apply secondPass_None.
Qed.

(** [prepareBoardItems], when it returns, is the second pass over the lane
    keys, and it returns unless an item names [hasOwnProperty]. *)
Lemma prepareBoardItems_Some items lanes prepared :
  prepareBoardItems items lanes = Some prepared →
  ∃ unsorted,
    unsortedPreparedBoardItems items = Some unsorted
    ∧ prepared
      = foldl (λ acc k, js_set acc k (sorted_group unsorted k)) []
          (obj_keys lanes).
Proof.
  unfold prepareBoardItems.
  destruct (unsortedPreparedBoardItems items) as [unsorted|]; [|done].
  cbn [mbind option_bind]. intros Hrun. exists unsorted. split; [done |].
  destruct (decide ("hasOwnProperty" ∈ obj_keys unsorted)) as [Hin|Hnin].
  - destruct (obj_keys lanes) as [|k ks] eqn:Hkeys.
    + by injection Hrun as <-.
    + by rewrite secondPass_throws in Hrun.
  - rewrite secondPass_returns in Hrun by done. by injection Hrun as <-.
Qed.

Lemma prepareBoardItems_returns items lanes :
  no_shadowing items → is_Some (prepareBoardItems items lanes).
Proof.
  intros Hitems. unfold prepareBoardItems.
  destruct (unsortedPreparedBoardItems_returns items Hitems)
    as [unsorted Hunsorted].
  rewrite Hunsorted. cbn [mbind option_bind].
  rewrite secondPass_returns; [by eexists |].
  rewrite (unsortedPreparedBoardItems_shadowing _ _ Hunsorted). by intros [].
Qed.

(** An item that names [hasOwnProperty] makes [prepareBoardItems] throw on
    a board that has a lane. *)
Lemma prepareBoardItems_None items lanes (key : string)
    (it : IBoardItem TTextObject CustomFields) :
  (key, it) ∈ items → lane it = "hasOwnProperty" → lanes ≠ [] →
  prepareBoardItems items lanes = None.
Proof.
  intros Hin Hlane Hlanes. unfold prepareBoardItems.
  destruct (unsortedPreparedBoardItems items) as [unsorted|] eqn:Hunsorted;
    [|done].
  cbn [mbind option_bind]. apply secondPass_throws.
  - rewrite (unsortedPreparedBoardItems_shadowing _ _ Hunsorted).
    unfold no_shadowing. rewrite Forall_forall. intros Hall.
    by apply (Hall _ Hin).
  - by destruct lanes.
Qed.

(** The value the second pass stores under a lane key. *)
Lemma sorted_group_eq items unsorted k :
  unsortedPreparedBoardItems items = Some unsorted → k ≠ "__proto__" →
  sorted_group unsorted k = sort compareOrder (in_lane k (keyed_items items)).
Proof.
  intros [_ Hget]%unsortedPreparedBoardItems_get Hk.
  unfold sorted_group. rewrite Hget by done.
  by destruct (in_lane k (keyed_items items)).
Qed.

(** What [prepareBoardItems] holds under each key. *)
Lemma prepareBoardItems_get items lanes prepared k :
  prepareBoardItems items lanes = Some prepared →
  obj_get prepared k
  = if decide (k ∈ obj_keys lanes ∧ k ≠ "__proto__")
    then Some (sort compareOrder (in_lane k (keyed_items items)))
    else None.
Proof.
  intros (unsorted & Hunsorted & ->)%prepareBoardItems_Some.
  etrans;
    [exact (js_reduce_get id (sorted_group unsorted) (obj_keys lanes) [] k
              (not_elem_of_nil _)) |].
  rewrite list_fmap_id. case_decide as Hk; [|done].
  destruct Hk as [_ Hk]. by rewrite (sorted_group_eq items).
Qed.

Lemma prepareBoardItems_keys items lanes prepared :
  prepareBoardItems items lanes = Some prepared →
  obj_wf lanes → "__proto__" ∉ obj_keys lanes →
  obj_keys prepared ≡ₚ obj_keys lanes.
Proof.
  intros (unsorted & Hunsorted & ->)%prepareBoardItems_Some Hwf Hproto.
  etrans;
    [apply (js_reduce_keys id (sorted_group unsorted) (obj_keys lanes) []) |].
  - by rewrite list_fmap_id.
  - by rewrite list_fmap_id.
  - by rewrite list_fmap_id.
Qed.

(** The prepared mapping, lane by lane, for lanes whose keys stand in an
    order that [Object.keys] can list them in. *)
Lemma prepareBoardItems_eq items lanes prepared :
  prepareBoardItems items lanes = Some prepared →
  obj_wf lanes → "__proto__" ∉ obj_keys lanes → js_ordered (obj_keys lanes) →
  prepared
  = (λ k, (k, sort compareOrder (in_lane k (keyed_items items))))
    <$> obj_keys lanes.
Proof.
  intros (unsorted & Hunsorted & ->)%prepareBoardItems_Some Hwf Hproto Hsorted.
  etrans;
    [apply (js_reduce_eq id (sorted_group unsorted) (obj_keys lanes) []) |].
  - by rewrite list_fmap_id.
  - by rewrite list_fmap_id.
  - by rewrite list_fmap_id.
  - simpl. apply list_fmap_ext. intros _ k Hk%list_elem_of_lookup_2. simpl.
    rewrite (sorted_group_eq items); [done | done |]. by intros ->.
Qed.

Lemma prepareBoardItems_Permutation items lanes prepared :
  prepareBoardItems items lanes = Some prepared →
  obj_wf lanes → "__proto__" ∉ obj_keys lanes →
  prepared
  ≡ₚ (λ k, (k, sort compareOrder (in_lane k (keyed_items items))))
     <$> obj_keys lanes.
Proof.
  intros (unsorted & Hunsorted & ->)%prepareBoardItems_Some Hwf Hproto.
  etrans;
    [apply (js_reduce_Permutation id (sorted_group unsorted)
              (obj_keys lanes) []) |].
  - by rewrite list_fmap_id.
  - by rewrite list_fmap_id.
  - simpl. apply reflexive_eq, list_fmap_ext.
    intros _ k Hk%list_elem_of_lookup_2. simpl.
    rewrite (sorted_group_eq items); [done | done |]. by intros ->.
Qed.

Lemma keyed_items_keys items : itemKey <$> keyed_items items = obj_keys items.
Proof.
  unfold keyed_items, obj_keys. rewrite <- list_fmap_compose.
  apply list_fmap_ext. by intros _ [key it] _.
Qed.

(** Claim C7, where the code departs from it: a board may have a lane under
    the key [hasOwnProperty]; with an item in that lane [prepareBoardItems]
    returns no mapping at all, it throws. *)
Theorem prepareBoardItems_lane_hasOwnProperty items lanes (key : string)
    (it : IBoardItem TTextObject CustomFields) :
  (key, it) ∈ items → lane it = "hasOwnProperty" →
  lane it ∈ obj_keys lanes →
  prepareBoardItems items lanes = None.
Proof.
  intros Hin Hlane Hkey. apply (prepareBoardItems_None _ _ key it); [done.. |].
  intros ->. by apply elem_of_nil in Hkey.
Qed.

(** Claim C8, where the code departs from it: an item that names the lane
    [hasOwnProperty] on a board that has lanes but none of that key is not
    absorbed; [prepareBoardItems] throws. *)
Theorem prepareBoardItems_unknown_lane_throws items lanes (key : string)
    (it : IBoardItem TTextObject CustomFields) :
  (key, it) ∈ items → lane it ∉ obj_keys lanes → lanes ≠ [] →
  lane it = "hasOwnProperty" →
  prepareBoardItems items lanes = None.
Proof.
  intros Hin _ Hlanes Hlane. by apply (prepareBoardItems_None _ _ key it).
Qed.

(** Property X30: when no item names a lane [hasOwnProperty],
    [prepareBoardItems] returns a mapping; its keys are the lane keys other
    than [__proto__], and it holds under each of them the items that name
    that lane, all of them and no others, in non-decreasing [order], so the
    empty sequence where no item names the lane. An item that names no lane
    of the board is in none of the groups, and its lane has no entry. When
    the lanes have no key [__proto__], the keys are the lane keys, in their
    order. *)
Theorem prepareBoardItems_groups items lanes :
  no_shadowing items →
  ∃ prepared,
    prepareBoardItems items lanes = Some prepared
    ∧ (∀ k, k ∈ obj_keys prepared ↔ k ∈ obj_keys lanes ∧ k ≠ "__proto__")
    ∧ (∀ k, k ∈ obj_keys lanes → k ≠ "__proto__" →
         ∃ group, obj_get prepared k = Some group
           ∧ StronglySorted order_le group
           ∧ group ≡ₚ in_lane k (keyed_items items)
           ∧ (in_lane k (keyed_items items) = [] → group = []))
    ∧ (∀ key it, (key, it) ∈ items → lane it ∉ obj_keys lanes →
         obj_get prepared (lane it) = None
         ∧ ∀ k group, obj_get prepared k = Some group →
             {| itemKey := key; asBoardItem := it |} ∉ group)
    ∧ (obj_wf lanes → "__proto__" ∉ obj_keys lanes →
       js_ordered (obj_keys lanes) → obj_keys prepared = obj_keys lanes).
Proof.
  intros Hitems.
  destruct (prepareBoardItems_returns items lanes Hitems) as [prepared Hrun].
  exists prepared. split; [done |].
  pose proof (prepareBoardItems_get items lanes prepared) as Hget.
  split_and!.
  - intros k. rewrite <- obj_get_is_Some, Hget by done.
    case_decide as Hk.
    + split; [by intros _ | by eexists].
    + split; [by intros [? ?] | by intros ?%Hk].
  - intros k Hk Hproto.
    exists (sort compareOrder (in_lane k (keyed_items items))).
    rewrite Hget, decide_True by done.
    split_and!; [done | apply sort_sorted | apply sort_Permutation |].
    by intros ->.
  - intros key it Hin Hlane. split.
    + rewrite Hget by done. rewrite decide_False; [done |]. by intros [? _].
    + intros k group. rewrite Hget by done.
      case_decide as Hk; [|done]. intros [= <-].
      rewrite sort_Permutation. unfold in_lane.
      rewrite list_elem_of_filter. simpl. intros [<- _]. by destruct Hk.
  - intros Hwf Hproto Hsorted.
    rewrite (prepareBoardItems_eq items lanes prepared) by done.
    unfold obj_keys at 1. rewrite <- list_fmap_compose. apply list_fmap_id.
Qed.

End Prepare.

(** ** Committing a drop *)

Section RankFacts.
Context {TTextObject CustomFields : Type}.
Implicit Types (item : IPreparedBoardItem TTextObject CustomFields).
Implicit Types (l : list (IPreparedBoardItem TTextObject CustomFields)).
Implicit Types (items : IPreparedBoardItems TTextObject CustomFields).

Lemma mapResetOrder_lookup l (n : nat) :
  mapResetOrder l !! n = (λ item, resetOrder item (Z.of_nat n)) <$> l !! n.
Proof. unfold mapResetOrder. apply list_lookup_imap. Qed.

Lemma mapResetOrder_ranked l : ranked (mapResetOrder l).
Proof.
  intros n item. rewrite mapResetOrder_lookup.
  destruct (l !! n); [|done]. by intros [= <-].
Qed.

Lemma mapResetOrder_length l : length (mapResetOrder l) = length l.
Proof. apply length_imap. Qed.

Lemma mapResetOrder_keys l : itemKey <$> mapResetOrder l = itemKey <$> l.
Proof.
  apply list_eq. intros n.
  rewrite !list_lookup_fmap, mapResetOrder_lookup. by destruct (l !! n).
Qed.

(** The handler's [map(resetOrder)] is the re-ranking of the
    specification. *)
Lemma mapResetOrder_rerank l : mapResetOrder l = rerank l.
Proof.
  apply list_eq. intros n. unfold rerank.
  rewrite mapResetOrder_lookup, lookup_zip_with.
  destruct (l !! n) as [item|] eqn:Hn; [|done]. simpl.
  by rewrite lookup_seq_lt by (by eapply lookup_lt_Some).
Qed.

Lemma cloneItem_id item : cloneItem item = item.
Proof. by destruct item as [key []]. Qed.

(** A deep copy has the structure and the contents of its original. *)
Lemma cloneDeep_id items : cloneDeep items = items.
Proof.
  unfold cloneDeep. induction items as [|[k arr] items IH]; [done |].
  cbn [map]. rewrite IH. do 2 f_equal.
  induction arr as [|item arr IHarr]; [done |].
  cbn [map]. by rewrite cloneItem_id, IHarr.
Qed.

Lemma item_keys_app items1 items2 :
  item_keys (items1 ++ items2) = item_keys items1 ++ item_keys items2.
Proof. unfold item_keys. by rewrite fmap_app, concat_app, fmap_app. Qed.

Lemma item_keys_cons k l items :
  item_keys ((k, l) :: items) = (itemKey <$> l) ++ item_keys items.
Proof. unfold item_keys. by rewrite fmap_cons, concat_cons, fmap_app. Qed.

Lemma elem_of_item_keys items (key : string) :
  key ∈ item_keys items
  ↔ ∃ k l item, (k, l) ∈ items ∧ item ∈ l ∧ itemKey item = key.
Proof.
  induction items as [|[k l] items IH].
  - split; [by intros ?%elem_of_nil | by intros (? & ? & ? & ?%elem_of_nil & _)].
  - rewrite item_keys_cons, elem_of_app, IH, list_elem_of_fmap. split.
    + intros [(item & -> & Hitem)|(k' & l' & item & Hin & Hitem & Hkey)].
      * exists k, l, item. split_and!; [by left | done | done].
      * exists k', l', item. split_and!; [by right | done | done].
    + intros (k' & l' & item & [[= -> ->]|Hin]%elem_of_cons & Hitem & Hkey).
      * left. by exists item.
      * right. by exists k', l', item.
Qed.

(** Replacing a lane's sequence replaces its keys among the board's. *)
Lemma item_keys_set items k l :
  obj_get items k = Some l →
  ∃ rest, item_keys items ≡ₚ (itemKey <$> l) ++ rest
          ∧ (∀ l', item_keys (obj_set items k l') ≡ₚ (itemKey <$> l') ++ rest).
Proof.
  intros Hget. destruct (obj_get_split _ _ _ Hget) as (o1 & o2 & -> & _ & Hset).
  exists (item_keys o1 ++ item_keys o2). split.
  - rewrite item_keys_app, item_keys_cons.
    by rewrite (assoc_L (++)), (comm (++) (item_keys o1)), <- (assoc_L (++)).
  - intros l'. rewrite Hset, item_keys_app, item_keys_cons.
    by rewrite (assoc_L (++)), (comm (++) (item_keys o1)), <- (assoc_L (++)).
Qed.

Lemma occurrences_absent (key : string) (keys : list string) :
  key ∉ keys → occurrences key keys = 0%nat.
Proof.
  unfold occurrences. induction keys as [|k keys IH]; [done |].
  intros [Hne Hnin]%not_elem_of_cons.
  rewrite filter_cons_False by congruence. auto.
Qed.

Lemma occurrences_NoDup (key : string) (keys : list string) :
  NoDup keys → key ∈ keys → occurrences key keys = 1%nat.
Proof.
  induction 1 as [|k keys Hk Hnd IH].
  - by intros ?%elem_of_nil.
  - intros [->|Hin]%elem_of_cons; unfold occurrences.
    + rewrite filter_cons_True by done. simpl. f_equal.
      exact (occurrences_absent k keys Hk).
    + rewrite filter_cons_False by (by intros ->). auto.
Qed.

End RankFacts.

Section BoardInvariant.
Context {TTextObject CustomFields : Type}.
Implicit Types (items : TBoardItems TTextObject CustomFields).
Implicit Types (lanes : TBoardLanes TTextObject).

Lemma item_keys_Permutation
    (items1 items2 : IPreparedBoardItems TTextObject CustomFields) :
  items1 ≡ₚ items2 → item_keys items1 ≡ₚ item_keys items2.
Proof.
  induction 1 as [|[k l] o1 o2 _ IH|[k l] [k' l'] o|o1 o2 o3 _ IH1 _ IH2].
  - done.
  - by rewrite !item_keys_cons, IH.
  - rewrite !item_keys_cons, !(assoc_L (++)).
    by rewrite (comm (++) (itemKey <$> l')).
  - by rewrite IH1.
Qed.

(** The board that [prepareBoardItems] builds has each item key once. *)
Lemma prepareBoardItems_item_keys items lanes prepared :
  prepareBoardItems items lanes = Some prepared →
  obj_wf items → obj_wf lanes → "__proto__" ∉ obj_keys lanes →
  NoDup (item_keys prepared).
Proof.
  intros Hrun Hitems Hlanes Hproto.
  rewrite (item_keys_Permutation _ _
             (prepareBoardItems_Permutation _ _ _ Hrun Hlanes Hproto)).
  clear Hrun Hproto.
  unfold obj_wf in *. rewrite <- keyed_items_keys in Hitems.
  induction Hlanes as [|k ks Hk Hks IH]; [constructor |].
  rewrite fmap_cons, item_keys_cons. apply NoDup_app. split_and!.
  - rewrite sort_Permutation. unfold in_lane.
    eapply sublist_NoDup; [exact Hitems | apply fmap_sublist, sublist_filter].
  - intros key (a & -> & Ha)%list_elem_of_fmap Hrest.
    rewrite sort_Permutation in Ha.
    apply list_elem_of_filter in Ha as [Hlane Ha].
    apply elem_of_item_keys in Hrest as (k' & group & b & Hgroup & Hb & Hkey).
    apply list_elem_of_fmap in Hgroup as (k'' & [= -> ->] & Hk').
    rewrite sort_Permutation in Hb.
    apply list_elem_of_filter in Hb as [Hlane' Hb].
    assert (a = b) as ->; [|congruence].
    apply list_elem_of_lookup in Ha as [n Hn].
    apply list_elem_of_lookup in Hb as [n' Hn'].
    assert (n = n') as ->; [|congruence].
    eapply (NoDup_lookup _ _ _ _ Hitems);
      rewrite list_lookup_fmap; [by rewrite Hn | rewrite Hn'; simpl; congruence].
  - exact IH.
Qed.

End BoardInvariant.

Section DropCommit.
Context {TTextObject CustomFields : Type}.

(** A drop of the item found at position [i] of the source lane [src], onto
    a lane [boardLane] of the board whose sequence is [dst]. *)
Variables (st : BoardState TTextObject CustomFields) (ev : DropResult).
Variables (d : DraggableLocation) (boardLane : TBoardLane TTextObject).
Variables (src dst : list (IPreparedBoardItem TTextObject CustomFields)).
Variables (found moving : IPreparedBoardItem TTextObject CustomFields) (i : nat).

Hypothesis Hdestination : destination ev = Some d.
Hypothesis Hsrc :
  obj_get (arrangedItems st) (droppableId (source ev)) = Some src.
Hypothesis Hfound :
  find (λ boardItem, bool_decide (itemKey boardItem = draggableId ev)) src
  = Some found.
Hypothesis Hlane : obj_get (arrangedLanes st) (droppableId d) = Some boardLane.
Hypothesis Hdst : obj_get (arrangedItems st) (droppableId d) = Some dst.
Hypothesis Hindex : index (source ev) = Z.of_nat i.
Hypothesis Hmoving : src !! i = Some moving.

Local Abbreviation sourceLaneKey := (droppableId (source ev)).
Local Abbreviation destinationLaneKey := (droppableId d).

(** The destination sequence as the handler reads it, after the removal. *)
Local Abbreviation dst1 :=
  (if decide (sourceLaneKey = destinationLaneKey)
   then mapResetOrder (delete i src) else dst).

Lemma destination_after_removal :
  obj_get (obj_set (arrangedItems st) sourceLaneKey
             (mapResetOrder (delete i src))) destinationLaneKey
  = Some dst1.
Proof.
  case_decide as Heq.
  - rewrite <- Heq. apply obj_get_set_eq.
  - by rewrite obj_get_set_ne.
Qed.

(** The handler succeeds on such a drop, and this is what it leaves. *)
Lemma onDragEnd_commit :
  onDragEnd st ev
  = Some ({| arrangedLanes := arrangedLanes st;
             arrangedItems :=
               cloneDeep
                 (obj_set
                    (obj_set (arrangedItems st) sourceLaneKey
                       (mapResetOrder (delete i src)))
                    destinationLaneKey
                    (mapResetOrder (splice dst1 (index d) 0 [moving]).2));
             addingLane := addingLane st;
             placeholderPosition := None;
             idCounter := idCounter st |},
          [OnDragEndBoardItem (item_title (asBoardItem found))
             (Z.max 1 (index d + 1)) (length dst)
             (if decide (destinationLaneKey = "") then None
              else Some (title boardLane))]).
Proof.
  unfold onDragEnd. rewrite Hsrc. cbn [mbind option_bind].
  rewrite Hfound, Hdestination. cbn [mbind option_bind].
  rewrite Hdst. cbn [mbind option_bind].
  rewrite Hindex, (splice_remove _ _ _ Hmoving).
  rewrite destination_after_removal.
  destruct (decide (destinationLaneKey = "")) as [Hempty|Hempty];
    cbn [mbind option_bind]; [|rewrite Hlane; cbn [mbind option_bind]];
    reflexivity.
Qed.

(** The lanes keep their keys and their order through a commit. *)
Lemma commit_keys (l1 l2 : list (IPreparedBoardItem TTextObject CustomFields)) :
  obj_keys (obj_set (obj_set (arrangedItems st) sourceLaneKey l1)
              destinationLaneKey l2)
  = obj_keys (arrangedItems st).
Proof.
  rewrite obj_keys_set_Some.
  - rewrite obj_keys_set_Some; [done | by rewrite Hsrc].
  - destruct (decide (sourceLaneKey = destinationLaneKey)) as [<-|Hne].
    + by rewrite obj_get_set_eq.
    + rewrite obj_get_set_ne by done. by rewrite Hdst.
Qed.

(** The item keys on the board are the same before and after a commit,
    wherever the item is inserted. *)
Lemma commit_item_keys (l : list (IPreparedBoardItem TTextObject CustomFields)) :
  l ≡ₚ moving :: dst1 →
  item_keys (obj_set (obj_set (arrangedItems st) sourceLaneKey
                        (mapResetOrder (delete i src)))
               destinationLaneKey (mapResetOrder l))
  ≡ₚ item_keys (arrangedItems st).
Proof.
  intros Hl.
  destruct (item_keys_set _ _ _ Hsrc) as (rest1 & Hitems & Hitems1).
  destruct (item_keys_set _ _ _ destination_after_removal)
    as (rest2 & Hitems1' & Hitems2).
  rewrite Hitems2, mapResetOrder_keys, Hl, fmap_cons. simpl.
  rewrite <- Hitems1', Hitems1, mapResetOrder_keys, Hitems.
  rewrite (delete_Permutation src i moving Hmoving) at 2.
  by rewrite fmap_cons.
Qed.

(** A committed drop neither loses nor repeats an item, wherever the
    destination index points: with [prepareBoardItems_item_keys], the item
    keys of the board stay distinct from one drop to the next. *)
Lemma onDragEnd_item_keys :
  ∃ st' announcements,
    onDragEnd st ev = Some (st', announcements)
    ∧ item_keys (arrangedItems st') ≡ₚ item_keys (arrangedItems st).
Proof.
  eexists _, _. split; [apply onDragEnd_commit |].
  cbn [arrangedItems]. rewrite cloneDeep_id.
  apply commit_item_keys, splice_insert_Permutation.
Qed.

(** Claim C1, amended: on a drop with a destination, from a lane of the board
    that holds the dragged item onto a lane of the board, whose source index
    [i] is the position of an item of the source lane and whose destination
    index [j] is at most the length of the destination lane's sequence, as
    it is after the removal, the handler removes the item at the source
    index from the source lane and re-ranks that sequence, inserts the item
    at the destination index of the destination lane and re-ranks that
    sequence, and sets the items state to a deep copy of the outcome.  In
    both lanes every order is then the position.  The moved item stands at
    the destination index of the destination lane; on a board whose item
    keys are distinct it occurs exactly once, and after a cross-lane move it
    does not occur in the source lane. *)
Theorem onDragEnd_moves_item (j : nat) :
  index d = Z.of_nat j →
  (j ≤ if decide (sourceLaneKey = destinationLaneKey)
       then length src - 1 else length dst)%nat →
  ∃ m announcement,
    move_item (arrangedItems st) sourceLaneKey i destinationLaneKey j = Some m
    ∧ cloneDeep m = m
    ∧ onDragEnd st ev
      = Some ({| arrangedLanes := arrangedLanes st;
                 arrangedItems := cloneDeep m;
                 addingLane := addingLane st;
                 placeholderPosition := None;
                 idCounter := idCounter st |}, [announcement])
    ∧ ranked (default [] (obj_get (cloneDeep m) sourceLaneKey))
    ∧ ranked (default [] (obj_get (cloneDeep m) destinationLaneKey))
    ∧ lane_item_keys (cloneDeep m) destinationLaneKey !! j
      = Some (itemKey moving)
    ∧ (NoDup (item_keys (arrangedItems st)) →
       occurrences (itemKey moving) (item_keys (cloneDeep m)) = 1%nat
       ∧ (sourceLaneKey ≠ destinationLaneKey →
          itemKey moving ∉ lane_item_keys (cloneDeep m) sourceLaneKey)).
Proof.
  intros Hj Hjle.
  assert (j ≤ length dst1)%nat as Hjle'.
  { case_decide; [|done].
    rewrite mapResetOrder_length, length_delete by (by rewrite Hmoving). lia. }
  exists (obj_set
            (obj_set (arrangedItems st) sourceLaneKey
               (mapResetOrder (delete i src)))
            destinationLaneKey (mapResetOrder (insert_at j moving dst1))).
  eexists. rewrite cloneDeep_id. split_and!.
  - unfold move_item. rewrite Hsrc. cbn [mbind option_bind].
    rewrite Hmoving. cbn [mbind option_bind].
    rewrite <- !mapResetOrder_rerank, destination_after_removal.
    cbn [mbind option_bind]. by rewrite <- mapResetOrder_rerank.
  - done.
  - rewrite onDragEnd_commit, Hj, splice_insert by done.
    by rewrite cloneDeep_id.
  - destruct (decide (sourceLaneKey = destinationLaneKey)) as [Heq|Hne].
    + rewrite Heq, obj_get_set_eq. apply mapResetOrder_ranked.
    + rewrite obj_get_set_ne, obj_get_set_eq by done.
      apply mapResetOrder_ranked.
  - rewrite obj_get_set_eq. apply mapResetOrder_ranked.
  - unfold lane_item_keys. rewrite obj_get_set_eq. simpl.
    rewrite list_lookup_fmap, mapResetOrder_lookup.
    by rewrite insert_at_lookup.
  - intros Hnd.
    destruct (item_keys_set _ _ _ Hsrc) as (rest & Hitems & _).
    assert (NoDup (itemKey <$> src)) as Hndsrc.
    { rewrite Hitems in Hnd. by apply NoDup_app in Hnd as [? _]. }
    pose proof (commit_item_keys (insert_at j moving dst1)
                  (insert_at_Permutation _ _ _)) as Hperm.
    split.
    + apply occurrences_NoDup; rewrite Hperm; [done |].
      rewrite Hitems. apply elem_of_app. left.
      apply list_elem_of_fmap_2. by eapply list_elem_of_lookup_2.
    + intros Hne. unfold lane_item_keys. rewrite obj_get_set_ne by done.
      rewrite obj_get_set_eq. simpl.
      rewrite mapResetOrder_keys, list_fmap_delete.
      apply NoDup_delete_lookup; [done |]. by rewrite list_lookup_fmap, Hmoving.
Qed.

End DropCommit.

(** The example of the specification: after the move, A holds item 2 with
    order 0 and B holds item 1 with order 0.  The handler leaves the [lane]
    field of the moved item as it was. *)
Example onDragEnd_example :
  arrangedItems <$> (fst <$> onDragEnd exampleBoard exampleDrop)
  = Some [("A", [sampleItem "2" "A" 0]); ("B", [sampleItem "1" "A" 0])].
Proof. reflexivity. Qed.

(** Claim C1, as stated, for every drop with a destination.  It fails for a
    destination index past the end of the destination lane: the card dropped
    on "doing" at index 5 comes to stand at index 1, behind the one card
    there.  It fails for a source index past the end of the source lane, as
    on the first drag of card "i1" of the board that starts from
    [sampleItems], where the card's order 7 is the source index: nothing is
    removed and the handler throws. *)
Lemma onDragEnd_index_counterexample :
  destination sampleDropPastEnd = Some {| droppableId := "doing"; index := 5 |}
  ∧ (arrangedItems <$> (fst <$> onDragEnd sampleBoard sampleDropPastEnd))
    = Some [("todo", [sampleItem "i1" "todo" 0]);
            ("doing", [sampleItem "i2" "doing" 0; sampleItem "i3" "todo" 1]);
            ("done", [sampleItem "i5" "done" 0; sampleItem "i6" "done" 1])]
  ∧ [sampleItem "i2" "doing" 0; sampleItem "i3" "todo" 1] !! 5%nat = None
  ∧ destination sampleFirstDrag = Some {| droppableId := "doing"; index := 0 |}
  ∧ initialBoard threeLanes sampleItems 0 = Some startedBoard
  ∧ obj_get (arrangedItems startedBoard) "todo"
    = Some [sampleItem "i3" "todo" 2; sampleItem "i1" "todo" 7]
  ∧ onDragEnd startedBoard sampleFirstDrag = None.
Proof. split_and!; reflexivity. Qed.

Lemma onDragEnd_moves_item_witness :
  ∃ m announcement,
    move_item (arrangedItems sampleBoard) "todo" 0 "doing" 1 = Some m
    ∧ cloneDeep m = m
    ∧ onDragEnd sampleBoard sampleDrop
      = Some ({| arrangedLanes := arrangedLanes sampleBoard;
                 arrangedItems := cloneDeep m;
                 addingLane := addingLane sampleBoard;
                 placeholderPosition := None;
                 idCounter := idCounter sampleBoard |}, [announcement])
    ∧ ranked (default [] (obj_get (cloneDeep m) "todo"))
    ∧ ranked (default [] (obj_get (cloneDeep m) "doing"))
    ∧ lane_item_keys (cloneDeep m) "doing" !! 1%nat = Some "i3"
    ∧ (NoDup (item_keys (arrangedItems sampleBoard)) →
       occurrences "i3" (item_keys (cloneDeep m)) = 1%nat
       ∧ ("todo" ≠ "doing" → "i3" ∉ lane_item_keys (cloneDeep m) "todo")).
Proof.
  apply (onDragEnd_moves_item sampleBoard sampleDrop
           {| droppableId := "doing"; index := 1 |} (sampleLane "Doing")
           [sampleItem "i3" "todo" 0; sampleItem "i1" "todo" 1]
           [sampleItem "i2" "doing" 0]
           (sampleItem "i3" "todo" 0) (sampleItem "i3" "todo" 0) 0
           eq_refl eq_refl eq_refl eq_refl eq_refl eq_refl eq_refl
           1 eq_refl).
  simpl. lia.
Defined.

(** The item keys of the sample board are distinct. *)
Example sampleBoard_item_keys : NoDup (item_keys (arrangedItems sampleBoard)).
Proof. apply (bool_decide_unpack _). by vm_compute. Qed.

Section DropOutcome.
Context {TTextObject CustomFields : Type}.
Implicit Types (st : BoardState TTextObject CustomFields) (ev : DropResult).
Implicit Types (d : DraggableLocation).

(** A well-formed drop is committed: the handler does not throw. *)
Lemma onDragEnd_well_formed st ev d :
  destination ev = Some d → well_formed_drop st ev d →
  is_Some (onDragEnd st ev).
Proof.
  intros Hdestination
    (src & i & Hsrc & [found Hfound] & Hindex & [moving Hmoving]
     & [boardLane Hlane] & [dst Hdst]).
  by rewrite (onDragEnd_commit st ev d boardLane src dst found moving i).
Qed.

(** Whatever drop the handler commits, the new items are the old ones with
    the source lane and then the destination lane given re-ranked
    sequences; both lanes were lanes of the items mapping. *)
Lemma onDragEnd_inv st ev d st' announcements :
  destination ev = Some d →
  onDragEnd st ev = Some (st', announcements) →
  ∃ l1 l2,
    arrangedItems st'
    = obj_set (obj_set (arrangedItems st) (droppableId (source ev))
                 (mapResetOrder l1))
        (droppableId d) (mapResetOrder l2)
    ∧ is_Some (obj_get (arrangedItems st) (droppableId (source ev)))
    ∧ is_Some (obj_get (arrangedItems st) (droppableId d)).
Proof.
  intros Hdestination. unfold onDragEnd. rewrite Hdestination.
  destruct (obj_get (arrangedItems st) (droppableId (source ev)))
    as [src|] eqn:Hsrc; [|done].
  cbn [mbind option_bind].
  destruct (find _ src) as [found|]; [|done]. cbn [mbind option_bind].
  destruct (obj_get (arrangedItems st) (droppableId d))
    as [dst|] eqn:Hdst; [|done].
  cbn [mbind option_bind].
  destruct (if decide (droppableId d = "") then _ else _) as [laneTitle|];
    [|done].
  cbn [mbind option_bind].
  destruct (splice src (index (source ev)) 1 []) as [movingItems sourceArr1].
  destruct (obj_get (obj_set _ _ _) (droppableId d)) as [destinationArr|];
    [|done].
  cbn [mbind option_bind].
  destruct (movingItems !! 0%nat) as [moving|]; [|done].
  cbn [mbind option_bind]. intros [= <- _]. cbn [arrangedItems].
  rewrite cloneDeep_id. eauto 6.
Qed.

(** A source index past the end of the source lane removes nothing, and the
    handler throws on the [undefined] it then tries to re-rank. *)
Lemma onDragEnd_source_past_end st ev d src :
  destination ev = Some d →
  obj_get (arrangedItems st) (droppableId (source ev)) = Some src →
  Z.of_nat (length src) ≤ index (source ev) →
  onDragEnd st ev = None.
Proof.
  intros Hdestination Hsrc Hindex. unfold onDragEnd.
  rewrite Hsrc, Hdestination. cbn [mbind option_bind].
  destruct (find _ src) as [found|]; [|done]. cbn [mbind option_bind].
  destruct (obj_get (arrangedItems st) (droppableId d)) as [dst|]; [|done].
  cbn [mbind option_bind].
  destruct (if decide (droppableId d = "") then _ else _) as [laneTitle|];
    [|done].
  cbn [mbind option_bind]. rewrite splice_remove_ge by done.
  by destruct (obj_get (obj_set _ _ _) (droppableId d)).
Qed.

(** Claim C2: after a drop commit, same-lane or cross-lane, the [order] of
    every item of the source lane and of the destination lane equals the
    item's index in the lane's resulting sequence; and a well-formed drop is
    committed. *)
Theorem onDragEnd_ranks st ev d :
  destination ev = Some d →
  (∀ st' announcements,
     onDragEnd st ev = Some (st', announcements) →
     ∀ k, k = droppableId (source ev) ∨ k = droppableId d →
       ∃ l, obj_get (arrangedItems st') k = Some l ∧ ranked l)
  ∧ (well_formed_drop st ev d → is_Some (onDragEnd st ev)).
Proof.
  intros Hdestination. split; [|by apply onDragEnd_well_formed].
  intros st' announcements Hrun k Hk.
  destruct (onDragEnd_inv _ _ _ _ _ Hdestination Hrun) as (l1 & l2 & -> & _).
  destruct (decide (k = droppableId d)) as [->|Hne].
  - eexists. split; [apply obj_get_set_eq | apply mapResetOrder_ranked].
  - destruct Hk as [-> | ->]; [|done].
    rewrite obj_get_set_ne by done. rewrite obj_get_set_eq.
    eexists. split; [done | apply mapResetOrder_ranked].
Qed.

(** Claim C9: a drop commit leaves every lane other than the source lane and
    the destination lane as it was: the same items, in the same order, with
    the same [order] fields; the lanes keep their keys; and a well-formed
    drop is committed. *)
Theorem onDragEnd_other_lanes st ev d :
  destination ev = Some d →
  (∀ st' announcements,
     onDragEnd st ev = Some (st', announcements) →
     obj_keys (arrangedItems st') = obj_keys (arrangedItems st)
     ∧ ∀ k, k ≠ droppableId (source ev) → k ≠ droppableId d →
         obj_get (arrangedItems st') k = obj_get (arrangedItems st) k)
  ∧ (well_formed_drop st ev d → is_Some (onDragEnd st ev)).
Proof.
  intros Hdestination. split; [|by apply onDragEnd_well_formed].
  intros st' announcements Hrun.
  destruct (onDragEnd_inv _ _ _ _ _ Hdestination Hrun)
    as (l1 & l2 & -> & Hsource & Hdest).
  split.
  - rewrite obj_keys_set_Some.
    + by rewrite obj_keys_set_Some.
    + destruct (decide (droppableId (source ev) = droppableId d)) as [<-|Hne].
      * by rewrite obj_get_set_eq.
      * by rewrite obj_get_set_ne.
  - intros k Hk1 Hk2. by rewrite !obj_get_set_ne.
Qed.

(** Claim C3: a drop with no destination leaves the board state as it was,
    every lane's sequence included, and nothing happens but one
    accessibility announcement, the one of a cancelled drag; the handler
    makes it whenever the dragged item is in its source lane. *)
Theorem onDragEnd_cancel st ev :
  destination ev = None →
  (∀ st' announcements,
     onDragEnd st ev = Some (st', announcements) →
     st' = st ∧ ∃ itemTitle, announcements = [OnDragCancelBoardItem itemTitle])
  ∧ (∀ src found,
       obj_get (arrangedItems st) (droppableId (source ev)) = Some src →
       find (λ boardItem, bool_decide (itemKey boardItem = draggableId ev)) src
       = Some found →
       onDragEnd st ev
       = Some (st, [OnDragCancelBoardItem (item_title (asBoardItem found))])).
Proof.
  intros Hdestination. unfold onDragEnd. rewrite Hdestination. split.
  - intros st' announcements.
    destruct (obj_get _ _) as [src|]; [|done]. cbn [mbind option_bind].
    destruct (find _ src) as [found|]; [|done]. cbn [mbind option_bind].
    intros [= <- <-]. eauto.
  - intros src found -> Hfound. cbn [mbind option_bind]. by rewrite Hfound.
Qed.

End DropOutcome.

Lemma sampleDrop_well_formed :
  well_formed_drop sampleBoard sampleDrop {| droppableId := "doing"; index := 1 |}.
Proof.
  exists [sampleItem "i3" "todo" 0; sampleItem "i1" "todo" 1], 0%nat.
  split_and!; by eauto.
Qed.

Lemma sampleReorder_well_formed :
  well_formed_drop sampleBoard sampleReorder {| droppableId := "done"; index := 1 |}.
Proof.
  exists [sampleItem "i5" "done" 0; sampleItem "i6" "done" 1], 0%nat.
  split_and!; by eauto.
Qed.

Lemma onDragEnd_ranks_witness :
  (∀ st' announcements,
     onDragEnd sampleBoard sampleReorder = Some (st', announcements) →
     ∀ k, k = "done" ∨ k = "done" →
       ∃ l, obj_get (arrangedItems st') k = Some l ∧ ranked l)
  ∧ is_Some (onDragEnd sampleBoard sampleReorder).
Proof.
  destruct (onDragEnd_ranks sampleBoard sampleReorder
              {| droppableId := "done"; index := 1 |} eq_refl)
    as [Hranked Hcommitted].
  split; [exact Hranked | exact (Hcommitted sampleReorder_well_formed)].
Defined.

Lemma onDragEnd_other_lanes_witness :
  (∀ st' announcements,
     onDragEnd sampleBoard sampleDrop = Some (st', announcements) →
     obj_keys (arrangedItems st') = obj_keys (arrangedItems sampleBoard)
     ∧ ∀ k, k ≠ "todo" → k ≠ "doing" →
         obj_get (arrangedItems st') k = obj_get (arrangedItems sampleBoard) k)
  ∧ is_Some (onDragEnd sampleBoard sampleDrop).
Proof.
  destruct (onDragEnd_other_lanes sampleBoard sampleDrop
              {| droppableId := "doing"; index := 1 |} eq_refl)
    as [Hframe Hcommitted].
  split; [exact Hframe | exact (Hcommitted sampleDrop_well_formed)].
Defined.

Lemma onDragEnd_cancel_witness :
  (∀ st' announcements,
     onDragEnd sampleBoard sampleCancel = Some (st', announcements) →
     st' = sampleBoard
     ∧ ∃ itemTitle, announcements = [OnDragCancelBoardItem itemTitle])
  ∧ onDragEnd sampleBoard sampleCancel
    = Some (sampleBoard, [OnDragCancelBoardItem "i3"]).
Proof.
  destruct (onDragEnd_cancel sampleBoard sampleCancel eq_refl)
    as [Hunchanged Hannounced].
  split; [exact Hunchanged |].
  exact (Hannounced [sampleItem "i3" "todo" 0; sampleItem "i1" "todo" 1]
           (sampleItem "i3" "todo" 0) eq_refl eq_refl).
Defined.

(** The sample runs themselves. *)
Example onDragEnd_sampleDrop :
  arrangedItems <$> (fst <$> onDragEnd sampleBoard sampleDrop)
  = Some [("todo", [sampleItem "i1" "todo" 0]);
          ("doing", [sampleItem "i2" "doing" 0; sampleItem "i3" "todo" 1]);
          ("done", [sampleItem "i5" "done" 0; sampleItem "i6" "done" 1])].
Proof. reflexivity. Qed.

Example onDragEnd_sampleReorder :
  arrangedItems <$> (fst <$> onDragEnd sampleBoard sampleReorder)
  = Some [("todo", [sampleItem "i3" "todo" 0; sampleItem "i1" "todo" 1]);
          ("doing", [sampleItem "i2" "doing" 0]);
          ("done", [sampleItem "i6" "done" 0; sampleItem "i5" "done" 1])].
Proof. reflexivity. Qed.

(** A destination index past the end of the lane puts the card last. *)
Example onDragEnd_index_past_end :
  arrangedItems
  <$> (fst <$> onDragEnd sampleBoard
                 {| draggableId := "i3"; reason := DROP;
                    source := {| droppableId := "todo"; index := 0 |};
                    destination := Some {| droppableId := "doing"; index := 5 |} |})
  = Some [("todo", [sampleItem "i1" "todo" 0]);
          ("doing", [sampleItem "i2" "doing" 0; sampleItem "i3" "todo" 1]);
          ("done", [sampleItem "i5" "done" 0; sampleItem "i6" "done" 1])].
Proof. reflexivity. Qed.

Example onDragEnd_sampleCancel :
  onDragEnd sampleBoard sampleCancel
  = Some (sampleBoard, [OnDragCancelBoardItem "i3"]).
Proof. reflexivity. Qed.

(** ** Sample runs of item preparation *)

Example prepareBoardItems_sample :
  prepareBoardItems sampleItems threeLanes
  = Some [("todo", [sampleItem "i3" "todo" 2; sampleItem "i1" "todo" 7]);
          ("doing", [sampleItem "i2" "doing" 0]);
          ("done", [])].
Proof. reflexivity. Qed.

(** Lanes under array indices come out in numeric order, whatever the
    order they were given in. *)
Example prepareBoardItems_numbered :
  obj_keys <$> prepareBoardItems sampleItems
                 [("todo", sampleLane "To do"); ("2", sampleLane "Two");
                  ("1", sampleLane "One")]
  = Some ["1"; "2"; "todo"].
Proof. by vm_compute. Qed.

Lemma prepareBoardItems_lane_hasOwnProperty_witness :
  prepareBoardItems shadowItems shadowLanes = None.
Proof.
  apply (prepareBoardItems_lane_hasOwnProperty shadowItems shadowLanes "i2"
           (asBoardItem (sampleItem "i2" "hasOwnProperty" 0))).
  - apply list_elem_of_lookup_2 with 1%nat. reflexivity.
  - reflexivity.
  - apply (bool_decide_unpack _). vm_compute. done.
Defined.

Lemma prepareBoardItems_unknown_lane_throws_witness :
  prepareBoardItems shadowItems threeLanes = None.
Proof.
  apply (prepareBoardItems_unknown_lane_throws shadowItems threeLanes "i2"
           (asBoardItem (sampleItem "i2" "hasOwnProperty" 0))).
  - apply list_elem_of_lookup_2 with 1%nat. reflexivity.
  - apply (bool_decide_unpack _). vm_compute. done.
  - discriminate.
  - reflexivity.
Defined.

Lemma prepareBoardItems_groups_witness :
  ∃ prepared,
    prepareBoardItems sampleItems threeLanes = Some prepared
    ∧ obj_keys prepared = ["todo"; "doing"; "done"]
    ∧ obj_get prepared "archive" = None.
Proof.
  destruct (prepareBoardItems_groups sampleItems threeLanes)
    as (prepared & Hrun & _ & _ & Hunknown & Hkeys).
  - apply (bool_decide_unpack _). vm_compute. done.
  - exists prepared. split; [exact Hrun |]. split.
    + apply Hkeys; apply (bool_decide_unpack _); vm_compute; done.
    + apply (Hunknown "i4" (asBoardItem (sampleItem "i4" "archive" 0))).
      * apply list_elem_of_lookup_2 with 3%nat. reflexivity.
      * apply (bool_decide_unpack _). vm_compute. done.
Defined.

(** ** The layout passes of a lane *)

(** Once the lane is visible and no listener is left, a render changes
    nothing of the layout. *)
Lemma layoutPass_settled (render : nat) (laneContent : option Element)
    (s : LaneLayout) :
  layoutState s = 2 → resizeListener s = None →
  layoutPass render laneContent s = s.
Proof.
  destruct s as [state width lane listener]. simpl. intros -> ->.
  by destruct render.
Qed.

Lemma layoutPasses_settled (render : nat) (measured : list (option Element))
    (s : LaneLayout) :
  layoutState s = 2 → resizeListener s = None →
  layoutPasses render measured s = s.
Proof.
  intros Hstate Hlistener. revert render.
  induction measured as [|laneContent measured IH]; intros render; [done |].
  cbn [layoutPasses]. by rewrite layoutPass_settled.
Qed.

(** The lane after its first three renders. *)
Lemma layoutPasses_mount (m0 m1 m2 : option Element)
    (rest : list (option Element)) :
  layoutPasses 0 (m0 :: m1 :: m2 :: rest) mountedLane
  = {| layoutState := 2;
       scrollbarWidth :=
         match m1, m2 with
         | Some withoutItems, Some withItems =>
             if clientWidth withoutItems =? 0 then 16
             else clientWidth withoutItems - clientWidth withItems
         | _, _ => 16
         end;
       laneContentWidth := clientWidth <$> m1;
       resizeListener := None |}.
Proof.
  cbn [layoutPasses]. rewrite layoutPasses_settled.
  - by destruct m1 as [[]|], m2 as [[]|].
  - by destruct m1 as [[]|], m2 as [[]|].
  - by destruct m1 as [[]|], m2 as [[]|].
Qed.

(** Property X1: a lane is drawn four times before its layout is settled.
    Render 0, the first, draws it as mounted, and the effect of each render
    sets the state that the next one draws. The lane is visible (opacity 1)
    exactly from render 3 on, its fourth render: the first three draw it
    transparent. A lane that has items draws them exactly from render 2 on,
    its third render. The effect of render 3 or a later one changes nothing,
    so the fourth render is the last that the layout asks for. *)
Theorem lane_visible_after_three_renders (measured : list (option Element))
    (n : nat) :
  (n ≤ length measured)%nat →
  (laneOpacity (drawnLayout measured n) = 1 ↔ (3 ≤ n)%nat)
  ∧ (∀ A (preparedItems : list A), preparedItems ≠ [] →
       rendersItems (drawnLayout measured n) (Some preparedItems) = true
       ↔ (2 ≤ n)%nat)
  ∧ ((3 ≤ n)%nat →
     ∀ laneContent,
       layoutPass n laneContent (drawnLayout measured n)
       = drawnLayout measured n).
Proof.
  intros Hn. unfold drawnLayout.
  assert (length (take n measured) = n) as Hlen by (rewrite length_take; lia).
  destruct (take n measured) as [|m0 [|m1 [|m2 rest]]]; cbn [length] in Hlen;
    subst n.
  - split_and!; [split; [done | lia] | | lia].
    intros A l _. split; [done | lia].
  - split_and!; [split; [done | lia] | | lia].
    intros A l _. split; [done | lia].
  - split_and!; [split; [by destruct m1 as [[]|] | lia] | | lia].
    intros A [|x l] Hl; [done |]. split; [lia |]. intros _.
    by destruct m1 as [[]|].
  - rewrite layoutPasses_mount. split_and!.
    + split; [lia | done].
    + intros A [|x l] Hl; [done |]. split; [lia | done].
    + intros _ laneContent. by apply layoutPass_settled.
Qed.

(** Property X2: once a lane has gone through its three layout renders, its
    scrollbar width is the width of the content box measured without the items
    minus the width measured with them; it stays at the initial 16 when the
    content box is missing in either of the two renders or its first width is
    0. Later renders do not change it. *)
Theorem lane_scrollbarWidth_measured (m0 m1 m2 : option Element)
    (rest : list (option Element)) :
  scrollbarWidth (layoutPasses 0 (m0 :: m1 :: m2 :: rest) mountedLane)
  = match m1, m2 with
    | Some withoutItems, Some withItems =>
        if clientWidth withoutItems =? 0 then 16
        else clientWidth withoutItems - clientWidth withItems
    | _, _ => 16
    end.
Proof. by rewrite layoutPasses_mount. Qed.

(** Property X3: the resize listener that a lane registers in its first render
    is removed by the clean-up that runs before the effect of the second
    render, and no later render registers one: after two or more renders no
    [onResize] of the lane is registered for the window's resize event. *)
Theorem lane_resize_listener_removed (measured : list (option Element)) :
  resizeListener (layoutPasses 0 measured mountedLane)
  = if decide (length measured = 1%nat) then Some 0%nat else None.
Proof.
  destruct measured as [|m0 [|m1 [|m2 rest]]]; [done | done | |].
  - by destruct m1 as [[]|].
  - by rewrite layoutPasses_mount.
Qed.

(** Property X4: a relayout requested by [onResize] takes three renders. The
    first draws the state that [onResize] has set, the second the state that
    the effect of the first has left, the third the state that the effect of
    the second has left: the lane is transparent in the first two and visible
    again in the third, and shows its items from the second on. The scrollbar
    width then comes from the two new measurements; the lane width of the
    earlier layout is used when the content box is missing in the first of
    these renders, and the earlier scrollbar width is kept when no width is
    known, the width is 0, or the content box is missing in the second. *)
Theorem lane_relayout_after_resize (render : nat) (m1 m2 : option Element)
    (s : LaneLayout) :
  let first := onResize s in
  let second := layoutPass render m1 first in
  let third := layoutPass (S render) m2 second in
  let width :=
    match m1 with
    | Some withoutItems => Some (clientWidth withoutItems)
    | None => laneContentWidth s
    end in
  laneOpacity first = 0 ∧ layoutState first = 0
  ∧ laneOpacity second = 0 ∧ layoutState second = 1
  ∧ laneOpacity third = 1 ∧ layoutState third = 2
  ∧ third = layoutPasses render [m1; m2] first
  ∧ laneContentWidth third = width
  ∧ scrollbarWidth third
    = match m2, width with
      | Some withItems, Some w =>
          if w =? 0 then scrollbarWidth s else w - clientWidth withItems
      | _, _ => scrollbarWidth s
      end.
Proof.
  destruct s as [state sw lane listener].
  destruct render as [|render], m1 as [[]|], m2 as [[]|], lane as [w|];
    cbn; try done; split_and!; try done; by destruct (_ =? 0).
Qed.

(** ** Deleting a lane *)

Section Omit.
Context {V : Type}.
Implicit Types (o : obj V) (k : string).

Lemma omit_keys o k : obj_keys (omit o k) = filter (λ k', k' ≠ k) (obj_keys o).
Proof.
  unfold omit. induction o as [|[k' v] o IH]; [done |].
  rewrite obj_keys_cons. destruct (decide (k' = k)) as [->|Hne].
  - rewrite (filter_cons_False _ (k, v)) by naive_solver.
    by rewrite filter_cons_False by naive_solver.
  - rewrite (filter_cons_True _ (k', v)) by done.
    rewrite (filter_cons_True _ k') by done.
    rewrite obj_keys_cons. f_equal. exact IH.
Qed.





End Omit.

Section DeleteLane.
Context {TTextObject CustomFields : Type}.
Implicit Types (st : BoardState TTextObject CustomFields).


Lemma renderedItems_not_disabled st (laneKey : string) (s : LaneLayout) :
  deleteLaneDisabled st laneKey = false →
  renderedItems s (obj_get (arrangedItems st) laneKey) = [].
Proof.
  unfold deleteLaneDisabled, renderedItems, rendersItems.
  destruct (obj_get (arrangedItems st) laneKey) as [[|item l]|]; [| done |].
  - by destruct (0 <? layoutState s).
  - by rewrite andb_false_r.
Qed.

(** Property X6: the delete entry of a lane's menu is enabled only for a lane
    without items, so deleting a lane from its menu takes no card off the
    board: the cards on display are the same before and after, lane for lane,
    whatever the lanes' layout states. *)
Theorem deleteLane_enabled_keeps_cards st (laneKey : string)
    (layout : string → LaneLayout) :
  laneKey ∈ obj_keys (arrangedLanes st) →
  deleteLaneDisabled st laneKey = false →
  boardCards (deleteLane st laneKey) layout = boardCards st layout.
Proof.
  intros _ Henabled. unfold boardCards.
  cbn [deleteLane arrangedLanes arrangedItems]. rewrite omit_keys.
  induction (obj_keys (arrangedLanes st)) as [|k keys IH]; [done |].
  destruct (decide (k = laneKey)) as [->|Hne].
  - rewrite filter_cons_False by naive_solver. rewrite fmap_cons, concat_cons.
    by rewrite renderedItems_not_disabled.
  - rewrite filter_cons_True by done. by rewrite !fmap_cons, !concat_cons, IH.
Qed.

End DeleteLane.

(** ** Adding lanes, one after the other and over an existing key *)

Section AddLane.
Context {TTextObject CustomFields : Type}.
Context (textOfString : string → TTextObject).
Implicit Types (st : BoardState TTextObject CustomFields) (value : string).

Local Abbreviation newLaneKey st := ((uniqueId "sl" (idCounter st)).1).

(** Property X7: when the key that [uniqueId] generates is already the key of
    a lane, submitting a name adds no lane: the lane under that key gets the
    name as its title and keeps its place, the other lanes stay as they are,
    and the lane's item sequence is replaced by the empty one. *)
Theorem exitPendingLane_existing_key st value :
  value ≠ "" →
  newLaneKey st ∈ obj_keys (arrangedLanes st) →
  let st' := exitPendingLane textOfString st value in
  obj_keys (arrangedLanes st') = obj_keys (arrangedLanes st)
  ∧ obj_get (arrangedLanes st') (newLaneKey st)
    = Some {| title := textOfString value |}
  ∧ (∀ k, k ≠ newLaneKey st →
       obj_get (arrangedLanes st') k = obj_get (arrangedLanes st) k
       ∧ obj_get (arrangedItems st') k = obj_get (arrangedItems st) k)
  ∧ obj_get (arrangedItems st') (newLaneKey st) = Some [].
Proof.
  intros Hvalue Hin. cbv zeta. rewrite exitPendingLane_nonempty by done.
  cbn [arrangedLanes arrangedItems]. split_and!.
  - apply obj_keys_set_Some. by apply obj_get_is_Some.
  - apply obj_get_set_eq.
  - intros k Hk. by rewrite !obj_get_set_ne.
  - apply obj_get_set_eq.
Qed.

(** Renders while a lane is being added change the key counter only. *)
Lemma renderBoard_iter st (n : nat) :
  addingLane st = true →
  Nat.iter n renderBoard st
  = {| arrangedLanes := arrangedLanes st;
       arrangedItems := arrangedItems st;
       addingLane := true;
       placeholderPosition := placeholderPosition st;
       idCounter := (n + idCounter st)%nat |}.
Proof.
  intros Hadding. induction n as [|n IH]; simpl.
  - destruct st; simpl in *; by subst.
  - rewrite IH. reflexivity.
Qed.

(** Property X8: two names submitted one after the other, with the toolbar's
    [add_column] and any number of renders in between, add two lanes under
    different keys, in the order of submission, after the lanes the board had,
    on a board none of whose lanes has one of the two generated keys. *)
Theorem exitPendingLane_twice st (value1 value2 : string) (renders : nat) :
  value1 ≠ "" → value2 ≠ "" →
  let st1 := exitPendingLane textOfString st value1 in
  let st1' := Nat.iter renders renderBoard (add_column st1) in
  let st2 := exitPendingLane textOfString st1' value2 in
  newLaneKey st ∉ obj_keys (arrangedLanes st) →
  newLaneKey st1' ∉ obj_keys (arrangedLanes st) →
  newLaneKey st ≠ newLaneKey st1'
  ∧ arrangedLanes st2
    = arrangedLanes st
      ++ [(newLaneKey st, {| title := textOfString value1 |});
          (newLaneKey st1', {| title := textOfString value2 |})]
  ∧ obj_get (arrangedItems st2) (newLaneKey st) = Some []
  ∧ obj_get (arrangedItems st2) (newLaneKey st1') = Some []
  ∧ addingLane st2 = false.
Proof.
  intros Hvalue1 Hvalue2. cbv zeta.
  rewrite (exitPendingLane_nonempty _ st value1) by done.
  rewrite renderBoard_iter by done.
  rewrite exitPendingLane_nonempty by done.
  cbn [arrangedLanes arrangedItems addingLane idCounter add_column
       placeholderPosition].
  intros Hfresh1 Hfresh2.
  assert (newLaneKey st
          ≠ (uniqueId "sl" (renders + S (idCounter st))).1) as Hne.
  { intros Heq%uniqueId_inj. lia. }
  split_and!; [done | | | apply obj_get_set_eq | done].
  - rewrite (obj_set_None (arrangedLanes st)) by (by apply obj_get_None).
    rewrite obj_set_None; [by rewrite <- app_assoc |].
    apply obj_get_None. rewrite obj_keys_app, elem_of_app.
    intros [Hin|Hin]; [done |].
    apply list_elem_of_singleton in Hin. done.
  - rewrite obj_get_set_ne by done. apply obj_get_set_eq.
Qed.


End AddLane.

(** ** Deleting an item *)

Section FindIndex.
Context {A : Type}.
Implicit Types (p : A → bool) (l : list A) (x : A).

Lemma findIndex_from_lookup p l x (i : nat) (b : Z) :
  l !! i = Some x → p x = true → (∀ y, y ∈ take i l → p y = false) →
  findIndex_from p l b = b + Z.of_nat i.
Proof.
  revert i b. induction l as [|y l IH]; intros [|i] b; simpl; try done.
  - intros [= ->] -> _. lia.
  - intros Hi Hx Hbefore. rewrite (Hbefore y) by left.
    rewrite (IH i) by (try done; intros z Hz; apply Hbefore; by right). lia.
Qed.

Lemma findIndex_from_absent p l (b : Z) :
  (∀ y, y ∈ l → p y = false) → findIndex_from p l b = -1.
Proof.
  revert b. induction l as [|y l IH]; intros b Hall; simpl; [done |].
  rewrite (Hall y) by left. apply IH. intros z Hz. apply Hall. by right.
Qed.

Lemma find_findIndex_from p l x (b : Z) :
  find p l = Some x →
  ∃ i : nat, findIndex_from p l b = b + Z.of_nat i ∧ l !! i = Some x
             ∧ p x = true ∧ ∀ y, y ∈ take i l → p y = false.
Proof.
  revert b. induction l as [|y l IH]; intros b; simpl; [done |].
  destruct (p y) eqn:Hy.
  - intros [= ->]. exists 0%nat. split_and!; [lia | done | done |].
    intros z Hz. by apply elem_of_nil in Hz.
  - intros Hfind. destruct (IH (b + 1) Hfind) as (i & Hi & Hx & Hpx & Hbefore).
    exists (S i). split_and!; [lia | done | done |].
    simpl. intros z [->|Hz]%elem_of_cons; [done | by apply Hbefore].
Qed.

(** [find] returns the element at the position that [findIndex] returns. *)
Lemma find_findIndex p l x :
  find p l = Some x →
  ∃ i : nat, findIndex p l = Z.of_nat i ∧ l !! i = Some x ∧ p x = true
             ∧ ∀ y, y ∈ take i l → p y = false.
Proof.
  intros Hfind.
  destruct (find_findIndex_from p l x 0 Hfind) as (i & Hi & Hrest).
  exists i. split; [unfold findIndex; lia | done].
Qed.

Lemma find_None p l : find p l = None ↔ ∀ y, y ∈ l → p y = false.
Proof.
  induction l as [|y l IH]; simpl.
  - split; [intros _ z Hz; by apply elem_of_nil in Hz | done].
  - destruct (p y) eqn:Hy.
    + split; [done |]. intros Hall. rewrite (Hall y) in Hy by left. done.
    + rewrite IH. split.
      * intros Hall z [->|Hz]%elem_of_cons; [done | by apply Hall].
      * intros Hall z Hz. apply Hall. by right.
Qed.

(** Removing one element at [-1]: the last one goes, if there is any. *)
Lemma splice_remove_last l :
  (splice l (-1) 1 []).2 = take (length l - 1) l.
Proof.
  destruct l as [|x l _] using rev_ind; [done |].
  rewrite splice_remove_minus_one, length_app. simpl.
  replace (length l + 1 - 1)%nat with (length l) by lia.
  by rewrite take_app_length.
Qed.

End FindIndex.

Section DeleteItem.
Context {TTextObject CustomFields : Type}.
Implicit Types (st : BoardState TTextObject CustomFields).
Implicit Types (boardItem item : IPreparedBoardItem TTextObject CustomFields).
Implicit Types (l : list (IPreparedBoardItem TTextObject CustomFields)).

Local Abbreviation hasKey boardItem :=
  (λ laneItem : IPreparedBoardItem TTextObject CustomFields,
     bool_decide (itemKey laneItem = itemKey boardItem)).

(** The position that [findIndex] gives the item's key in a lane. *)
Lemma findIndex_itemKey boardItem l :
  (∃ (i : nat) item,
     findIndex (hasKey boardItem) l = Z.of_nat i ∧ l !! i = Some item
     ∧ itemKey item = itemKey boardItem)
  ∨ (findIndex (hasKey boardItem) l = -1
     ∧ itemKey boardItem ∉ itemKey <$> l).
Proof.
  destruct (find (hasKey boardItem) l) as [item|] eqn:Hfind.
  - left. apply find_findIndex in Hfind as (i & Hi & Hitem & Hkey & _).
    exists i, item. split_and!; [done | done |]. by apply bool_decide_eq_true in Hkey.
  - right. pose proof (proj1 (find_None _ _) Hfind) as Hall. split.
    + apply findIndex_from_absent, Hall.
    + intros (item & Hkey & Hitem)%list_elem_of_fmap.
      specialize (Hall item Hitem). by apply bool_decide_eq_false in Hall.
Qed.

Lemma findIndex_itemKey_NoDup boardItem l (i : nat) item :
  NoDup (itemKey <$> l) → l !! i = Some item →
  itemKey item = itemKey boardItem →
  findIndex (hasKey boardItem) l = Z.of_nat i.
Proof.
  intros Hnd Hi Hkey. unfold findIndex.
  rewrite (findIndex_from_lookup _ l item i); [lia | done | |].
  - by apply bool_decide_eq_true.
  - intros y Hy. apply bool_decide_eq_false. intros Hy'.
    apply list_elem_of_lookup in Hy as [j Hj].
    pose proof (lookup_lt_Some _ _ _ Hj) as Hlt. rewrite length_take in Hlt.
    rewrite lookup_take_lt in Hj by lia.
    assert (i = j); [|lia].
    eapply (NoDup_lookup _ _ _ _ Hnd); rewrite list_lookup_fmap.
    + by rewrite Hi.
    + rewrite Hj. simpl. congruence.
Qed.

(** Property X10: confirming the deletion of a card that stands in the lane
    named by its [lane] field, where item keys are distinct, removes that card
    from the lane's sequence and nothing else: the other cards of the lane
    keep their order, the other lanes their sequences, and the lanes are as
    they were. *)
Theorem deleteItem_removes_card st boardItem l (i : nat) item :
  obj_get (arrangedItems st) (lane (asBoardItem boardItem)) = Some l →
  NoDup (itemKey <$> l) → l !! i = Some item →
  itemKey item = itemKey boardItem →
  ∃ st',
    deleteItem st boardItem = Some st'
    ∧ arrangedLanes st' = arrangedLanes st
    ∧ obj_get (arrangedItems st') (lane (asBoardItem boardItem))
      = Some (delete i l)
    ∧ (itemKey boardItem ∉ itemKey <$> delete i l)
    ∧ ∀ k, k ≠ lane (asBoardItem boardItem) →
        obj_get (arrangedItems st') k = obj_get (arrangedItems st) k.
Proof.
  intros Hl Hnd Hi Hkey. unfold deleteItem. rewrite Hl.
  cbn [mbind option_bind].
  rewrite (findIndex_itemKey_NoDup boardItem l i item) by done.
  rewrite (splice_remove _ _ _ Hi). cbn [snd]. rewrite cloneDeep_id.
  eexists. split; [done |]. cbn [arrangedLanes arrangedItems].
  split_and!; [done | apply obj_get_set_eq | |].
  - rewrite <- Hkey, list_fmap_delete. apply NoDup_delete_lookup; [done |].
    by rewrite list_lookup_fmap, Hi.
  - intros k Hk. by rewrite obj_get_set_ne.
Qed.

(** Property X11: the deletion of a card does not re-rank its lane. In a lane
    whose orders were the positions, every card behind the deleted one has an
    order one more than its position afterwards, so the orders are the
    positions again only if the deleted card was the last one. *)
Theorem deleteItem_keeps_orders st boardItem l (i : nat) item :
  obj_get (arrangedItems st) (lane (asBoardItem boardItem)) = Some l →
  NoDup (itemKey <$> l) → l !! i = Some item →
  itemKey item = itemKey boardItem →
  ranked l →
  ∃ st' l',
    deleteItem st boardItem = Some st'
    ∧ obj_get (arrangedItems st') (lane (asBoardItem boardItem)) = Some l'
    ∧ (∀ (n : nat) item',
         l' !! n = Some item' →
         order (asBoardItem item')
         = if decide (n < i)%nat then Z.of_nat n else Z.of_nat n + 1)
    ∧ (ranked l' ↔ S i = length l).
Proof.
  intros Hl Hnd Hi Hkey Hranked. unfold deleteItem. rewrite Hl.
  cbn [mbind option_bind].
  rewrite (findIndex_itemKey_NoDup boardItem l i item) by done.
  rewrite (splice_remove _ _ _ Hi). cbn [snd]. rewrite cloneDeep_id.
  eexists _, (delete i l). split; [done |]. cbn [arrangedItems].
  split; [apply obj_get_set_eq |].
  assert (∀ (n : nat) item',
            delete i l !! n = Some item' →
            order (asBoardItem item')
            = if decide (n < i)%nat then Z.of_nat n else Z.of_nat n + 1)
    as Horders.
  { intros n item'. case_decide as Hn.
    - rewrite list_lookup_delete_lt by done. apply Hranked.
    - rewrite list_lookup_delete_ge by lia. intros Hn'%Hranked. lia. }
  split; [exact Horders |].
  pose proof (lookup_lt_Some _ _ _ Hi) as Hlt. split.
  - intros Hranked'. destruct (decide (S i = length l)) as [|Hne]; [done |].
    destruct (lookup_lt_is_Some_2 (delete i l) i) as [item' Hitem'].
    { rewrite length_delete by eauto. lia. }
    pose proof (Hranked' _ _ Hitem') as Hrank.
    rewrite (Horders _ _ Hitem') in Hrank.
    rewrite decide_False in Hrank by lia. lia.
  - intros Hlast n item' Hn. rewrite (Horders _ _ Hn).
    apply lookup_lt_Some in Hn. rewrite length_delete in Hn by eauto.
    rewrite decide_True by lia. done.
Qed.

(** Property X12: when the lane named by the card's [lane] field has no card
    with the card's key, [findIndex] gives [-1] and [splice] removes from the
    end: the last card of that lane is deleted, if the lane has one. *)
Theorem deleteItem_key_absent st boardItem l :
  obj_get (arrangedItems st) (lane (asBoardItem boardItem)) = Some l →
  itemKey boardItem ∉ itemKey <$> l →
  deleteItem st boardItem
  = Some {| arrangedLanes := arrangedLanes st;
            arrangedItems :=
              obj_set (arrangedItems st) (lane (asBoardItem boardItem))
                (take (length l - 1) l);
            addingLane := addingLane st;
            placeholderPosition := placeholderPosition st;
            idCounter := idCounter st |}.
Proof.
  intros Hl Habsent. unfold deleteItem. rewrite Hl. cbn [mbind option_bind].
  destruct (findIndex_itemKey boardItem l)
    as [(i & item & _ & Hi & Hkey)|[-> _]].
  - exfalso. apply Habsent. apply list_elem_of_fmap. exists item.
    split; [done | by eapply list_elem_of_lookup_2].
  - by rewrite splice_remove_last, cloneDeep_id.
Qed.

(** Property X13: a confirmed deletion throws exactly when the arranged items
    have no lane under the card's [lane] field. Otherwise it takes exactly one
    card out of that lane, if the lane has any, whether or not the card is
    there; the remaining cards stay in their order; and lanes, lane keys of
    the items, the other lanes' sequences and the adding-lane flag are as
    before. *)
Theorem deleteItem_removes_one st boardItem :
  (deleteItem st boardItem = None
   ↔ obj_get (arrangedItems st) (lane (asBoardItem boardItem)) = None)
  ∧ ∀ st',
      deleteItem st boardItem = Some st' →
      arrangedLanes st' = arrangedLanes st
      ∧ addingLane st' = addingLane st
      ∧ obj_keys (arrangedItems st') = obj_keys (arrangedItems st)
      ∧ (∀ k, k ≠ lane (asBoardItem boardItem) →
           obj_get (arrangedItems st') k = obj_get (arrangedItems st) k)
      ∧ ∃ l l',
          obj_get (arrangedItems st) (lane (asBoardItem boardItem)) = Some l
          ∧ obj_get (arrangedItems st') (lane (asBoardItem boardItem))
            = Some l'
          ∧ l' `sublist_of` l
          ∧ length l' = (length l - 1)%nat.
Proof.
  unfold deleteItem.
  destruct (obj_get (arrangedItems st) (lane (asBoardItem boardItem)))
    as [l|] eqn:Hl; cbn [mbind option_bind]; [|done].
  split; [done |].
  assert (∃ l', (splice l (findIndex (hasKey boardItem) l) 1 []).2 = l'
                ∧ l' `sublist_of` l ∧ length l' = (length l - 1)%nat)
    as (l' & -> & Hsub & Hlen).
  { destruct (findIndex_itemKey boardItem l)
      as [(i & item & -> & Hi & _)|[-> _]].
    - rewrite (splice_remove _ _ _ Hi). cbn [snd]. eexists. split; [done |].
      split; [apply sublist_delete |]. rewrite length_delete by eauto. done.
    - rewrite splice_remove_last. eexists. split; [done |].
      split; [apply sublist_take |]. rewrite length_take. lia. }
  intros st' [= <-]. cbn [arrangedLanes arrangedItems addingLane].
  rewrite cloneDeep_id.
  split_and!; [done | done | apply obj_keys_set_Some; by rewrite Hl | |].
  - intros k Hk. by rewrite obj_get_set_ne.
  - exists l, l'. split_and!; [done | apply obj_get_set_eq | done | done].
Qed.

End DeleteItem.

(** ** Every drop that the handler commits *)

(** When [splice] removed an element, the position it removed it from. *)
Lemma splice_remove_inv {A} (l : list A) (start : Z) (x : A) :
  (splice l start 1 []).1 !! 0%nat = Some x →
  ∃ i : nat,
    Z.of_nat i = relative_index (Z.of_nat (length l)) start
    ∧ l !! i = Some x
    ∧ splice l start 1 [] = ([x], delete i l).
Proof.
  intros Hremoved.
  exists (Z.to_nat (relative_index (Z.of_nat (length l)) start)).
  assert (0 ≤ relative_index (Z.of_nat (length l)) start ≤ Z.of_nat (length l))
    as Hrange by solve_clamp.
  set (i := Z.to_nat (relative_index (Z.of_nat (length l)) start)) in *.
  assert (relative_index (Z.of_nat (length l)) start = Z.of_nat i) as Hi
    by lia.
  destruct (decide (i < length l)%nat) as [Hlt|Hge].
  - destruct (lookup_lt_is_Some_2 l i Hlt) as [y Hy].
    rewrite (splice_clamped l start 1 [] i 1) in Hremoved |- * by lia.
    rewrite (drop_S _ _ _ Hy) in Hremoved |- *. simpl in Hremoved.
    injection Hremoved as ->. simpl. rewrite take_0.
    split_and!; [lia | done |]. by rewrite delete_take_drop, Nat.add_1_r.
  - rewrite (splice_clamped l start 1 [] i 0) in Hremoved by lia. done.
Qed.

Section DropGeneral.
Context {TTextObject CustomFields : Type}.
Implicit Types (st : BoardState TTextObject CustomFields) (ev : DropResult).
Implicit Types (d : DraggableLocation).
Implicit Types (item : IPreparedBoardItem TTextObject CustomFields).
Implicit Types (l : list (IPreparedBoardItem TTextObject CustomFields)).

Local Abbreviation dragged ev :=
  (λ boardItem : IPreparedBoardItem TTextObject CustomFields,
     bool_decide (itemKey boardItem = draggableId ev)).

(** What a committed drop was given and what it leaves: the card that is
    moved is the one at the source index, counted from the end when the
    index is negative. *)
Lemma onDragEnd_commit_inv st ev d st' announcements :
  destination ev = Some d →
  onDragEnd st ev = Some (st', announcements) →
  ∃ src dst found moving (i : nat),
    obj_get (arrangedItems st) (droppableId (source ev)) = Some src
    ∧ find (dragged ev) src = Some found
    ∧ obj_get (arrangedItems st) (droppableId d) = Some dst
    ∧ (droppableId d = "" ∨ is_Some (obj_get (arrangedLanes st) (droppableId d)))
    ∧ Z.of_nat i
      = relative_index (Z.of_nat (length src)) (index (source ev))
    ∧ src !! i = Some moving
    ∧ st'
      = {| arrangedLanes := arrangedLanes st;
           arrangedItems :=
             obj_set
               (obj_set (arrangedItems st) (droppableId (source ev))
                  (mapResetOrder (delete i src)))
               (droppableId d)
               (mapResetOrder
                  (splice
                     (if decide (droppableId (source ev) = droppableId d)
                      then mapResetOrder (delete i src) else dst)
                     (index d) 0 [moving]).2);
           addingLane := addingLane st;
           placeholderPosition := None;
           idCounter := idCounter st |}
    ∧ ∃ laneTitle,
        announcements
        = [OnDragEndBoardItem (item_title (asBoardItem found))
             (Z.max 1 (index d + 1)) (length dst) laneTitle].
Proof.
  intros Hdestination. unfold onDragEnd. rewrite Hdestination.
  destruct (obj_get (arrangedItems st) (droppableId (source ev)))
    as [src|] eqn:Hsrc; [|done].
  cbn [mbind option_bind].
  destruct (find _ src) as [found|] eqn:Hfound; [|done].
  cbn [mbind option_bind].
  destruct (obj_get (arrangedItems st) (droppableId d))
    as [dst|] eqn:Hdst; [|done].
  cbn [mbind option_bind].
  assert (droppableId d = "" ∨ is_Some (obj_get (arrangedLanes st) (droppableId d))
          ∨ (if decide (droppableId d = "") then Some None
             else obj_get (arrangedLanes st) (droppableId d)
                    ≫= λ boardLane, Some (Some (title boardLane)))
            = (None : option (option TTextObject))) as Hlane.
  { destruct (decide (droppableId d = "")); [by left |].
    destruct (obj_get (arrangedLanes st) (droppableId d)); eauto. }
  destruct (if decide (droppableId d = "") then _ else _) as [laneTitle|];
    [|done].
  cbn [mbind option_bind].
  destruct (splice src (index (source ev)) 1 []) as [movingItems sourceArr1]
    eqn:Hsplice.
  destruct (movingItems !! 0%nat) as [moving|] eqn:Hmoving.
  - pose proof (splice_remove_inv src (index (source ev)) moving) as Hinv.
    rewrite Hsplice in Hinv. destruct (Hinv Hmoving) as (i & Hi & Hlookup & Heq).
    injection Heq as -> ->.
    rewrite (destination_after_removal st ev d src dst i Hdst).
    cbn [mbind option_bind]. intros [= <- <-]. rewrite cloneDeep_id.
    exists src, dst, found, moving, i.
    split_and!; try done; [|by eexists].
    destruct Hlane as [?|[?|?]]; [by left | by right | done].
  - by destruct (obj_get (obj_set _ _ _) (droppableId d)).
Qed.

(** Property X14: whatever the event, a drop that the handler does not throw
    on neither loses nor duplicates a card and creates no lane: the item keys
    on the board after it are those before it, each as often, the arranged
    items have the same lane keys in the same order, and lanes, adding-lane
    flag and key counter are untouched. Exactly one announcement is made. *)
Theorem onDragEnd_conserves_cards st ev st' announcements :
  onDragEnd st ev = Some (st', announcements) →
  item_keys (arrangedItems st') ≡ₚ item_keys (arrangedItems st)
  ∧ obj_keys (arrangedItems st') = obj_keys (arrangedItems st)
  ∧ arrangedLanes st' = arrangedLanes st
  ∧ addingLane st' = addingLane st
  ∧ idCounter st' = idCounter st
  ∧ length announcements = 1%nat.
Proof.
  intros Hrun. destruct (destination ev) as [d|] eqn:Hdestination.
  - destruct (onDragEnd_commit_inv _ _ _ _ _ Hdestination Hrun)
      as (src & dst & found & moving & i & Hsrc & _ & Hdst & _ & _ & Hmoving
          & -> & laneTitle & ->).
    cbn [arrangedItems arrangedLanes addingLane idCounter].
    split_and!; try done.
    + apply (commit_item_keys st ev d src dst moving i Hsrc Hdst Hmoving).
      apply splice_insert_Permutation.
    + apply (commit_keys st ev d src dst Hsrc Hdst).
  - unfold onDragEnd in Hrun. rewrite Hdestination in Hrun.
    destruct (obj_get _ _) as [src|]; [|done]. cbn [mbind option_bind] in Hrun.
    destruct (find _ src) as [found|]; [|done].
    cbn [mbind option_bind] in Hrun. by injection Hrun as <- <-.
Qed.

End DropGeneral.

(** Inserting one element, wherever [splice] is asked to. *)
Lemma splice_insert_clamped {A} (l : list A) (start : Z) (x : A) :
  (splice l start 0 [x]).2
  = insert_at (Z.to_nat (relative_index (Z.of_nat (length l)) start)) x l.
Proof.
  assert (0 ≤ relative_index (Z.of_nat (length l)) start ≤ Z.of_nat (length l))
    as Hrange by solve_clamp.
  rewrite (splice_clamped l start 0 [x]
             (Z.to_nat (relative_index (Z.of_nat (length l)) start)) 0) by lia.
  by rewrite Nat.add_0_r.
Qed.

(** Removing one element, wherever [splice] is asked to. *)
Lemma splice_remove_clamped {A} (l : list A) (start : Z) (i : nat) (x : A) :
  Z.of_nat i = relative_index (Z.of_nat (length l)) start →
  l !! i = Some x →
  splice l start 1 [] = ([x], delete i l).
Proof.
  intros Hi Hx. pose proof (lookup_lt_Some _ _ _ Hx) as Hlt.
  rewrite (splice_clamped l start 1 [] i 1) by lia.
  rewrite (drop_S _ _ _ Hx). simpl. rewrite take_0.
  by rewrite delete_take_drop, Nat.add_1_r.
Qed.

Section DropAnywhere.
Context {TTextObject CustomFields : Type}.
Implicit Types (item : IPreparedBoardItem TTextObject CustomFields).
Implicit Types (l : list (IPreparedBoardItem TTextObject CustomFields)).

(** A drop of the card [moving], which the source index designates in the
    source lane [src], onto a lane whose sequence is [dst]; the indices are
    any integers. *)
Variables (st : BoardState TTextObject CustomFields) (ev : DropResult).
Variables (d : DraggableLocation).
Variables (src dst : list (IPreparedBoardItem TTextObject CustomFields)).
Variables (found moving : IPreparedBoardItem TTextObject CustomFields) (i : nat).

Hypothesis Hdestination : destination ev = Some d.
Hypothesis Hsrc :
  obj_get (arrangedItems st) (droppableId (source ev)) = Some src.
Hypothesis Hfound :
  find (λ boardItem, bool_decide (itemKey boardItem = draggableId ev)) src
  = Some found.
Hypothesis Hlane :
  droppableId d = "" ∨ is_Some (obj_get (arrangedLanes st) (droppableId d)).
Hypothesis Hdst : obj_get (arrangedItems st) (droppableId d) = Some dst.
Hypothesis Hindex :
  Z.of_nat i = relative_index (Z.of_nat (length src)) (index (source ev)).
Hypothesis Hmoving : src !! i = Some moving.

Local Abbreviation sourceLaneKey := (droppableId (source ev)).
Local Abbreviation destinationLaneKey := (droppableId d).

(** The destination sequence before the insertion, and the position at
    which [splice] inserts. *)
Local Abbreviation dst1 :=
  (if decide (sourceLaneKey = destinationLaneKey)
   then mapResetOrder (delete i src) else dst).

Local Abbreviation landing :=
  (Z.to_nat (relative_index (Z.of_nat (length dst1)) (index d))).

Lemma onDragEnd_commit_anywhere :
  ∃ laneTitle,
    onDragEnd st ev
    = Some ({| arrangedLanes := arrangedLanes st;
               arrangedItems :=
                 obj_set
                   (obj_set (arrangedItems st) sourceLaneKey
                      (mapResetOrder (delete i src)))
                   destinationLaneKey
                   (mapResetOrder (insert_at landing moving dst1));
               addingLane := addingLane st;
               placeholderPosition := None;
               idCounter := idCounter st |},
            [OnDragEndBoardItem (item_title (asBoardItem found))
               (Z.max 1 (index d + 1)) (length dst) laneTitle]).
Proof.
  unfold onDragEnd. rewrite Hsrc. cbn [mbind option_bind].
  rewrite Hfound, Hdestination. cbn [mbind option_bind].
  rewrite Hdst. cbn [mbind option_bind].
  rewrite (splice_remove_clamped src _ i moving Hindex Hmoving).
  rewrite (destination_after_removal st ev d src dst i Hdst).
  cbn [mbind option_bind lookup list_lookup].
  rewrite splice_insert_clamped, cloneDeep_id.
  destruct (decide (destinationLaneKey = "")) as [Hempty|Hempty];
    cbn [mbind option_bind]; [by eexists |].
  destruct Hlane as [?|[boardLane ->]]; [done |].
  cbn [mbind option_bind]. by eexists.
Qed.

(** Property X15: the card that a drop moves lands in the destination lane at
    the destination index clamped to the lane: an index past the end puts the
    card last, a negative index counts back from the end and stops at the
    front. The card's [order] is the position it lands at, and the lane is one
    card longer than it was once the card had left its source. *)
Theorem onDragEnd_landing_position :
  ∃ st' announcements l,
    onDragEnd st ev = Some (st', announcements)
    ∧ obj_get (arrangedItems st') destinationLaneKey = Some l
    ∧ l !! landing = Some (resetOrder moving (Z.of_nat landing))
    ∧ length l = S (length dst1)
    ∧ (Z.of_nat (length dst1) ≤ index d → landing = length dst1)
    ∧ (index d < 0 →
       Z.of_nat landing = Z.max (Z.of_nat (length dst1) + index d) 0)
    ∧ (0 ≤ index d ≤ Z.of_nat (length dst1) → Z.of_nat landing = index d).
Proof.
  destruct onDragEnd_commit_anywhere as [laneTitle ->].
  assert (0 ≤ relative_index (Z.of_nat (length dst1)) (index d)
          ≤ Z.of_nat (length dst1)) as Hrange by solve_clamp.
  eexists _, _, _. split; [done |]. cbn [arrangedItems].
  split; [apply obj_get_set_eq |]. split_and!.
  - rewrite mapResetOrder_lookup, insert_at_lookup by lia. done.
  - rewrite mapResetOrder_length. unfold insert_at.
    rewrite length_app, length_take. cbn [length]. rewrite length_drop. lia.
  - intros Hpast. apply Nat2Z.inj. rewrite Z2Nat.id by lia.
    unfold relative_index. destruct (Z.ltb_spec (index d) 0); lia.
  - intros Hneg. rewrite Z2Nat.id by lia.
    unfold relative_index. destruct (Z.ltb_spec (index d) 0); lia.
  - intros Hin. rewrite Z2Nat.id by lia.
    unfold relative_index. destruct (Z.ltb_spec (index d) 0); lia.
Qed.

End DropAnywhere.

Section DropOutcomes.
Context {TTextObject CustomFields : Type}.
Implicit Types (st : BoardState TTextObject CustomFields) (ev : DropResult).
Implicit Types (item : IPreparedBoardItem TTextObject CustomFields).
Implicit Types (l : list (IPreparedBoardItem TTextObject CustomFields)).


Lemma resetOrder_resetOrder item (n m : Z) :
  resetOrder (resetOrder item n) m = resetOrder item m.
Proof. done. Qed.

Lemma resetOrder_order item : resetOrder item (order (asBoardItem item)) = item.
Proof. by destruct item as [key []]. Qed.

Lemma elem_of_mapResetOrder item' l :
  item' ∈ mapResetOrder l →
  ∃ item, item ∈ l ∧ item' = resetOrder item (order (asBoardItem item')).
Proof.
  intros [n Hn]%list_elem_of_lookup. rewrite mapResetOrder_lookup in Hn.
  destruct (l !! n) as [item|] eqn:Hitem; [|done]. injection Hn as <-.
  exists item. split; [by eapply list_elem_of_lookup_2 | done].
Qed.

(** Property X17: a drop changes nothing of any card but its [order]. Every
    card on the board after a drop is a card that was on the board before,
    with the same key, title, [lane] field and other fields. In particular the
    [lane] field of a card moved to another lane still names the lane the card
    came from. *)
Theorem onDragEnd_changes_only_order st ev st' announcements :
  onDragEnd st ev = Some (st', announcements) →
  ∀ k l' item',
    obj_get (arrangedItems st') k = Some l' → item' ∈ l' →
    ∃ k0 l item,
      obj_get (arrangedItems st) k0 = Some l ∧ item ∈ l
      ∧ item' = resetOrder item (order (asBoardItem item')).
Proof.
  intros Hrun k l' item' Hl' Hitem'.
  destruct (destination ev) as [d|] eqn:Hdestination.
  - destruct (onDragEnd_commit_inv _ _ _ _ _ Hdestination Hrun)
      as (src & dst & found & moving & i & Hsrc & _ & Hdst & _ & _ & Hmoving
          & -> & _).
    cbn [arrangedItems] in Hl'.
    assert (∀ item, item ∈ mapResetOrder (delete i src) →
              ∃ item0, item0 ∈ src
                ∧ item = resetOrder item0 (order (asBoardItem item)))
      as Hsource.
    { intros item (item0 & Hitem0 & ->)%elem_of_mapResetOrder.
      exists item0. split; [|done].
      by eapply list_elem_of_delete_inv. }
    destruct (decide (k = droppableId d)) as [->|Hk].
    + rewrite obj_get_set_eq in Hl'. apply (inj Some) in Hl'. subst l'.
      apply elem_of_mapResetOrder in Hitem' as (item & Hitem & Heq).
      rewrite splice_insert_Permutation in Hitem.
      apply elem_of_cons in Hitem as [->|Hitem].
      * exists (droppableId (source ev)), src, moving.
        split_and!; [done | by eapply list_elem_of_lookup_2 | done].
      * case_decide as Hsame.
        -- destruct (Hsource _ Hitem) as (item0 & Hitem0 & Heq0).
           exists (droppableId (source ev)), src, item0.
           split_and!; [done | done |]. rewrite Heq, Heq0. done.
        -- by exists (droppableId d), dst, item.
    + rewrite obj_get_set_ne in Hl' by done.
      destruct (decide (k = droppableId (source ev))) as [->|Hk'].
      * rewrite obj_get_set_eq in Hl'. apply (inj Some) in Hl'. subst l'.
        destruct (Hsource _ Hitem') as (item0 & Hitem0 & Heq0).
        by exists (droppableId (source ev)), src, item0.
      * rewrite obj_get_set_ne in Hl' by done.
        exists k, l', item'. by rewrite resetOrder_order.
  - unfold onDragEnd in Hrun. rewrite Hdestination in Hrun.
    destruct (obj_get (arrangedItems st) (droppableId (source ev)))
      as [src|]; [|done].
    cbn [mbind option_bind] in Hrun.
    destruct (find _ src) as [found|]; [|done].
    cbn [mbind option_bind] in Hrun. injection Hrun as <- <-.
    exists k, l', item'. by rewrite resetOrder_order.
Qed.

End DropOutcomes.

(** ** The card that is dragged and the card that is moved *)

Section DraggedCard.
Context {TTextObject CustomFields : Type}.
Implicit Types (st : BoardState TTextObject CustomFields) (ev : DropResult).
Implicit Types (item : IPreparedBoardItem TTextObject CustomFields).
Implicit Types (l : list (IPreparedBoardItem TTextObject CustomFields)).

(** Property X18: a lane gives each card's [Draggable] the card's key as its
    id and the card's [order] as its index, and the drop handler takes the
    card at the source index out of the lane. In a lane whose orders are the
    positions, that card is the dragged one: after a drop whose source index
    is the order of the card with the dragged key, that card stands in the
    destination lane. *)
Theorem onDragEnd_moves_dragged_card st ev d src dst found :
  destination ev = Some d →
  obj_get (arrangedItems st) (droppableId (source ev)) = Some src →
  find (λ boardItem, bool_decide (itemKey boardItem = draggableId ev)) src
  = Some found →
  index (source ev) = order (asBoardItem found) →
  ranked src →
  droppableId d = "" ∨ is_Some (obj_get (arrangedLanes st) (droppableId d)) →
  obj_get (arrangedItems st) (droppableId d) = Some dst →
  ∃ st' announcements l (j : nat),
    onDragEnd st ev = Some (st', announcements)
    ∧ obj_get (arrangedItems st') (droppableId d) = Some l
    ∧ l !! j = Some (resetOrder found (Z.of_nat j))
    ∧ itemKey found = draggableId ev.
Proof.
  intros Hdestination Hsrc Hfound Hindex Hranked Hlane Hdst.
  destruct (find_findIndex _ _ _ Hfound) as (i & _ & Hi & Hkey & _).
  apply bool_decide_eq_true in Hkey.
  pose proof (lookup_lt_Some _ _ _ Hi) as Hlt.
  assert (Z.of_nat i
          = relative_index (Z.of_nat (length src)) (index (source ev))) as Hi'.
  { rewrite Hindex, (Hranked _ _ Hi). unfold relative_index.
    destruct (Z.ltb_spec (Z.of_nat i) 0); lia. }
  destruct (onDragEnd_commit_anywhere st ev d src dst found found i
              Hdestination Hsrc Hfound Hlane Hdst Hi' Hi) as [laneTitle ->].
  eexists _, _, _, _. split; [done |]. cbn [arrangedItems].
  split; [apply obj_get_set_eq |]. split; [|done].
  rewrite mapResetOrder_lookup, insert_at_lookup; [done |].
  match goal with |- (Z.to_nat (relative_index ?n ?z) ≤ _)%nat =>
    assert (0 ≤ relative_index n z ≤ n) by solve_clamp
  end.
  lia.
Qed.

(** Property X19: the board starts from [prepareBoardItems], which sorts the
    cards of a lane by [order] and leaves the orders as they were given; it
    does start when no item names a lane [hasOwnProperty]. When a card's
    order is not less than the number of cards of its lane, the drop handler
    throws on the first drop of that card to any destination: at the source
    index, which is the card's order, there is nothing to move. *)
Theorem initialBoard_order_past_end (lanes : TBoardLanes TTextObject)
    (items : TBoardItems TTextObject CustomFields) (counter : nat)
    (key : string) (it : IBoardItem TTextObject CustomFields) ev d :
  (key, it) ∈ items → lane it ∈ obj_keys lanes →
  Z.of_nat (length (in_lane (lane it) (keyed_items items))) ≤ order it →
  destination ev = Some d →
  droppableId (source ev) = lane it → index (source ev) = order it →
  (no_shadowing items → is_Some (initialBoard lanes items counter))
  ∧ (st ← initialBoard lanes items counter; onDragEnd st ev) = None.
Proof.
  intros _ Hlane Horder Hdestination Hsource Hindex. unfold initialBoard. split.
  - intros Hitems.
    destruct (prepareBoardItems_returns items lanes Hitems) as [prepared ->].
    by eexists.
  - destruct (prepareBoardItems items lanes) as [prepared|] eqn:Hrun; [|done].
    cbn [mbind option_bind].
    pose proof (prepareBoardItems_get items lanes prepared (lane it) Hrun)
      as Hget.
    case_decide as Hkey.
    + apply (onDragEnd_source_past_end _ ev d
               (sort compareOrder (in_lane (lane it) (keyed_items items))));
        [done | by rewrite Hsource |].
      rewrite Hindex. by rewrite sort_Permutation.
    + unfold onDragEnd. cbn [arrangedItems]. by rewrite Hsource, Hget.
Qed.

End DraggedCard.

(** ** A move and what follows it *)

Section ObjSetFacts.
Context {V : Type}.
Implicit Types (o : obj V) (k : string) (v : V).

Lemma obj_set_set o k v v' : obj_set (obj_set o k v) k v' = obj_set o k v'.
Proof.
  induction o as [|[k0 v0] o IH]; simpl.
  - by rewrite decide_True.
  - destruct (decide (k0 = k)) as [->|Hne]; simpl.
    + by rewrite decide_True.
    + by rewrite decide_False, IH.
Qed.

Lemma obj_set_same o k v : obj_get o k = Some v → obj_set o k v = o.
Proof.
  induction o as [|[k0 v0] o IH]; simpl; [done |].
  destruct (decide (k0 = k)) as [->|Hne]; [by intros [= ->] |].
  intros Hget. by rewrite IH.
Qed.

(** Writes to two properties that both exist can be exchanged. *)
Lemma obj_set_comm o k1 k2 v1 v2 :
  k1 ≠ k2 → is_Some (obj_get o k1) → is_Some (obj_get o k2) →
  obj_set (obj_set o k1 v1) k2 v2 = obj_set (obj_set o k2 v2) k1 v1.
Proof.
  intros Hne. induction o as [|[k0 v0] o IH]; simpl; [by intros [? ?] |].
  destruct (decide (k0 = k1)) as [H1|H1], (decide (k0 = k2)) as [H2|H2];
    simpl; try congruence.
  - intros _ _. by rewrite decide_False, decide_True by done.
  - intros _ _. by rewrite decide_True, decide_False by done.
  - intros Hk1 Hk2. by rewrite !decide_False, IH by done.
Qed.

End ObjSetFacts.

Section InsertDelete.
Context {A : Type}.
Implicit Types (l : list A) (x : A).

Lemma delete_insert_at l (j : nat) x :
  (j ≤ length l)%nat → delete j (insert_at j x l) = l.
Proof.
  intros Hj. unfold insert_at.
  rewrite <- (take_drop j l) at 3.
  replace j with (length (take j l)) at 1 by (rewrite length_take; lia).
  apply delete_middle.
Qed.

Lemma insert_at_delete l (i : nat) x :
  l !! i = Some x → insert_at i x (delete i l) = l.
Proof.
  intros Hi. destruct (lookup_split _ _ _ Hi) as (l1 & l2 & -> & <-).
  by rewrite delete_middle, insert_at_app.
Qed.

Lemma insert_at_length l (j : nat) x : length (insert_at j x l) = S (length l).
Proof.
  unfold insert_at. rewrite length_app, length_take. cbn [length].
  rewrite length_drop. lia.
Qed.

End InsertDelete.

Section Rerank.
Context {TTextObject CustomFields : Type}.
Implicit Types (item : IPreparedBoardItem TTextObject CustomFields).
Implicit Types (l : list (IPreparedBoardItem TTextObject CustomFields)).

(** A card without its rank. *)
Local Abbreviation unranked :=
  (λ item : IPreparedBoardItem TTextObject CustomFields, resetOrder item 0).

(** Re-ranking depends on the cards and their sequence, not on the orders
    they had. *)
Lemma mapResetOrder_ext l l' :
  unranked <$> l = unranked <$> l' → mapResetOrder l = mapResetOrder l'.
Proof.
  intros Heq. apply list_eq. intros n. rewrite !mapResetOrder_lookup.
  apply (f_equal (λ l0, l0 !! n)) in Heq. rewrite !list_lookup_fmap in Heq.
  destruct (l !! n) as [item|], (l' !! n) as [item'|]; simpl in *; try done.
  injection Heq as Hkey Hlane Htitle Hcustom. unfold resetOrder. congruence.
Qed.

Lemma unranked_mapResetOrder l : unranked <$> mapResetOrder l = unranked <$> l.
Proof.
  apply list_eq. intros n.
  rewrite !list_lookup_fmap, mapResetOrder_lookup. by destruct (l !! n).
Qed.

(** Re-ranking a sequence whose orders are the positions changes nothing. *)
Lemma mapResetOrder_ranked_id l : ranked l → mapResetOrder l = l.
Proof.
  intros Hranked. apply list_eq. intros n. rewrite mapResetOrder_lookup.
  destruct (l !! n) as [item|] eqn:Hn; [|done]. simpl.
  rewrite <- (Hranked _ _ Hn). by destruct item as [key []].
Qed.

End Rerank.

Section DropThen.
Context {TTextObject CustomFields : Type}.
Implicit Types (item : IPreparedBoardItem TTextObject CustomFields).
Implicit Types (l : list (IPreparedBoardItem TTextObject CustomFields)).

(** A drop of the card [moving], found at position [i] of the source lane,
    at position [j] of the destination lane. *)
Variables (st : BoardState TTextObject CustomFields) (ev : DropResult).
Variables (d : DraggableLocation).
Variables (src dst : list (IPreparedBoardItem TTextObject CustomFields)).
Variables (moving : IPreparedBoardItem TTextObject CustomFields) (i j : nat).

Hypothesis Hdestination : destination ev = Some d.
Hypothesis Hsrc :
  obj_get (arrangedItems st) (droppableId (source ev)) = Some src.
Hypothesis Hdst : obj_get (arrangedItems st) (droppableId d) = Some dst.
Hypothesis Hlane :
  droppableId d = "" ∨ is_Some (obj_get (arrangedLanes st) (droppableId d)).
Hypothesis Hindex : index (source ev) = Z.of_nat i.
Hypothesis Hmoving : src !! i = Some moving.
Hypothesis Hkey : itemKey moving = draggableId ev.
Hypothesis Hj : index d = Z.of_nat j.

Local Abbreviation sourceLaneKey := (droppableId (source ev)).
Local Abbreviation destinationLaneKey := (droppableId d).

Local Abbreviation dst1 :=
  (if decide (sourceLaneKey = destinationLaneKey)
   then mapResetOrder (delete i src) else dst).

Hypothesis Hj_le : (j ≤ length dst1)%nat.

Local Abbreviation dragged :=
  (λ boardItem : IPreparedBoardItem TTextObject CustomFields,
     bool_decide (itemKey boardItem = draggableId ev)).

Lemma find_dragged l item :
  item ∈ l → itemKey item = draggableId ev → is_Some (find dragged l).
Proof.
  intros Hin Hitem. destruct (find dragged l) eqn:Hfind; [by eexists |].
  pose proof (proj1 (find_None _ _) Hfind item Hin) as Hno.
  by apply bool_decide_eq_false in Hno.
Qed.

(** The first drop, in full. *)
Lemma onDragEnd_there :
  ∃ announcements,
    onDragEnd st ev
    = Some ({| arrangedLanes := arrangedLanes st;
               arrangedItems :=
                 obj_set
                   (obj_set (arrangedItems st) sourceLaneKey
                      (mapResetOrder (delete i src)))
                   destinationLaneKey
                   (mapResetOrder (insert_at j moving dst1));
               addingLane := addingLane st;
               placeholderPosition := None;
               idCounter := idCounter st |}, announcements).
Proof.
  destruct (find_dragged src moving) as [found Hfound];
    [by eapply list_elem_of_lookup_2 | done |].
  pose proof (lookup_lt_Some _ _ _ Hmoving) as Hlt.
  assert (Z.of_nat i
          = relative_index (Z.of_nat (length src)) (index (source ev))) as Hi.
  { rewrite Hindex. unfold relative_index.
    destruct (Z.ltb_spec (Z.of_nat i) 0); lia. }
  destruct (onDragEnd_commit_anywhere st ev d src dst found moving i
              Hdestination Hsrc Hfound Hlane Hdst Hi Hmoving) as [laneTitle ->].
  eexists. do 4 f_equal. rewrite Hj. f_equal. f_equal.
  unfold relative_index. destruct (Z.ltb_spec (Z.of_nat j) 0); lia.
Qed.

(** Property X20: the drop handler does not update the [lane] field of a card
    it moves to another lane, and the deletion of a card looks for the card in
    the lane that field names. So, on a board whose cards name their lanes and
    have distinct keys in the source lane, confirming the deletion of a card
    that was just moved to another lane leaves that card where it is and
    removes the last card of the lane it came from, if that lane has a card
    left. *)
Theorem deleteItem_after_cross_lane_move :
  sourceLaneKey ≠ destinationLaneKey →
  lane (asBoardItem moving) = sourceLaneKey →
  NoDup (itemKey <$> src) →
  ∃ st1 announcements card st2,
    onDragEnd st ev = Some (st1, announcements)
    ∧ default [] (obj_get (arrangedItems st1) destinationLaneKey) !! j
      = Some card
    ∧ itemKey card = itemKey moving
    ∧ lane (asBoardItem card) = sourceLaneKey
    ∧ deleteItem st1 card = Some st2
    ∧ obj_get (arrangedItems st2) destinationLaneKey
      = obj_get (arrangedItems st1) destinationLaneKey
    ∧ obj_get (arrangedItems st2) sourceLaneKey
      = Some (take (length src - 2) (mapResetOrder (delete i src))).
Proof.
  intros Hcross Hfield Hnd. destruct onDragEnd_there as [announcements ->].
  rewrite decide_False in Hj_le |- * by done.
  eexists _, _, (resetOrder moving (Z.of_nat j)), _.
  split; [done |]. cbn [arrangedItems]. rewrite obj_get_set_eq.
  cbn [from_option id].
  split; [by rewrite mapResetOrder_lookup, insert_at_lookup |].
  split; [done |]. split; [done |].
  unfold deleteItem. cbn [arrangedItems arrangedLanes resetOrder asBoardItem
                          lane itemKey].
  rewrite Hfield, obj_get_set_ne, obj_get_set_eq by done.
  cbn [mbind option_bind].
  destruct (findIndex_itemKey (resetOrder moving (Z.of_nat j))
              (mapResetOrder (delete i src)))
    as [(n & item & _ & Hn & Hitem)|[Hpos _]].
  - exfalso. cbn [resetOrder itemKey] in Hitem.
    apply (NoDup_delete_lookup (itemKey <$> src) i (itemKey moving));
      [done | by rewrite list_lookup_fmap, Hmoving |].
    rewrite <- list_fmap_delete, <- mapResetOrder_keys, <- Hitem.
    apply list_elem_of_fmap_2. by eapply list_elem_of_lookup_2.
  - cbn [resetOrder itemKey] in Hpos. cbn [resetOrder itemKey].
    rewrite Hpos, splice_remove_last, cloneDeep_id.
    split; [done |]. cbn [arrangedItems].
    split; [by rewrite obj_get_set_ne, obj_get_set_eq |].
    rewrite obj_get_set_eq. f_equal. f_equal.
    rewrite mapResetOrder_length, length_delete by eauto. lia.
Qed.

End DropThen.

Section DropBack.
Context {TTextObject CustomFields : Type}.
Implicit Types (item : IPreparedBoardItem TTextObject CustomFields).
Implicit Types (l : list (IPreparedBoardItem TTextObject CustomFields)).

Variables (st : BoardState TTextObject CustomFields) (ev : DropResult).
Variables (d : DraggableLocation).
Variables (src dst : list (IPreparedBoardItem TTextObject CustomFields)).
Variables (moving : IPreparedBoardItem TTextObject CustomFields) (i j : nat).

Hypothesis Hdestination : destination ev = Some d.
Hypothesis Hsrc :
  obj_get (arrangedItems st) (droppableId (source ev)) = Some src.
Hypothesis Hdst : obj_get (arrangedItems st) (droppableId d) = Some dst.
Hypothesis Hlane :
  droppableId d = "" ∨ is_Some (obj_get (arrangedLanes st) (droppableId d)).
Hypothesis Hlane_source :
  droppableId (source ev) = ""
  ∨ is_Some (obj_get (arrangedLanes st) (droppableId (source ev))).
Hypothesis Hindex : index (source ev) = Z.of_nat i.
Hypothesis Hmoving : src !! i = Some moving.
Hypothesis Hkey : itemKey moving = draggableId ev.
Hypothesis Hj : index d = Z.of_nat j.
Hypothesis Hranked_src : ranked src.
Hypothesis Hranked_dst : ranked dst.

Local Abbreviation sourceLaneKey := (droppableId (source ev)).
Local Abbreviation destinationLaneKey := (droppableId d).

Local Abbreviation dst1 :=
  (if decide (sourceLaneKey = destinationLaneKey)
   then mapResetOrder (delete i src) else dst).

Hypothesis Hj_le : (j ≤ length dst1)%nat.

Local Abbreviation unranked :=
  (λ item : IPreparedBoardItem TTextObject CustomFields, resetOrder item 0).

(** The destination lane after the first drop. *)
Local Abbreviation there := (mapResetOrder (insert_at j moving dst1)).

Lemma dst1_ranked : mapResetOrder dst1 = dst1.
Proof.
  case_decide; [|by apply mapResetOrder_ranked_id].
  apply mapResetOrder_ext, unranked_mapResetOrder.
Qed.

Lemma there_without_card : mapResetOrder (delete j there) = dst1.
Proof.
  rewrite <- dst1_ranked at 2. apply mapResetOrder_ext.
  rewrite list_fmap_delete, unranked_mapResetOrder, insert_at_fmap.
  rewrite delete_insert_at; [done |]. by rewrite length_fmap.
Qed.

Lemma source_with_card (n : Z) :
  mapResetOrder (insert_at i (resetOrder moving n) (mapResetOrder (delete i src)))
  = src.
Proof.
  rewrite <- (mapResetOrder_ranked_id src Hranked_src) at 2.
  apply mapResetOrder_ext.
  rewrite insert_at_fmap, unranked_mapResetOrder, list_fmap_delete.
  cbn [resetOrder]. apply (insert_at_delete (unranked <$> src) i (unranked moving)).
  by rewrite list_lookup_fmap, Hmoving.
Qed.

(** Property X21: dropping a card and then dropping it back where it came from
    restores the arranged items, when the orders in the two lanes were the
    positions before: every lane has its cards in their order and with their
    orders again, and the lanes are untouched. *)
Theorem onDragEnd_there_and_back :
  ∃ st1 announcements1 st2 announcements2,
    onDragEnd st ev = Some (st1, announcements1)
    ∧ onDragEnd st1 (dropBack ev d) = Some (st2, announcements2)
    ∧ arrangedItems st2 = arrangedItems st
    ∧ arrangedLanes st2 = arrangedLanes st.
Proof.
  destruct (onDragEnd_there st ev d src dst moving i j Hdestination Hsrc Hdst
              Hlane Hindex Hmoving Hkey Hj Hj_le) as [announcements1 Hthere].
  pose proof (lookup_lt_Some _ _ _ Hmoving) as Hlt.
  assert (length (mapResetOrder (delete i src)) = (length src - 1)%nat)
    as Hlen.
  { rewrite mapResetOrder_length, length_delete by eauto. done. }
  match type of Hthere with _ = Some (?s, _) => set (st1 := s) in * end.
  assert (obj_get (arrangedItems st1) destinationLaneKey = Some there)
    as Hsrc1 by apply obj_get_set_eq.
  assert (obj_get (arrangedItems st1) sourceLaneKey
          = Some (if decide (destinationLaneKey = sourceLaneKey)
                  then there else mapResetOrder (delete i src))) as Hdst1.
  { cbn [st1 arrangedItems].
    destruct (decide (destinationLaneKey = sourceLaneKey)) as [Hsame|Hcross].
    - rewrite <- Hsame. apply obj_get_set_eq.
    - rewrite obj_get_set_ne by done. apply obj_get_set_eq. }
  assert (there !! j = Some (resetOrder moving (Z.of_nat j))) as Hmoving1.
  { by rewrite mapResetOrder_lookup, insert_at_lookup. }
  destruct (onDragEnd_there st1 (dropBack ev d) (source ev) there _
              (resetOrder moving (Z.of_nat j)) j i eq_refl Hsrc1 Hdst1
              Hlane_source Hj Hmoving1 Hkey Hindex)
    as [announcements2 Hback].
  { cbn [dropBack source]. rewrite there_without_card.
    destruct (decide (destinationLaneKey = sourceLaneKey)) as [Hsame|Hcross].
    - rewrite decide_True by congruence. lia.
    - lia. }
  eexists _, _, _, _. split; [exact Hthere |]. split; [exact Hback |].
  split; [|done]. cbn [arrangedItems dropBack source st1].
  rewrite there_without_card.
  pose proof (source_with_card (Z.of_nat j)) as Hsource.
  destruct (decide (sourceLaneKey = destinationLaneKey)) as [Hsame|Hcross].
  - rewrite (decide_True (P := destinationLaneKey = sourceLaneKey))
      by congruence.
    rewrite Hsource, <- Hsame, !obj_set_set.
    by apply obj_set_same.
  - rewrite !(decide_False (P := destinationLaneKey = sourceLaneKey))
      by congruence.
    rewrite Hsource, obj_set_set.
    rewrite (obj_set_comm (arrangedItems st)) by (by eauto).
    rewrite obj_set_set, (obj_set_same (arrangedItems st) destinationLaneKey)
      by done.
    by apply obj_set_same.
Qed.

End DropBack.

(** ** Moving a lane from its menu, and moving it back *)

Section MoveLaneMenu.
Context {TTextObject CustomFields : Type}.
Implicit Types (st : BoardState TTextObject CustomFields).
Implicit Types (lanes : TBoardLanes TTextObject).

(** Putting a key back one slot further or nearer is the exchange with its
    neighbour, except for the first key moved nearer. *)
Lemma insert_at_one_slot {A} (l : list A) (i : nat) (x : A) (delta : Delta) :
  l !! i = Some x → ¬ (delta = Nearer ∧ i = 0%nat) →
  insert_at (moveLane_position (length l) i delta) x (delete i l)
  = move_one_slot i delta l.
Proof.
  intros Hi Hcase. destruct (lookup_split _ _ _ Hi) as (l1 & l2 & -> & <-).
  rewrite delete_middle, length_app. cbn [length].
  destruct delta; simpl.
  - destruct l2 as [|y l2]; cbn [length].
    + replace ((length l1 + 1) `min` (length l1 + 1 - 1))%nat
        with (length l1) by lia.
      by rewrite app_nil_r, insert_at_end, swap_adjacent_last.
    + replace ((length l1 + 1) `min` (length l1 + S (S (length l2)) - 1))%nat
        with (length (l1 ++ [y])) by (rewrite length_app; simpl; lia).
      replace (l1 ++ y :: l2) with ((l1 ++ [y]) ++ l2)
        by (by rewrite <- app_assoc).
      by rewrite insert_at_app, swap_adjacent_app, <- app_assoc.
  - destruct l1 as [|y l1 _] using rev_ind; [by destruct Hcase |].
    rewrite length_app. cbn [length].
    replace (length l1 + 1)%nat with (S (length l1)) by lia.
    rewrite <- !(assoc_L (++)). simpl.
    by rewrite insert_at_app, swap_adjacent_app.
Qed.

(** Property X22: on lanes whose keys are ordinary names, a move that the
    lane menu leaves enabled exchanges the lane with its neighbour on that
    side, also the move further of the last lane while a lane is being added,
    which leaves the order as it is. Of the moves that the menu disables, the
    move further of the last lane would leave the order as it is; the move
    nearer of the first lane would take the lane out and put it in front of
    the last one, which on three or more lanes is another order: there it is
    the menu, not [moveLane], that keeps the first lane in its place. *)
Theorem moveLane_from_menu st (laneKey : string) (laneIndex : nat)
    (delta : Delta) :
  obj_wf (arrangedLanes st) →
  Forall plain_key (obj_keys (arrangedLanes st)) →
  obj_keys (arrangedLanes st) !! laneIndex = Some laneKey →
  (moveLaneDisabled st laneIndex delta = false →
   obj_keys (moveLane (arrangedLanes st) laneKey delta)
   = move_one_slot laneIndex delta (obj_keys (arrangedLanes st)))
  ∧ (moveLaneDisabled st laneIndex delta = true →
     obj_keys (moveLane (arrangedLanes st) laneKey delta)
     = match delta with
       | Further => obj_keys (arrangedLanes st)
       | Nearer =>
           insert_at (length (obj_keys (arrangedLanes st)) - 2) laneKey
             (delete 0%nat (obj_keys (arrangedLanes st)))
       end)
  ∧ (moveLaneDisabled st laneIndex Nearer = true →
     (3 ≤ length (obj_keys (arrangedLanes st)))%nat →
     obj_keys (moveLane (arrangedLanes st) laneKey Nearer)
     ≠ obj_keys (arrangedLanes st)).
Proof.
  intros Hwf Hplain Hi. split_and!.
  - intros Henabled. rewrite (moveLane_keys_order _ _ laneIndex) by done.
    apply insert_at_one_slot; [done |]. intros [-> ->]. done.
  - rewrite (moveLane_keys_order _ _ laneIndex) by done.
    destruct delta; simpl moveLaneDisabled.
    + unfold laneLast. destruct (addingLane st); [done |].
      intros Hlast%bool_decide_eq_true.
      rewrite insert_at_one_slot; [|done |by intros [? _]].
      destruct (lookup_split _ _ _ Hi) as (l1 & l2 & Hkeys & Hl1).
      rewrite Hkeys in *. rewrite length_app in Hlast. cbn [length] in Hlast.
      destruct l2 as [|y l2]; [|cbn [length] in Hlast; lia].
      subst laneIndex. apply swap_adjacent_last.
    + unfold laneFirst. by intros ->%bool_decide_eq_true.
  - unfold moveLaneDisabled, laneFirst. intros ->%bool_decide_eq_true Hlen.
    rewrite (moveLane_keys_order _ _ 0) by done. simpl moveLane_position.
    unfold obj_wf in Hwf.
    destruct (obj_keys (arrangedLanes st)) as [|k0 [|k1 [|k2 keys]]];
      cbn [length] in Hlen; [lia | lia | lia |].
    injection Hi as ->. cbn [delete list_delete length].
    replace (S (S (S (length keys))) - 2)%nat with (S (length keys)) by lia.
    unfold insert_at. cbn [take drop app]. intros [= Heq _].
    apply NoDup_cons in Hwf as [Hnotin _]. apply Hnotin. rewrite <- Heq. by left.
Qed.

Lemma obj_get_elem_of {V} (o : obj V) (k : string) (v : V) :
  obj_wf o → (k, v) ∈ o → obj_get o k = Some v.
Proof.
  unfold obj_wf. induction o as [|[k' v'] o IH]; intros Hnd Hin.
  - by apply elem_of_nil in Hin.
  - rewrite obj_keys_cons in Hnd. apply NoDup_cons in Hnd as [Hk' Hnd].
    simpl. apply elem_of_cons in Hin as [[= -> ->]|Hin].
    + by rewrite decide_True.
    + rewrite decide_False; [by apply IH |]. intros ->. apply Hk'.
      by apply (list_elem_of_fmap_2 fst) in Hin.
Qed.

(** The lanes object that [moveLane] builds, for a key that is present. *)
Lemma moveLane_eq (lanes : list (string * TBoardLane TTextObject))
    (k : string) (lane : TBoardLane TTextObject) (i : nat) (delta : Delta) :
  obj_wf lanes → Forall plain_key (obj_keys lanes) →
  lanes !! i = Some (k, lane) →
  moveLane lanes k delta
  = definedLanes
      (insert_at (moveLane_position (length lanes) i delta) (k, lane)
         (delete i lanes)).
Proof.
  intros Hwf Hplain Hi.
  assert (obj_keys lanes !! i = Some k) as Hk
    by (unfold obj_keys; by rewrite list_lookup_fmap, Hi).
  unfold moveLane. rewrite (moveLane_keys_present _ i) by done.
  rewrite (js_reduce_plain toPropertyKey (obj_get lanes))
    by (rewrite toPropertyKey_Some; by rewrite insert_at_delete_Permutation).
  rewrite (reduce_set_eq toPropertyKey (obj_get lanes))
    by (rewrite toPropertyKey_Some; simpl;
        by rewrite insert_at_delete_Permutation).
  simpl. rewrite <- list_fmap_compose. unfold obj_keys at 1 2.
  rewrite length_fmap, <- list_fmap_delete.
  change k with ((k, lane).1) at 1. rewrite <- insert_at_fmap.
  unfold definedLanes. rewrite <- list_fmap_compose.
  apply list_fmap_ext. intros _ [k' lane'] Hin%list_elem_of_lookup_2. simpl.
  f_equal. apply obj_get_elem_of; [done |].
  rewrite insert_at_delete_Permutation in Hin by done. done.
Qed.

(** Property X23: on lanes whose keys are ordinary names, moving a lane one
    slot and then one slot back restores the lanes: the same keys in the same
    order with the same lanes. This holds for the moves that have a neighbour
    to exchange with: further for a lane that is not the last, nearer for a
    lane that is not the first. *)
Theorem moveLane_and_back (lanes : list (string * TBoardLane TTextObject))
    (k : string) (i : nat) (delta : Delta) :
  obj_wf lanes → Forall plain_key (obj_keys lanes) →
  obj_keys lanes !! i = Some k →
  match delta with
  | Further => (S i < length lanes)%nat
  | Nearer => (0 < i)%nat
  end →
  ∃ lanes',
    moveLane lanes k delta = definedLanes lanes'
    ∧ obj_keys lanes' = move_one_slot i delta (obj_keys lanes)
    ∧ moveLane lanes' k (opposite delta) = definedLanes lanes.
Proof.
  intros Hwf Hplain Hk Hroom.
  assert (∃ lane, lanes !! i = Some (k, lane)) as [lane Hi].
  { unfold obj_keys in Hk. rewrite list_lookup_fmap in Hk.
    destruct (lanes !! i) as [[k' lane]|]; [|done].
    injection Hk as ->. by eexists. }
  pose proof (lookup_lt_Some _ _ _ Hi) as Hlt.
  set (p := moveLane_position (length lanes) i delta).
  assert (p = match delta with Further => S i | Nearer => (i - 1)%nat end)
    as Hp.
  { unfold p. destruct delta; simpl; [lia |]. destruct i; [lia | simpl; lia]. }
  assert (length (delete i lanes) = (length lanes - 1)%nat) as Hlen
    by (rewrite length_delete by eauto; done).
  assert (p ≤ length (delete i lanes))%nat as Hp_le
    by (rewrite Hp; destruct delta; lia).
  assert (obj_keys (insert_at p (k, lane) (delete i lanes)) ≡ₚ obj_keys lanes)
    as Hperm.
  { unfold obj_keys. rewrite insert_at_fmap, list_fmap_delete. cbn [fst].
    by rewrite insert_at_delete_Permutation. }
  exists (insert_at p (k, lane) (delete i lanes)).
  split; [by apply moveLane_eq |]. split.
  - unfold obj_keys. rewrite insert_at_fmap, list_fmap_delete. cbn [fst].
    rewrite <- (insert_at_one_slot (lanes.*1) i k delta);
      [by rewrite length_fmap | done |].
    intros [-> ->]. lia.
  - rewrite (moveLane_eq _ k lane p).
    + rewrite delete_insert_at by done.
      rewrite insert_at_length, Hlen.
      replace (moveLane_position (S (length lanes - 1)) p (opposite delta))
        with i.
      * by rewrite insert_at_delete.
      * rewrite Hp. destruct delta; simpl; [done |].
        destruct i as [|i']; [lia |]. simpl.
        replace (i' - 0)%nat with i' by lia. lia.
    + unfold obj_wf. by rewrite Hperm.
    + by rewrite Hperm.
    + by apply insert_at_lookup.
Qed.

End MoveLaneMenu.

(** ** While a card is dragged *)

Section DragInProgress.
Context {TTextObject CustomFields : Type}.
Implicit Types (st : BoardState TTextObject CustomFields) (doc : Document).
Implicit Types (item : IPreparedBoardItem TTextObject CustomFields).
Implicit Types (l : list (IPreparedBoardItem TTextObject CustomFields)).

(** The announcement that [onDragStart] puts together, if it gets that
    far. *)
Local Abbreviation startAnnouncement st started :=
  (laneArr ← obj_get (arrangedItems st) (droppableId (start_source started));
   boardItem ←
     find (λ boardItem : IPreparedBoardItem TTextObject CustomFields,
             bool_decide (itemKey boardItem = start_draggableId started))
          laneArr;
   boardLane' ←
     obj_get (arrangedLanes st) (droppableId (start_source started));
   Some (OnDragStartBoardItem (item_title (asBoardItem boardItem))
           (findIndex (λ boardItem : IPreparedBoardItem TTextObject CustomFields,
                         bool_decide (itemKey boardItem
                                      = start_draggableId started))
                      laneArr + 1)
           (length laneArr) (title boardLane'))).

Lemma onDragStart_frame doc st (started : DragStart) st' :
  (onDragStart doc st started).2 = Some st' →
  arrangedLanes st' = arrangedLanes st
  ∧ arrangedItems st' = arrangedItems st
  ∧ addingLane st' = addingLane st
  ∧ idCounter st' = idCounter st
  ∧ length (onDragStart doc st started).1 = 1%nat.
Proof.
  unfold onDragStart.
  destruct (startAnnouncement st started) as [announcement|]; [|done].
  cbn [fst snd].
  destruct (getDraggable doc _) as [[draggable|]|]; cbn [mbind option_bind];
    [destruct (parentNode draggable)| |]; (done || by intros [= <-]).
Qed.

Lemma onDragUpdate_frame doc st (updated : DragUpdate) st' :
  (onDragUpdate doc st updated).2 = Some st' →
  arrangedLanes st' = arrangedLanes st
  ∧ arrangedItems st' = arrangedItems st
  ∧ addingLane st' = addingLane st
  ∧ idCounter st' = idCounter st
  ∧ (length (onDragUpdate doc st updated).1 ≤ 1)%nat.
Proof.
  unfold onDragUpdate.
  destruct (update_destination updated) as [destination|];
    [|intros [= <-]; simpl; split_and!; (done || lia)].
  destruct (getDraggable doc _) as [draggable|]; [|done].
  destruct (getDroppable doc _) as [droppable|]; [|done].
  destruct draggable as [draggable|];
    [|intros [= <-]; simpl; split_and!; (done || lia)].
  destruct droppable as [droppable|];
    [|intros [= <-]; simpl; split_and!; (done || lia)].
  destruct (obj_get (arrangedItems st) (droppableId (update_source updated)))
    as [l|]; [|done].
  cbn [mbind option_bind]. destruct (find _ l) as [item|]; [|done].
  cbn [mbind option_bind].
  destruct (obj_get (arrangedItems st) _) as [l'|]; [|done].
  cbn [mbind option_bind].
  destruct (obj_get (arrangedLanes st) _) as [boardLane|]; [|done].
  cbn [mbind option_bind fst snd]. by intros [= <-].
Qed.

(** Property X24: the handlers of a drag in progress leave the board as it is:
    whatever the event and the document, when [onDragStart] or [onDragUpdate]
    returns, lanes, items, adding-lane flag and key counter are unchanged, and
    at most one announcement was made. *)
Theorem drag_in_progress_keeps_board doc st
    (started : DragStart) (updated : DragUpdate) :
  (∀ st',
     (onDragStart doc st started).2 = Some st' →
     arrangedLanes st' = arrangedLanes st
     ∧ arrangedItems st' = arrangedItems st
     ∧ addingLane st' = addingLane st
     ∧ idCounter st' = idCounter st
     ∧ length (onDragStart doc st started).1 = 1%nat)
  ∧ (∀ st',
       (onDragUpdate doc st updated).2 = Some st' →
       arrangedLanes st' = arrangedLanes st
       ∧ arrangedItems st' = arrangedItems st
       ∧ addingLane st' = addingLane st
       ∧ idCounter st' = idCounter st
       ∧ (length (onDragUpdate doc st updated).1 ≤ 1)%nat).
Proof.
  split; intros st'; [apply onDragStart_frame | apply onDragUpdate_frame].
Qed.


(** Property X26: in a lane whose item keys are distinct, the position that
    [onDragStart] announces for the dragged card is the card's position in the
    lane, counted from one, and the announced length is the number of cards in
    the lane; the title is the card's and the lane title the source lane's.
    The announcement is made before the document is asked for the card's
    element: the handler then throws exactly when the document cannot parse
    the selector. *)
Theorem onDragStart_announces_position doc st (started : DragStart)
    l (i : nat) item (boardLane : TBoardLane TTextObject) :
  obj_get (arrangedItems st) (droppableId (start_source started)) = Some l →
  obj_get (arrangedLanes st) (droppableId (start_source started))
  = Some boardLane →
  NoDup (itemKey <$> l) → l !! i = Some item →
  itemKey item = start_draggableId started →
  (onDragStart doc st started).1
  = [OnDragStartBoardItem (item_title (asBoardItem item))
       (Z.of_nat i + 1) (length l) (title boardLane)]
  ∧ ((onDragStart doc st started).2 = None
     ↔ getDraggable doc (start_draggableId started) = None).
Proof.
  intros Hl Hlane Hnd Hi Hkey. unfold onDragStart. rewrite Hl, Hlane.
  cbn [mbind option_bind].
  destruct (find _ l) as [found|] eqn:Hfound.
  - cbn [mbind option_bind fst snd].
    destruct (find_findIndex _ _ _ Hfound) as (n & -> & Hn & Hfound_key & _).
    apply bool_decide_eq_true in Hfound_key.
    assert (n = i) as ->.
    { eapply (NoDup_lookup _ _ _ _ Hnd); rewrite list_lookup_fmap.
      - by rewrite Hn.
      - rewrite Hi. simpl. congruence. }
    assert (found = item) as -> by congruence.
    split; [done |].
    destruct (getDraggable doc _) as [[draggable|]|]; cbn [mbind option_bind];
      [destruct (parentNode draggable)| |]; done.
  - exfalso. pose proof (proj1 (find_None _ _) Hfound item) as Hno.
    rewrite bool_decide_eq_false in Hno. apply Hno; [|done].
    by eapply list_elem_of_lookup_2.
Qed.

End DragInProgress.

(** ** What the board keeps *)

Section BoardKeeps.
Context {TTextObject CustomFields : Type}.
Context (doc : Document) (textOfString : string → TTextObject).
Implicit Types (st : BoardState TTextObject CustomFields).
Implicit Types (items : IPreparedBoardItems TTextObject CustomFields).
Implicit Types (l : list (IPreparedBoardItem TTextObject CustomFields)).

Lemma elem_of_obj_keys_set {V} (o : obj V) (k k' : string) (v : V) :
  k' ∈ obj_keys (obj_set o k v) ↔ k' = k ∨ k' ∈ obj_keys o.
Proof.
  rewrite <- !obj_get_is_Some. destruct (decide (k = k')) as [->|Hne].
  - rewrite obj_get_set_eq. split; [by left | by eexists].
  - rewrite obj_get_set_ne by done. split; [by right |].
    intros [->|?]; done.
Qed.

(** Replacing a lane's sequence by a part of it keeps the item keys
    distinct. *)
Lemma item_keys_set_sublist items (k : string) l l' :
  obj_get items k = Some l → l' `sublist_of` l →
  NoDup (item_keys items) → NoDup (item_keys (obj_set items k l')).
Proof.
  intros Hl Hsub Hnd.
  destruct (item_keys_set _ _ _ Hl) as (rest & Hitems & Hset).
  rewrite Hset. rewrite Hitems in Hnd.
  eapply sublist_NoDup; [exact Hnd |].
  apply sublist_app; [by apply fmap_sublist | done].
Qed.

Lemma item_keys_set_nil items (k : string) :
  NoDup (item_keys items) → NoDup (item_keys (obj_set items k [])).
Proof.
  intros Hnd. destruct (obj_get items k) as [l|] eqn:Hl.
  - eapply item_keys_set_sublist; [done | apply sublist_nil_l | done].
  - rewrite obj_set_None by done. rewrite item_keys_app, item_keys_cons.
    by rewrite !app_nil_r.
Qed.

Lemma deleteItem_inv st boardItem st' :
  deleteItem st boardItem = Some st' →
  ∃ l l',
    obj_get (arrangedItems st) (lane (asBoardItem boardItem)) = Some l
    ∧ l' `sublist_of` l
    ∧ arrangedLanes st' = arrangedLanes st
    ∧ arrangedItems st'
      = obj_set (arrangedItems st) (lane (asBoardItem boardItem)) l'.
Proof.
  unfold deleteItem.
  destruct (obj_get (arrangedItems st) (lane (asBoardItem boardItem)))
    as [l|] eqn:Hl; cbn [mbind option_bind]; [|done].
  set (pos := findIndex _ l). intros [= <-].
  exists l, (splice l pos 1 []).2. cbn [arrangedLanes arrangedItems].
  rewrite cloneDeep_id. split_and!; try done.
  destruct (findIndex_itemKey boardItem l)
    as [(i & item & Hpos & Hi & _)|[Hpos _]]; unfold pos; rewrite Hpos.
  - rewrite (splice_remove _ _ _ Hi). apply sublist_delete.
  - rewrite splice_remove_last. apply sublist_take.
Qed.

Lemma moveLane_defined_keys (lanes lanes' : TBoardLanes TTextObject)
    (laneKey : string) (delta : Delta) :
  obj_wf lanes → "__proto__" ∉ obj_keys lanes → laneKey ∈ obj_keys lanes →
  moveLane lanes laneKey delta = definedLanes lanes' →
  obj_keys lanes' ≡ₚ obj_keys lanes.
Proof.
  intros Hwf Hproto Hin Hmove.
  assert (lanes ≠ []) as Hne by (intros ->; by apply elem_of_nil in Hin).
  destruct (moveLane_lanes lanes laneKey delta Hwf Hne Hproto) as [Hperm _].
  rewrite Hmove in Hperm. rewrite <- Hperm.
  unfold definedLanes, obj_keys. by rewrite <- list_fmap_compose.
Qed.

Lemma exitPendingLane_ok st (value : string) :
  board_ok st → board_ok (exitPendingLane textOfString st value).
Proof.
  intros (Hlanes & Hitems & Hnd & Hcover & Hproto).
  destruct (decide (value = "")) as [->|Hvalue]; [done |].
  rewrite exitPendingLane_nonempty by done.
  split_and!; cbn [arrangedLanes arrangedItems].
  - by apply obj_wf_set.
  - by apply obj_wf_set.
  - by apply item_keys_set_nil.
  - intros k. rewrite !elem_of_obj_keys_set. intros [->|Hk]; auto.
  - rewrite elem_of_obj_keys_set. by intros [?|?].
Qed.

(** A handler call keeps what the board keeps. *)
Lemma board_step_ok st st' :
  board_ok st → board_step doc textOfString st st' → board_ok st'.
Proof.
  intros (Hlanes & Hitems & Hnd & Hcover & Hproto) Hstep.
  destruct Hstep
    as [st event st' Hrun|st event st' Hrun
       |st event st' announcements Hrun|st laneKey delta lanes' Hin Hmove
       |st laneKey Hin|st boardItem st' Hrun|st|st|st e].
  - destruct (onDragStart_frame _ _ _ _ Hrun) as (Hl & Hi & _).
    unfold board_ok. by rewrite Hl, Hi.
  - destruct (onDragUpdate_frame _ _ _ _ Hrun) as (Hl & Hi & _).
    unfold board_ok. by rewrite Hl, Hi.
  - destruct (destination event) as [d|] eqn:Hdestination.
    + destruct (onDragEnd_commit_inv _ _ _ _ _ Hdestination Hrun)
        as (src & dst & found & moving & i & Hsrc & _ & Hdst & _ & _
            & Hmoving & -> & _).
      unfold board_ok, obj_wf. cbn [arrangedItems arrangedLanes].
      rewrite (commit_keys st event d src dst Hsrc Hdst).
      rewrite (commit_item_keys st event d src dst moving i Hsrc Hdst Hmoving)
        by apply splice_insert_Permutation.
      done.
    + unfold onDragEnd in Hrun. rewrite Hdestination in Hrun.
      destruct (obj_get _ _) as [src|]; [|done].
      cbn [mbind option_bind] in Hrun.
      destruct (find _ src) as [found|]; [|done].
      cbn [mbind option_bind] in Hrun. by injection Hrun as <- _.
  - pose proof (moveLane_defined_keys _ _ _ _ Hlanes Hproto Hin Hmove)
      as Hperm.
    unfold board_ok, obj_wf. cbn [arrangedItems arrangedLanes].
    split_and!; [by rewrite Hperm | done | done | | by rewrite Hperm].
    intros k. rewrite Hperm. apply Hcover.
  - unfold board_ok, obj_wf. cbn [deleteLane arrangedItems arrangedLanes].
    rewrite omit_keys. split_and!; [by apply NoDup_filter | done | done | |].
    + intros k [_ Hk]%list_elem_of_filter. by apply Hcover.
    + by intros [_ ?]%list_elem_of_filter.
  - destruct (deleteItem_inv _ _ _ Hrun) as (l & l' & Hl & Hsub & Hl' & Hi').
    unfold board_ok. rewrite Hl', Hi'.
    split_and!;
      [done | by apply obj_wf_set | by eapply item_keys_set_sublist | | done].
    intros k Hk. apply elem_of_obj_keys_set. right. by apply Hcover.
  - done.
  - unfold renderBoard. by destruct (addingLane st).
  - destruct e as [value|key value]; simpl.
    + by apply exitPendingLane_ok.
    + repeat case_decide; [by apply exitPendingLane_ok
                          | by apply exitPendingLane_ok | done].
Qed.

(** Property X27: from lanes and items without repeated keys, the lanes
    having no key [__proto__] and no item naming a lane [hasOwnProperty],
    [Board] starts; the board it starts with, and every board that handler
    calls make of it, in any number of calls that return, with any events,
    has distinct lane keys, no item key twice, an item sequence for every
    lane, and no lane under [__proto__]. *)
Theorem board_keeps_cards_apart (lanes : TBoardLanes TTextObject)
    (items : TBoardItems TTextObject CustomFields) (counter : nat) :
  obj_wf lanes → obj_wf items → "__proto__" ∉ obj_keys lanes →
  no_shadowing items →
  ∃ st0,
    initialBoard lanes items counter = Some st0
    ∧ ∀ st, rtc (board_step doc textOfString) st0 st → board_ok st.
Proof.
  intros Hlanes Hitems Hproto Hshadow. unfold initialBoard.
  destruct (prepareBoardItems_returns items lanes Hshadow)
    as [prepared Hrun].
  rewrite Hrun. cbn [mbind option_bind]. eexists. split; [done |].
  intros st Hsteps.
  match type of Hsteps with rtc _ ?st0 _ => assert (board_ok st0) as Hinit end.
  { unfold board_ok, obj_wf. cbn [arrangedLanes arrangedItems].
    pose proof (prepareBoardItems_keys _ _ _ Hrun Hlanes Hproto) as Hkeys.
    split_and!; [done | by rewrite Hkeys
                | by eapply prepareBoardItems_item_keys | | done].
    intros k. by rewrite Hkeys. }
  revert Hinit. induction Hsteps as [st|st st1 st2 Hstep _ IH]; [done |].
  intros Hok. apply IH. by eapply board_step_ok.
Qed.

End BoardKeeps.

(** ** Where the placeholder can be *)

Lemma slice_from_start {A} (l : list A) (end_ : Z) :
  slice l 0 end_
  = take (Z.to_nat (relative_index (Z.of_nat (length l)) end_)) l.
Proof.
  unfold slice.
  replace (relative_index (Z.of_nat (length l)) 0) with 0 by solve_clamp.
  rewrite Z.sub_0_r. change (Z.to_nat 0) with 0%nat. by rewrite drop_0.
Qed.

Lemma sum_heights_app (els1 els2 : list Element) :
  sum_heights (els1 ++ els2) = sum_heights els1 + sum_heights els2.
Proof.
  induction els1 as [|el els1 IH]; [done |].
  cbn [app sum_heights foldr]. fold (sum_heights (els1 ++ els2)).
  fold (sum_heights els1). lia.
Qed.

Lemma sum_heights_nonneg (els : list Element) :
  (∀ el, el ∈ els → 0 ≤ clientHeight el) → 0 ≤ sum_heights els.
Proof.
  induction els as [|el els IH]; intros Hall; [done |].
  cbn [sum_heights foldr]. fold (sum_heights els).
  assert (0 ≤ clientHeight el) by (apply Hall; left).
  assert (0 ≤ sum_heights els) by (apply IH; intros ? ?; apply Hall; by right).
  lia.
Qed.

(** Property X28: when no child of the lane's container has a negative height,
    the top of the placeholder is never above the top padding of 2 and never
    below the place under all the other cards, whatever the index, also a
    negative one or one past the end; it is at the top padding for index 0 and
    under all other cards for an index that is not less than their number. The
    other cards are the children that carry a draggable id other than the
    dragged one. *)
Theorem placeholder_within_lane (draggable parent : Element)
    (draggableId : string) (endIndex : Z) :
  (∀ child, child ∈ children parent → 0 ≤ clientHeight child) →
  is_Some (parentNode draggable) →
  let others := List.filter (other_draggable draggableId) (children parent) in
  let bottom := 2 + sum_heights others + 8 * Z.of_nat (length others) in
  ∃ y,
    getPlaceholderPosition (Some draggable)
      (getClientYChildren parent draggableId endIndex)
    = Some (20, y, clientWidth draggable, clientHeight draggable)
    ∧ 2 ≤ y ≤ bottom
    ∧ (endIndex = 0 → y = 2)
    ∧ (Z.of_nat (length others) ≤ endIndex → y = bottom).
Proof.
  intros Hheights [node Hparent]. cbv zeta.
  unfold getPlaceholderPosition. rewrite Hparent. unfold getClientYChildren.
  change (List.filter _ (children parent))
    with (List.filter (other_draggable draggableId) (children parent)).
  set (others := List.filter (other_draggable draggableId) (children parent)).
  rewrite slice_from_start, clientY_fold.
  set (n := Z.to_nat (relative_index (Z.of_nat (length others)) endIndex)).
  eexists. split; [done |].
  assert (∀ el, el ∈ others → 0 ≤ clientHeight el) as Hothers.
  { intros el Hel%list_elem_of_In%filter_In. apply Hheights.
    apply list_elem_of_In. tauto. }
  assert (0 ≤ sum_heights (take n others)) as Htake.
  { apply sum_heights_nonneg. intros el Hel. apply Hothers.
    eapply elem_of_sublist; [done | apply sublist_take]. }
  assert (0 ≤ sum_heights (drop n others)) as Hdrop.
  { apply sum_heights_nonneg. intros el Hel. apply Hothers.
    eapply elem_of_sublist; [done | apply sublist_drop]. }
  pose proof (sum_heights_app (take n others) (drop n others)) as Hsum.
  rewrite take_drop in Hsum.
  split_and!.
  - lia.
  - rewrite length_take. lia.
  - intros ->. subst n.
    replace (relative_index (Z.of_nat (length others)) 0) with 0
      by solve_clamp.
    done.
  - intros Hpast. subst n.
    replace (relative_index (Z.of_nat (length others)) endIndex)
      with (Z.of_nat (length others))
      by (unfold relative_index; destruct (Z.ltb_spec endIndex 0); lia).
    rewrite Nat2Z.id, take_ge by lia. done.
Qed.

(** ** The board as it starts *)

Section InitialBoard.
Context {TTextObject CustomFields : Type}.
Implicit Types (items : TBoardItems TTextObject CustomFields).
Implicit Types (lanes : TBoardLanes TTextObject).
Implicit Types (l : list (IPreparedBoardItem TTextObject CustomFields)).

(** The cards that name one of the given lane keys are those that name the
    first key and those that name one of the others. *)
Lemma in_lanes_cons (k : string) (ks : list string) l :
  k ∉ ks →
  filter (λ item, lane (asBoardItem item) ∈ k :: ks) l
  ≡ₚ in_lane k l ++ filter (λ item, lane (asBoardItem item) ∈ ks) l.
Proof.
  intros Hk. unfold in_lane. induction l as [|item l IH]; [done |].
  destruct (decide (lane (asBoardItem item) = k)) as [Heq|Hne].
  - rewrite (filter_cons_True (λ item, lane (asBoardItem item) ∈ k :: ks))
      by (rewrite Heq; left).
    rewrite (filter_cons_True (λ item, lane (asBoardItem item) = k)) by done.
    rewrite (filter_cons_False (λ item, lane (asBoardItem item) ∈ ks))
      by (by rewrite Heq).
    simpl. by rewrite IH.
  - rewrite (filter_cons_False (λ item, lane (asBoardItem item) = k)) by done.
    destruct (decide (lane (asBoardItem item) ∈ ks)) as [Hin|Hnin].
    + rewrite (filter_cons_True (λ item, lane (asBoardItem item) ∈ k :: ks))
        by (by right).
      rewrite (filter_cons_True (λ item, lane (asBoardItem item) ∈ ks))
        by done.
      rewrite IH. apply Permutation_middle.
    + rewrite (filter_cons_False (λ item, lane (asBoardItem item) ∈ k :: ks))
        by (rewrite not_elem_of_cons; done).
      by rewrite (filter_cons_False (λ item, lane (asBoardItem item) ∈ ks))
        by done.
Qed.

Lemma in_lanes_nil l :
  filter (λ item, lane (asBoardItem item) ∈ @nil string) l = [].
Proof.
  induction l as [|item l IH]; [done |].
  by rewrite filter_cons_False by apply not_elem_of_nil.
Qed.

(** Property X29: on lanes without repeated keys and without a key
    [__proto__], when no item names a lane [hasOwnProperty], [Board] starts
    with the lanes it was given, no lane being added, and a sequence for each
    lane, under the lane keys in the order [Object.keys] lists them in; the
    cards on it are the items that name one of the lanes, each of them once,
    whatever their orders. Items that name no lane of the board are on no
    lane. When an item names a lane [hasOwnProperty] and the board has a
    lane, there is no board: the first render throws. *)
Theorem initialBoard_cards lanes items (counter : nat) :
  obj_wf lanes → "__proto__" ∉ obj_keys lanes →
  (no_shadowing items →
   ∃ st,
     initialBoard lanes items counter = Some st
     ∧ arrangedLanes st = lanes
     ∧ addingLane st = false
     ∧ obj_keys (arrangedItems st) ≡ₚ obj_keys lanes
     ∧ (js_ordered (obj_keys lanes) →
        obj_keys (arrangedItems st) = obj_keys lanes)
     ∧ item_keys (arrangedItems st)
       ≡ₚ itemKey
          <$> filter (λ item, lane (asBoardItem item) ∈ obj_keys lanes)
                (keyed_items items))
  ∧ (¬ no_shadowing items → lanes ≠ [] →
     initialBoard lanes items counter = None).
Proof.
  intros Hwf Hproto. unfold initialBoard. split.
  - intros Hshadow.
    destruct (prepareBoardItems_returns items lanes Hshadow)
      as [prepared Hrun].
    rewrite Hrun. cbn [mbind option_bind]. eexists. split; [done |].
    cbn [arrangedLanes addingLane arrangedItems].
    split_and!; [done | done | by eapply prepareBoardItems_keys | |].
    + intros Hsorted.
      rewrite (prepareBoardItems_eq items lanes prepared) by done.
      unfold obj_keys at 1. rewrite <- list_fmap_compose. apply list_fmap_id.
    + rewrite (item_keys_Permutation _ _
                 (prepareBoardItems_Permutation _ _ _ Hrun Hwf Hproto)).
      clear Hrun Hproto. unfold obj_wf in Hwf.
      induction Hwf as [|k ks Hk Hks IH].
      * by rewrite in_lanes_nil.
      * rewrite fmap_cons, item_keys_cons, IH, in_lanes_cons by done.
        by rewrite fmap_app, sort_Permutation.
  - intros Hshadow Hlanes.
    apply not_Forall_Exists in Hshadow; [|apply _].
    apply Exists_exists in Hshadow as ([key it] & Hin & Hlane).
    apply dec_stable in Hlane.
    by rewrite (prepareBoardItems_None items lanes key it).
Qed.

End InitialBoard.

(** ** Sample runs of the other handlers *)

(** Distinctness of keys and ranks of the sample lanes are decided by
    evaluation. *)
Ltac by_evaluation := apply (bool_decide_unpack _); vm_compute; exact I.

Ltac ranked_by_cases :=
  let n := fresh "n" in
  let item := fresh "item" in
  let Hn := fresh "Hn" in
  intros n item Hn;
  repeat (destruct n as [|n]; [by injection Hn as <- |]);
  done.

Example onDragEnd_sampleDropped :
  onDragEnd sampleBoard sampleDrop
  = Some (sampleDropped, [OnDragEndBoardItem "i3" 2 1%nat (Some "Doing")]).
Proof. reflexivity. Qed.

Lemma lane_visible_after_three_renders_witness :
  laneOpacity (drawnLayout [None; None; None] 3) = 1
  ∧ laneOpacity (drawnLayout [None; None; None] 2) = 0
  ∧ rendersItems (drawnLayout [None; None; None] 2) (Some ["card"]) = true.
Proof.
  destruct (lane_visible_after_three_renders [None; None; None] 3)
    as (Hvisible & _ & _); [simpl; lia |].
  destruct (lane_visible_after_three_renders [None; None; None] 2)
    as (_ & Hitems & _); [simpl; lia |].
  split_and!.
  - apply Hvisible. lia.
  - reflexivity.
  - apply (Hitems string ["card"]); [discriminate | lia].
Defined.


Lemma deleteLane_enabled_keeps_cards_witness :
  boardCards (deleteLane exampleBoard "B") (λ _, visibleLane)
  = boardCards exampleBoard (λ _, visibleLane).
Proof.
  apply (deleteLane_enabled_keeps_cards exampleBoard "B" (λ _, visibleLane)).
  - by_evaluation.
  - reflexivity.
Defined.

Lemma exitPendingLane_existing_key_witness :
  obj_keys (arrangedLanes (exitPendingLane id importedBoard "Review"))
  = ["sl1"; "todo"]
  ∧ obj_get (arrangedLanes (exitPendingLane id importedBoard "Review")) "sl1"
    = Some {| title := "Review" |}
  ∧ obj_get (arrangedItems (exitPendingLane id importedBoard "Review")) "sl1"
    = Some [].
Proof.
  destruct (exitPendingLane_existing_key id importedBoard "Review")
    as (Hkeys & Htitle & _ & Hitems).
  - discriminate.
  - by_evaluation.
  - split_and!; [exact Hkeys | exact Htitle | exact Hitems].
Defined.

Lemma exitPendingLane_twice_witness :
  arrangedLanes
    (exitPendingLane id
       (Nat.iter 2 renderBoard
          (add_column (exitPendingLane id sampleBoard "Review"))) "Blocked")
  = threeLanes ++ [("sl1", {| title := "Review" |});
                   ("sl4", {| title := "Blocked" |})].
Proof.
  destruct (exitPendingLane_twice id sampleBoard "Review" "Blocked" 2)
    as (_ & Hlanes & _).
  - discriminate.
  - discriminate.
  - by_evaluation.
  - by_evaluation.
  - exact Hlanes.
Defined.


Lemma deleteItem_removes_card_witness :
  ∃ st',
    deleteItem sampleBoard (sampleItem "i3" "todo" 0) = Some st'
    ∧ arrangedLanes st' = threeLanes
    ∧ obj_get (arrangedItems st') "todo" = Some [sampleItem "i1" "todo" 1].
Proof.
  destruct (deleteItem_removes_card sampleBoard (sampleItem "i3" "todo" 0)
              [sampleItem "i3" "todo" 0; sampleItem "i1" "todo" 1] 0
              (sampleItem "i3" "todo" 0) eq_refl)
    as (st' & Hrun & Hlanes & Hlane & _).
  - by_evaluation.
  - reflexivity.
  - reflexivity.
  - exists st'. split_and!; [exact Hrun | exact Hlanes | exact Hlane].
Defined.

Lemma deleteItem_keeps_orders_witness :
  ∃ st' l',
    deleteItem sampleBoard (sampleItem "i3" "todo" 0) = Some st'
    ∧ obj_get (arrangedItems st') "todo" = Some l'
    ∧ ¬ ranked l'.
Proof.
  destruct (deleteItem_keeps_orders sampleBoard (sampleItem "i3" "todo" 0)
              [sampleItem "i3" "todo" 0; sampleItem "i1" "todo" 1] 0
              (sampleItem "i3" "todo" 0) eq_refl)
    as (st' & l' & Hrun & Hlane & _ & Hranked).
  - by_evaluation.
  - reflexivity.
  - reflexivity.
  - ranked_by_cases.
  - exists st', l'. split_and!; [exact Hrun | exact Hlane |].
    intros Hl'. apply Hranked in Hl'. discriminate.
Defined.

Lemma deleteItem_key_absent_witness :
  deleteItem sampleBoard (sampleItem "i3" "done" 0)
  = Some {| arrangedLanes := threeLanes;
            arrangedItems :=
              [("todo", [sampleItem "i3" "todo" 0; sampleItem "i1" "todo" 1]);
               ("doing", [sampleItem "i2" "doing" 0]);
               ("done", [sampleItem "i5" "done" 0])];
            addingLane := false;
            placeholderPosition := Some (20, 2, 240, 64);
            idCounter := 0 |}.
Proof.
  apply (deleteItem_key_absent sampleBoard (sampleItem "i3" "done" 0)
           [sampleItem "i5" "done" 0; sampleItem "i6" "done" 1] eq_refl).
  by_evaluation.
Defined.

Lemma onDragEnd_conserves_cards_witness :
  item_keys (arrangedItems sampleDropped) ≡ₚ item_keys (arrangedItems sampleBoard)
  ∧ obj_keys (arrangedItems sampleDropped) = obj_keys (arrangedItems sampleBoard).
Proof.
  destruct (onDragEnd_conserves_cards sampleBoard sampleDrop sampleDropped
              [OnDragEndBoardItem "i3" 2 1%nat (Some "Doing")] eq_refl)
    as (Hcards & Hkeys & _).
  split; [exact Hcards | exact Hkeys].
Defined.

Lemma onDragEnd_landing_position_witness :
  ∃ st' announcements l,
    onDragEnd sampleBoard sampleDropPastEnd = Some (st', announcements)
    ∧ obj_get (arrangedItems st') "doing" = Some l
    ∧ l !! 1%nat = Some (sampleItem "i3" "todo" 1).
Proof.
  destruct (onDragEnd_landing_position sampleBoard sampleDropPastEnd
              {| droppableId := "doing"; index := 5 |}
              [sampleItem "i3" "todo" 0; sampleItem "i1" "todo" 1]
              [sampleItem "i2" "doing" 0]
              (sampleItem "i3" "todo" 0) (sampleItem "i3" "todo" 0) 0
              eq_refl eq_refl eq_refl (or_intror (mk_is_Some _ _ eq_refl))
              eq_refl eq_refl eq_refl)
    as (st' & announcements & l & Hrun & Hl & Hat & _).
  exists st', announcements, l.
  split_and!; [exact Hrun | exact Hl | exact Hat].
Defined.

Lemma onDragEnd_changes_only_order_witness :
  ∃ k0 l item,
    obj_get (arrangedItems sampleBoard) k0 = Some l ∧ item ∈ l
    ∧ sampleItem "i3" "todo" 1 = resetOrder item 1.
Proof.
  apply (onDragEnd_changes_only_order sampleBoard sampleDrop sampleDropped
           [OnDragEndBoardItem "i3" 2 1%nat (Some "Doing")] eq_refl
           "doing" [sampleItem "i2" "doing" 0; sampleItem "i3" "todo" 1]
           (sampleItem "i3" "todo" 1) eq_refl).
  apply list_elem_of_lookup_2 with 1%nat. reflexivity.
Defined.

Lemma onDragEnd_moves_dragged_card_witness :
  ∃ st' announcements l (j : nat),
    onDragEnd sampleBoard sampleDrop = Some (st', announcements)
    ∧ obj_get (arrangedItems st') "doing" = Some l
    ∧ l !! j = Some (resetOrder (sampleItem "i3" "todo" 0) (Z.of_nat j))
    ∧ "i3" = "i3".
Proof.
  apply (onDragEnd_moves_dragged_card sampleBoard sampleDrop
           {| droppableId := "doing"; index := 1 |}
           [sampleItem "i3" "todo" 0; sampleItem "i1" "todo" 1]
           [sampleItem "i2" "doing" 0] (sampleItem "i3" "todo" 0)
           eq_refl eq_refl eq_refl eq_refl).
  - ranked_by_cases.
  - right. by eexists.
  - reflexivity.
Defined.

Lemma initialBoard_order_past_end_witness :
  is_Some (initialBoard threeLanes sampleItems 0)
  ∧ (st ← initialBoard threeLanes sampleItems 0; onDragEnd st sampleFirstDrag)
    = None.
Proof.
  destruct (initialBoard_order_past_end threeLanes sampleItems 0 "i1"
              (asBoardItem (sampleItem "i1" "todo" 7)) sampleFirstDrag
              {| droppableId := "doing"; index := 0 |})
    as [Hstarts Hthrows].
  - apply list_elem_of_lookup_2 with 0%nat. reflexivity.
  - by_evaluation.
  - vm_compute. discriminate.
  - reflexivity.
  - reflexivity.
  - reflexivity.
  - split; [apply Hstarts; by_evaluation | exact Hthrows].
Defined.

Lemma deleteItem_after_cross_lane_move_witness :
  ∃ st1 announcements card st2,
    onDragEnd sampleBoard sampleDrop = Some (st1, announcements)
    ∧ default [] (obj_get (arrangedItems st1) "doing") !! 1%nat = Some card
    ∧ itemKey card = "i3"
    ∧ lane (asBoardItem card) = "todo"
    ∧ deleteItem st1 card = Some st2
    ∧ obj_get (arrangedItems st2) "doing" = obj_get (arrangedItems st1) "doing"
    ∧ obj_get (arrangedItems st2) "todo" = Some [].
Proof.
  apply (deleteItem_after_cross_lane_move sampleBoard sampleDrop
           {| droppableId := "doing"; index := 1 |}
           [sampleItem "i3" "todo" 0; sampleItem "i1" "todo" 1]
           [sampleItem "i2" "doing" 0] (sampleItem "i3" "todo" 0) 0 1
           eq_refl eq_refl eq_refl (or_intror (mk_is_Some _ _ eq_refl))
           eq_refl eq_refl eq_refl eq_refl).
  - simpl. lia.
  - discriminate.
  - reflexivity.
  - by_evaluation.
Defined.

Lemma onDragEnd_there_and_back_witness :
  ∃ st1 announcements1 st2 announcements2,
    onDragEnd sampleBoard sampleDrop = Some (st1, announcements1)
    ∧ onDragEnd st1 (dropBack sampleDrop {| droppableId := "doing"; index := 1 |})
      = Some (st2, announcements2)
    ∧ arrangedItems st2 = arrangedItems sampleBoard
    ∧ arrangedLanes st2 = arrangedLanes sampleBoard.
Proof.
  apply (onDragEnd_there_and_back sampleBoard sampleDrop
           {| droppableId := "doing"; index := 1 |}
           [sampleItem "i3" "todo" 0; sampleItem "i1" "todo" 1]
           [sampleItem "i2" "doing" 0] (sampleItem "i3" "todo" 0) 0 1
           eq_refl eq_refl eq_refl (or_intror (mk_is_Some _ _ eq_refl))
           (or_intror (mk_is_Some _ _ eq_refl))
           eq_refl eq_refl eq_refl eq_refl).
  - ranked_by_cases.
  - ranked_by_cases.
  - simpl. lia.
Defined.

Lemma moveLane_from_menu_witness :
  obj_keys (moveLane threeLanes "doing" Further) = ["todo"; "done"; "doing"]
  ∧ obj_keys (moveLane threeLanes "doing" Nearer) = ["doing"; "todo"; "done"]
  ∧ obj_keys (moveLane threeLanes "done" Further) = obj_keys threeLanes
  ∧ obj_keys (moveLane threeLanes "todo" Nearer) = ["doing"; "todo"; "done"]
  ∧ obj_keys (moveLane threeLanes "todo" Nearer) ≠ obj_keys threeLanes.
Proof.
  assert (obj_wf (arrangedLanes sampleBoard)) as Hwf by by_evaluation.
  assert (Forall plain_key (obj_keys (arrangedLanes sampleBoard))) as Hplain
    by by_evaluation.
  destruct (moveLane_from_menu sampleBoard "doing" 1 Further Hwf Hplain eq_refl)
    as (Hfurther & _ & _).
  destruct (moveLane_from_menu sampleBoard "doing" 1 Nearer Hwf Hplain eq_refl)
    as (Hnearer & _ & _).
  destruct (moveLane_from_menu sampleBoard "done" 2 Further Hwf Hplain eq_refl)
    as (_ & Hlast & _).
  destruct (moveLane_from_menu sampleBoard "todo" 0 Nearer Hwf Hplain eq_refl)
    as (_ & Hfirst & Hguard).
  split_and!.
  - exact (Hfurther eq_refl).
  - exact (Hnearer eq_refl).
  - exact (Hlast eq_refl).
  - exact (Hfirst eq_refl).
  - apply (Hguard eq_refl). simpl. lia.
Defined.

Lemma moveLane_and_back_witness :
  ∃ lanes',
    moveLane threeLanes "doing" Further = definedLanes lanes'
    ∧ obj_keys lanes' = ["todo"; "done"; "doing"]
    ∧ moveLane lanes' "doing" Nearer = definedLanes threeLanes.
Proof.
  apply (moveLane_and_back threeLanes "doing" 1 Further).
  - by_evaluation.
  - by_evaluation.
  - reflexivity.
  - simpl. lia.
Defined.

Lemma onDragStart_announces_position_witness :
  (onDragStart sampleDocument sampleBoard sampleStart).1
  = [OnDragStartBoardItem "i3" 1 2%nat "To do"]
  ∧ ((onDragStart sampleDocument sampleBoard sampleStart).2 = None
     ↔ getDraggable sampleDocument "i3" = None).
Proof.
  apply (onDragStart_announces_position sampleDocument sampleBoard sampleStart
           [sampleItem "i3" "todo" 0; sampleItem "i1" "todo" 1] 0
           (sampleItem "i3" "todo" 0) (sampleLane "To do") eq_refl eq_refl).
  - by_evaluation.
  - reflexivity.
  - reflexivity.
Defined.

(** The start of a drag of a card whose key has a quote in it: the
    announcement is made, then the handler throws. *)
Example onDragStart_quoted_key :
  onDragStart sampleDocument quotedBoard quotedStart
  = ([OnDragStartBoardItem "it's" 1 1%nat "To do"], None).
Proof. reflexivity. Qed.

Lemma board_keeps_cards_apart_witness :
  ∃ st0,
    initialBoard threeLanes sampleItems 0 = Some st0
    ∧ board_ok
        (pendingLaneInput id
           (renderBoard (deleteLane (add_column st0) "done"))
           (Blur "Review")).
Proof.
  destruct (board_keeps_cards_apart sampleDocument id threeLanes sampleItems 0)
    as (st0 & Hstart & Hkeeps); [by_evaluation.. |].
  exists st0. split; [exact Hstart |]. apply Hkeeps.
  vm_compute in Hstart. injection Hstart as <-.
  eapply rtc_l; [apply step_add_column |].
  eapply rtc_l; [apply (step_deleteLane _ _ _ "done"); by_evaluation |].
  eapply rtc_l; [apply step_renderBoard |].
  apply rtc_once. apply step_pendingLaneInput.
Defined.

Lemma placeholder_within_lane_witness :
  ∃ y,
    getPlaceholderPosition (Some (sampleCard "i3" 64))
      (getClientYChildren sampleLaneContent "i3" 5)
    = Some (20, y, 240, 64)
    ∧ 2 ≤ y ≤ 90.
Proof.
  destruct (placeholder_within_lane (sampleCard "i3" 64) sampleLaneContent
              "i3" 5) as (y & Hposition & Hbounds & _).
  - intros child Hchild. simpl in Hchild.
    repeat (apply elem_of_cons in Hchild as [->|Hchild]; [simpl; lia |]).
    by apply elem_of_nil in Hchild.
  - by eexists.
  - exists y. split; [exact Hposition | exact Hbounds].
Defined.

Lemma initialBoard_cards_witness :
  (∃ st,
     initialBoard threeLanes sampleItems 0 = Some st
     ∧ arrangedLanes st = threeLanes
     ∧ obj_keys (arrangedItems st) = ["todo"; "doing"; "done"]
     ∧ item_keys (arrangedItems st) ≡ₚ ["i1"; "i2"; "i3"])
  ∧ initialBoard threeLanes shadowItems 0 = None.
Proof.
  destruct (initialBoard_cards threeLanes sampleItems 0) as [Hstarts _];
    [by_evaluation | by_evaluation |].
  destruct (initialBoard_cards threeLanes shadowItems 0) as [_ Hthrows];
    [by_evaluation | by_evaluation |].
  destruct Hstarts as (st & Hstart & Hlanes & _ & _ & Hkeys & Hcards);
    [by_evaluation |].
  split.
  - exists st.
    split_and!; [exact Hstart | exact Hlanes | apply Hkeys; by_evaluation
                | exact Hcards].
  - apply Hthrows; [|discriminate].
    intros Hshadow. apply Forall_cons in Hshadow as [_ Hshadow].
    apply Forall_cons in Hshadow as [Hlane _]. by apply Hlane.
Defined.
